(** * AutoPodcastGPT: the segmentation and parallel synthesis pipeline

    A shallow embedding of [src/main.go]: the sentence splitter
    ([splitIntoSentences]), the chunk builder ([splitTextIntoChunks]), the
    bounded scheduler ([generateTTSAudioParallel]) and the assembler
    ([concatenateMP3Files]), with the properties of the specification
    stated and settled over them; then the synthesis call
    ([generateTTSAudio]) on the file system, the scheduler with the calls
    and the files, the console ([getValidChoice], the two collectors,
    [stringToInt]) and the program ([checkAPIKey], [main]).

    A Go [string] is a sequence of bytes: it is modelled as [list ascii],
    and [len] is [length].  The functions of Go's [strings] package that the
    program calls are modelled first, from their documented behaviour. *)

From stdpp Require Import base list strings gmap.
From Stdlib Require Import ZArith Lia Ascii String List Bool DecimalString.
From Stdlib Require DecimalNat DecimalFacts.
Import ListNotations.

Local Open Scope list_scope.
Local Open Scope Z_scope.

(** ** Go strings as byte sequences *)

Abbreviation gostring := (list ascii).

(** A string literal, as the bytes of its text. *)
Definition lit (s : string) : gostring := list_ascii_of_string s.

(** [len(s)], a Go [int]. *)
Definition len (s : gostring) : Z := Z.of_nat (length s).

Module GoStrings.

(** *** White space, as [unicode.IsSpace] defines it

    [strings.TrimSpace] and [strings.Fields] decode the string as UTF-8 and
    test each rune with [unicode.IsSpace]: the Latin-1 spaces
    ['\t', '\n', '\v', '\f', '\r', ' ', U+0085, U+00A0] and, above Latin-1,
    the [White_Space] range table. *)

Definition IsSpace (r : N) : bool :=
  (if r <=? 255
   then ((9 <=? r) && (r <=? 13)) || (r =? 32) || (r =? 133) || (r =? 160)
   else (r =? 5760)                                (* U+1680 *)
        || ((8192 <=? r) && (r <=? 8202))          (* U+2000 .. U+200A *)
        || ((8232 <=? r) && (r <=? 8233))          (* U+2028, U+2029 *)
        || (r =? 8239)                             (* U+202F *)
        || (r =? 8287)                             (* U+205F *)
        || (r =? 12288))%N.                        (* U+3000 *)

Definition byteval (c : ascii) : N := N_of_ascii c.

(** A continuation byte, [10xxxxxx]. *)
Definition isCont (c : ascii) : bool :=
  ((128 <=? byteval c) && (byteval c <=? 191))%N.

(** The rune of a well-formed two-byte sequence ([utf8.DecodeRuneInString],
    lead bytes [C2 .. DF]). *)
Definition decode2 (a b : ascii) : option N :=
  (if (194 <=? byteval a) && (byteval a <=? 223) && isCont b
   then Some (N.lor (N.shiftl (N.land (byteval a) 31) 6)
                    (N.land (byteval b) 63))
   else None)%N.

(** The rune of a well-formed three-byte sequence (lead bytes [E0 .. EF];
    the second byte of [E0] starts at [A0], that of [ED] ends at [9F]). *)
Definition decode3 (a b c : ascii) : option N :=
  (if (224 <=? byteval a) && (byteval a <=? 239) && isCont b && isCont c
      && negb ((byteval a =? 224) && (byteval b <? 160))
      && negb ((byteval a =? 237) && (159 <? byteval b))
   then Some (N.lor (N.shiftl (N.land (byteval a) 15) 12)
                (N.lor (N.shiftl (N.land (byteval b) 63) 6)
                       (N.land (byteval c) 63)))
   else None)%N.

Definition space1 (a : ascii) : bool :=
  (byteval a <? 128)%N && IsSpace (byteval a).

Definition space2 (a b : ascii) : bool :=
  match decode2 a b with Some r => IsSpace r | None => false end.

Definition space3 (a b c : ascii) : bool :=
  match decode3 a b c with Some r => IsSpace r | None => false end.

(** The width in bytes of the white-space rune that [s] starts with, [0]
    when it starts with none.  No rune of four bytes is white space, and a
    byte that decodes to [utf8.RuneError] is not white space either. *)
Definition spaceWidth (s : gostring) : nat :=
  match s with
  | [] => 0%nat
  | a :: s1 =>
      if space1 a then 1%nat else
      match s1 with
      | [] => 0%nat
      | b :: s2 =>
          if space2 a b then 2%nat else
          match s2 with
          | [] => 0%nat
          | c :: _ => if space3 a b c then 3%nat else 0%nat
          end
      end
  end.

(** The same for the rune that a string ends with
    ([utf8.DecodeLastRuneInString]), read on the reversed string. *)
Definition spaceWidthRev (r : gostring) : nat :=
  match r with
  | [] => 0%nat
  | c :: r1 =>
      if space1 c then 1%nat else
      match r1 with
      | [] => 0%nat
      | b :: r2 =>
          if space2 b c then 2%nat else
          match r2 with
          | [] => 0%nat
          | a :: _ => if space3 a b c then 3%nat else 0%nat
          end
      end
  end.

(** [dropRunes w s 0] removes from the front of [s] the runes that [w]
    recognises; [skip] counts the bytes of the current rune still to drop. *)
Fixpoint dropRunes (w : gostring -> nat) (s : gostring) (skip : nat) : gostring :=
  match s with
  | [] => []
  | _ :: s' =>
      match skip with
      | S k => dropRunes w s' k
      | O => match w s with
             | O => s
             | S k => dropRunes w s' k
             end
      end
  end.

(** [strings.TrimLeftFunc(s, unicode.IsSpace)]. *)
Definition TrimLeft (s : gostring) : gostring := dropRunes spaceWidth s 0.

(** [strings.TrimRightFunc(s, unicode.IsSpace)]. *)
Definition TrimRight (s : gostring) : gostring :=
  rev (dropRunes spaceWidthRev (rev s) 0).

(** [strings.TrimSpace]: all leading and trailing white space removed. *)
Definition TrimSpace (s : gostring) : gostring := TrimRight (TrimLeft s).

(** A completed field is kept when it is not empty. *)
Definition consField (w : gostring) (ws : list gostring) : list gostring :=
  match w with [] => ws | _ => w :: ws end.

(** The scan of [strings.Fields]: the bytes of the field in progress and
    the fields after it. *)
Fixpoint fieldsFrom (s : gostring) (skip : nat) : gostring * list gostring :=
  match s with
  | [] => ([], [])
  | c :: s' =>
      match skip with
      | S k => fieldsFrom s' k
      | O => match spaceWidth s with
             | O => let '(w, ws) := fieldsFrom s' 0 in (c :: w, ws)
             | S k => let '(w, ws) := fieldsFrom s' k in ([], consField w ws)
             end
      end
  end.

(** [strings.Fields]: the maximal runs of bytes between white space; empty
    when [s] holds only white space. *)
Definition Fields (s : gostring) : list gostring :=
  let '(w, ws) := fieldsFrom s 0 in consField w ws.

(** Whether [p] is a prefix of [s] ([strings.HasPrefix]). *)
Fixpoint HasPrefix (s p : gostring) {struct p} : bool :=
  match p, s with
  | [], _ => true
  | _ :: _, [] => false
  | x :: p', y :: s' => Ascii.eqb x y && HasPrefix s' p'
  end.

(** [strings.ReplaceAll(s, old, new)] for a non-empty [old]: the
    non-overlapping instances of [old], found from the left, are replaced. *)
Fixpoint replaceFrom (old new : gostring) (s : gostring) (skip : nat) : gostring :=
  match s with
  | [] => []
  | c :: s' =>
      match skip with
      | S k => replaceFrom old new s' k
      | O => if HasPrefix s old
             then new ++ replaceFrom old new s' (length old - 1)
             else c :: replaceFrom old new s' 0
      end
  end.

Definition ReplaceAll (s old new : gostring) : gostring :=
  replaceFrom old new s 0.

(** The scan of [strings.Split]: the piece in progress and the pieces
    after it. *)
Fixpoint splitFrom (sep : gostring) (s : gostring) (skip : nat)
  : gostring * list gostring :=
  match s with
  | [] => ([], [])
  | c :: s' =>
      match skip with
      | S k => splitFrom sep s' k
      | O => if HasPrefix s sep
             then let '(p, ps) := splitFrom sep s' (length sep - 1) in ([], p :: ps)
             else let '(p, ps) := splitFrom sep s' 0 in (c :: p, ps)
      end
  end.

(** [strings.Split(s, sep)] for a non-empty [sep]: the pieces of [s]
    between the instances of [sep]; one piece more than there are
    instances, so never an empty slice. *)
Definition Split (s sep : gostring) : list gostring :=
  let '(p, ps) := splitFrom sep s 0 in p :: ps.

(** [strings.Join(elems, sep)]. *)
Fixpoint Join (elems : list gostring) (sep : gostring) : gostring :=
  match elems with
  | [] => []
  | x :: rest =>
      match rest with
      | [] => x
      | _ :: _ => x ++ sep ++ Join rest sep
      end
  end.

(** The bytes of [s] that belong to no white-space rune, in order. *)
Fixpoint keepFrom (s : gostring) (skip : nat) : gostring :=
  match s with
  | [] => []
  | c :: s' =>
      match skip with
      | S k => keepFrom s' k
      | O => match spaceWidth s with
             | O => c :: keepFrom s' 0
             | S k => keepFrom s' k
             end
      end
  end.

Definition nonSpace (s : gostring) : gostring := keepFrom s 0.

End GoStrings.

Import GoStrings.

(** ** The sentence splitter and the chunk builder *)

(** The marker [splitIntoSentences] inserts after each terminator. *)
Definition SEP : gostring := lit "|SEP|".

Definition separators : list gostring := [lit "."; lit "?"; lit "!"].

(** [splitIntoSentences]: each separator [sep] is replaced by
    [sep + "|SEP|"], the result is split at ["|SEP|"], and every part is
    trimmed in place. *)
Definition splitIntoSentences (text : gostring) : list gostring :=
  let replacerStr :=
    fold_left (fun replacerStr sep => ReplaceAll replacerStr sep (sep ++ SEP))
              separators text in
  let parts := Split replacerStr SEP in
  map TrimSpace parts.

(** The state of a [strings.Builder] loop: the chunks appended so far and
    the contents of the builder. *)
Definition builderState : Type := list gostring * gostring.

(** One iteration of the loop over the words of an oversized sentence
    ([partialSentence] is the builder). *)
Definition wordStep (maxSize : Z) (st : builderState) (word : gostring)
  : builderState :=
  let '(chunks, partialSentence) := st in
  let '(chunks, partialSentence) :=
    if len partialSentence + len word + 1 >? maxSize then
      if len partialSentence >? 0
      then (chunks ++ [partialSentence], [])
      else (chunks, partialSentence)
    else (chunks, partialSentence) in
  let partialSentence :=
    if len partialSentence >? 0 then partialSentence ++ lit " "
    else partialSentence in
  (chunks, partialSentence ++ word).

(** One iteration of the loop over the sentences ([currentChunk] is the
    builder). *)
Definition sentenceStep (maxSize : Z) (st : builderState) (sentence : gostring)
  : builderState :=
  let '(chunks, currentChunk) := st in
  let sentence := TrimSpace sentence in
  match sentence with
  | [] => (chunks, currentChunk)                        (* continue *)
  | _ =>
      if len sentence >? maxSize then
        let '(chunks, currentChunk) :=
          if len currentChunk >? 0 then (chunks ++ [currentChunk], [])
          else (chunks, currentChunk) in
        let words := Fields sentence in
        let '(chunks, partialSentence) :=
          fold_left (wordStep maxSize) words (chunks, []) in
        let chunks :=
          if len partialSentence >? 0 then chunks ++ [partialSentence]
          else chunks in
        (chunks, currentChunk)                          (* continue *)
      else
        let '(chunks, currentChunk) :=
          if len currentChunk + len sentence + 1 >? maxSize
          then (chunks ++ [currentChunk], [])
          else (chunks, currentChunk) in
        let currentChunk :=
          if len currentChunk >? 0 then currentChunk ++ lit " "
          else currentChunk in
        (chunks, currentChunk ++ sentence)
  end.

(** [splitTextIntoChunks(text, maxSize)]. *)
Definition splitTextIntoChunks (text : gostring) (maxSize : Z) : list gostring :=
  let sentences := splitIntoSentences text in
  let '(chunks, currentChunk) :=
    fold_left (sentenceStep maxSize) sentences ([], []) in
  if len currentChunk >? 0 then chunks ++ [currentChunk] else chunks.

(** ** Properties of the [strings] functions *)

Section SpaceFacts.

Lemma spaceWidth_nil : spaceWidth [] = 0%nat.
Proof. reflexivity. Qed.

Lemma spaceWidthRev_nil : spaceWidthRev [] = 0%nat.
Proof. reflexivity. Qed.

(** The rune a string starts with is decided by its first bytes: a prefix
    of a string that starts with no white space starts with none. *)
Lemma spaceWidth_prefix (p q : gostring) :
  spaceWidth (p ++ q) = 0%nat -> spaceWidth p = 0%nat.
Proof.
  unfold spaceWidth.
  destruct p as [|a [|b [|c p]]]; simpl; try reflexivity.
  - destruct q as [|b [|c q]]; destruct (space1 a); try discriminate; reflexivity.
  - destruct (space1 a); try discriminate.
    destruct (space2 a b); try discriminate. reflexivity.
  - auto.
Qed.

(** What [dropRunes] returns is a suffix of its argument. *)
Lemma dropRunes_suffix (w : gostring -> nat) (s : gostring) :
  forall skip, exists p, s = p ++ dropRunes w s skip.
Proof.
  induction s as [|c s IH]; intros skip; simpl.
  - exists []. reflexivity.
  - destruct skip as [|k].
    + destruct (w (c :: s)) as [|k].
      * exists []. reflexivity.
      * destruct (IH k) as [p Hp]. exists (c :: p). simpl. congruence.
    + destruct (IH k) as [p Hp]. exists (c :: p). simpl. congruence.
Qed.

(** What [dropRunes] returns starts with no rune that [w] recognises. *)
Lemma dropRunes_stops (w : gostring -> nat) (s : gostring) :
  w [] = 0%nat -> forall skip, w (dropRunes w s skip) = 0%nat.
Proof.
  intros Hnil. induction s as [|c s IH]; intros skip; simpl; auto.
  destruct skip as [|k]; auto.
  destruct (w (c :: s)) as [|k] eqn:E; auto.
Qed.

Lemma dropRunes_id (w : gostring -> nat) (s : gostring) :
  w s = 0%nat -> dropRunes w s 0 = s.
Proof.
  destruct s as [|c s]; simpl; auto. intros ->. reflexivity.
Qed.

(** [TrimRight] returns a prefix of its argument. *)
Lemma TrimRight_prefix (s : gostring) : exists q, s = TrimRight s ++ q.
Proof.
  unfold TrimRight.
  destruct (dropRunes_suffix spaceWidthRev (rev s) 0) as [p Hp].
  exists (rev p).
  rewrite <- rev_app_distr, <- Hp, rev_involutive. reflexivity.
Qed.

(** A trimmed string neither starts nor ends with a white-space rune. *)
Lemma TrimSpace_no_leading (s : gostring) : spaceWidth (TrimSpace s) = 0%nat.
Proof.
  unfold TrimSpace.
  destruct (TrimRight_prefix (TrimLeft s)) as [q Hq].
  apply spaceWidth_prefix with (q := q). rewrite <- Hq.
  apply dropRunes_stops. reflexivity.
Qed.

Lemma TrimSpace_no_trailing (s : gostring) :
  spaceWidthRev (rev (TrimSpace s)) = 0%nat.
Proof.
  unfold TrimSpace, TrimRight. rewrite rev_involutive.
  apply dropRunes_stops. reflexivity.
Qed.

Lemma TrimSpace_fixed (s : gostring) :
  spaceWidth s = 0%nat -> spaceWidthRev (rev s) = 0%nat -> TrimSpace s = s.
Proof.
  intros Hl Hr. unfold TrimSpace, TrimLeft, TrimRight.
  rewrite (dropRunes_id _ _ Hl), (dropRunes_id _ _ Hr).
  apply rev_involutive.
Qed.

(** [strings.TrimSpace] is idempotent. *)
Lemma TrimSpace_idempotent (s : gostring) :
  TrimSpace (TrimSpace s) = TrimSpace s.
Proof.
  apply TrimSpace_fixed;
    [apply TrimSpace_no_leading | apply TrimSpace_no_trailing].
Qed.

End SpaceFacts.

Arguments spaceWidth : simpl never.
Arguments spaceWidthRev : simpl never.

Section FieldsFacts.

(** A string that holds no white-space rune at any offset. *)
Fixpoint noSpace (w : gostring) : bool :=
  match w with
  | [] => true
  | _ :: w' => (spaceWidth w =? 0)%nat && noSpace w'
  end.

(** A word: a non-empty string that [strings.Fields] returns whole. *)
Definition isWord (w : gostring) : Prop := Fields w = [w].

Lemma Forall_consField (P : gostring -> Prop) (w : gostring) (ws : list gostring) :
  (w <> [] -> P w) -> Forall P ws -> Forall P (consField w ws).
Proof.
  intros Hw Hws. destruct w as [|c w]; simpl; [exact Hws|].
  constructor; [apply Hw; discriminate | exact Hws].
Qed.

Lemma In_consField (x w : gostring) (ws : list gostring) :
  In x (consField w ws) -> x = w \/ In x ws.
Proof.
  destruct w; simpl; intuition auto.
Qed.

(** The field in progress is a prefix of what is left to scan. *)
Lemma fieldsFrom_prefix (s : gostring) :
  forall skip w ws, fieldsFrom s skip = (w, ws) -> exists t, skipn skip s = w ++ t.
Proof.
  induction s as [|c s IH]; intros skip w ws H; simpl in H.
  - inversion H; subst. exists []. apply skipn_nil.
  - destruct skip as [|k].
    + destruct (spaceWidth (c :: s)) as [|k] eqn:E.
      * destruct (fieldsFrom s 0) as [w' ws'] eqn:F. inversion H; subst.
        destruct (IH _ _ _ F) as [t Ht]. change (s = w' ++ t) in Ht.
        exists t. simpl. congruence.
      * destruct (fieldsFrom s k) as [w' ws'] eqn:F. inversion H; subst.
        exists (c :: s). reflexivity.
    + simpl. eapply IH; eauto.
Qed.

(** Every field holds no white space and is not empty. *)
Lemma fieldsFrom_noSpace (s : gostring) :
  forall skip w ws, fieldsFrom s skip = (w, ws) ->
    noSpace w = true /\ Forall (fun x => noSpace x = true /\ x <> []) ws.
Proof.
  induction s as [|c s IH]; intros skip w ws H; simpl in H.
  - inversion H; subst. split; [reflexivity | constructor].
  - destruct skip as [|k]; [|eapply IH; eauto].
    destruct (spaceWidth (c :: s)) as [|k] eqn:E.
    + destruct (fieldsFrom s 0) as [w' ws'] eqn:F. inversion H; subst.
      destruct (IH _ _ _ F) as [Hw Hws]. split; auto.
      destruct (fieldsFrom_prefix _ _ _ _ F) as [t Ht]. change (s = w' ++ t) in Ht.
      change (noSpace (c :: w')) with
        ((spaceWidth (c :: w') =? 0)%nat && noSpace w').
      rewrite Hw, andb_true_r. apply Nat.eqb_eq.
      apply spaceWidth_prefix with (q := t). simpl. rewrite <- Ht. exact E.
    + destruct (fieldsFrom s k) as [w' ws'] eqn:F. inversion H; subst.
      destruct (IH _ _ _ F) as [Hw Hws]. split; [reflexivity|].
      apply Forall_consField; auto.
Qed.

Lemma Fields_noSpace (s : gostring) :
  Forall (fun x => noSpace x = true /\ x <> []) (Fields s).
Proof.
  unfold Fields. destruct (fieldsFrom s 0) as [w ws] eqn:F.
  destruct (fieldsFrom_noSpace _ _ _ _ F) as [Hw Hws].
  apply Forall_consField; auto.
Qed.

Lemma fieldsFrom_word (w : gostring) :
  noSpace w = true -> fieldsFrom w 0 = (w, []).
Proof.
  induction w as [|c w IH]; intros H; [reflexivity|].
  change (noSpace (c :: w)) with
    ((spaceWidth (c :: w) =? 0)%nat && noSpace w) in H.
  apply andb_true_iff in H. destruct H as [H0 Hw].
  apply Nat.eqb_eq in H0.
  change (fieldsFrom (c :: w) 0) with
    (match spaceWidth (c :: w) with
     | O => let '(w0, ws) := fieldsFrom w 0 in (c :: w0, ws)
     | S k => let '(w0, ws) := fieldsFrom w k in ([], consField w0 ws)
     end).
  rewrite H0, (IH Hw). reflexivity.
Qed.

(** Every field that [strings.Fields] returns is a word. *)
Lemma Fields_isWord (s w : gostring) : In w (Fields s) -> isWord w.
Proof.
  intros Hin.
  pose proof (Fields_noSpace s) as HF. rewrite Forall_forall in HF.
  destruct (HF _ Hin) as [Hn Hne].
  unfold isWord, Fields. rewrite (fieldsFrom_word _ Hn).
  destruct w; [congruence | reflexivity].
Qed.

End FieldsFacts.

(** ** The size bound of the chunk builder *)

Lemma len_app (a b : gostring) : len (a ++ b) = len a + len b.
Proof.
  unfold len. rewrite length_app. lia.
Qed.

Lemma len_nil : len [] = 0.
Proof. reflexivity. Qed.

Lemma len_space : len (lit " ") = 1.
Proof. reflexivity. Qed.

Lemma len_nonneg (a : gostring) : 0 <= len a.
Proof. unfold len. lia. Qed.

Lemma len_zero (a : gostring) : len a <= 0 -> a = [].
Proof.
  destruct a; [reflexivity | unfold len; simpl; lia].
Qed.

(** Case analysis on the comparisons of a builder loop's body. *)
Ltac builder_cases :=
  repeat first
    [ progress change (len [] >? 0) with false
    | progress cbv beta iota zeta
    | match goal with
      | |- context [?a >? ?b] => destruct (Z.gtb_spec a b)
      end ].

Section SizeBound.

Variable maxSize : Z.

(** A chunk that fits. *)
Definition fits (c : gostring) : Prop := len c <= maxSize.

(** A chunk that is one of [words], whole, and longer than [maxSize]. *)
Definition oversized (words : list gostring) (c : gostring) : Prop :=
  maxSize < len c /\ In c words.

Definition sized (words : list gostring) (c : gostring) : Prop :=
  fits c \/ oversized words c.

(** The word loop keeps every flushed chunk and the builder sized; [P] is
    what the caller needs of a flushed chunk. *)
Lemma wordStep_sized (P : gostring -> Prop) (words : list gostring)
    (st : builderState) (word : gostring) :
  (forall c, sized words c -> P c) ->
  In word words ->
  Forall P (fst st) -> sized words (snd st) ->
  Forall P (fst (wordStep maxSize st word))
  /\ sized words (snd (wordStep maxSize st word)).
Proof.
  destruct st as [chunks part]. simpl. intros HP Hin Hc Hp.
  unfold wordStep.
  pose proof (len_nonneg part). pose proof (len_nonneg word).
  assert (Hword : len word + 1 <= maxSize \/ sized words word).
  { destruct (Z_le_gt_dec (len word) maxSize);
      [right; left; exact l | right; right; split; [lia | exact Hin]]. }
  builder_cases; cbn [fst snd]; rewrite ?Forall_app; repeat split; auto;
    try (constructor; [apply HP; exact Hp | constructor]);
    try (rewrite (len_zero part) by lia; cbn [app]);
    try (destruct Hword as [Hword | Hword]; [|exact Hword]);
    unfold sized, fits; cbn [app];
    rewrite ?len_app, ?len_nil; change (len [" "%char]) with 1; left; lia.
Qed.

Lemma words_sized (P : gostring -> Prop) (words : list gostring) :
  (forall c, sized words c -> P c) ->
  forall l st, incl l words ->
    Forall P (fst st) -> sized words (snd st) ->
    Forall P (fst (fold_left (wordStep maxSize) l st))
    /\ sized words (snd (fold_left (wordStep maxSize) l st)).
Proof.
  intros HP. induction l as [|w l IH]; intros st Hincl Hc Hp; simpl; auto.
  destruct (wordStep_sized P words st w HP (Hincl w (or_introl eq_refl)) Hc Hp)
    as [Hc' Hp'].
  apply IH; auto. intros x Hx. apply Hincl. right. exact Hx.
Qed.

(** What the size bound allows of a chunk built from [sentences]: it fits,
    or it is a single word of one of the sentences, whole, and that word
    alone is longer than [maxSize]. *)
Definition bounded (sentences : list gostring) (c : gostring) : Prop :=
  len c <= maxSize
  \/ (maxSize < len c /\ isWord c
      /\ exists sentence, In sentence sentences /\ In c (Fields sentence)).

Lemma sized_bounded (sentences : list gostring) (sentence c : gostring) :
  In sentence sentences -> sized (Fields sentence) c -> bounded sentences c.
Proof.
  intros Hs [Hf | [Hlt Hin]]; [left; exact Hf | right].
  split; [exact Hlt | split; [eapply Fields_isWord; eauto | eauto]].
Qed.

Hypothesis maxSize_nonneg : 0 <= maxSize.

(** The sentence loop keeps every flushed chunk bounded and the builder
    within [maxSize]. *)
Lemma sentenceStep_bounded (sentences : list gostring) (st : builderState)
    (sentence : gostring) :
  In sentence sentences -> TrimSpace sentence = sentence ->
  Forall (bounded sentences) (fst st) -> fits (snd st) ->
  Forall (bounded sentences) (fst (sentenceStep maxSize st sentence))
  /\ fits (snd (sentenceStep maxSize st sentence)).
Proof.
  destruct st as [chunks cur]. cbn [fst snd]. intros Hin Htrim Hc Hcur.
  unfold sentenceStep. rewrite Htrim.
  destruct sentence as [|b sentence']; [auto|].
  set (sentence := b :: sentence') in *.
  pose proof (len_nonneg cur). pose proof (len_nonneg sentence).
  assert (Hnil : fits []) by exact maxSize_nonneg.
  assert (Hflush : Forall (bounded sentences) (chunks ++ [cur])).
  { rewrite Forall_app. split; [exact Hc|]. constructor; [left; exact Hcur | constructor]. }
  destruct (Z.gtb_spec (len sentence) maxSize) as [Hlong | Hshort].
  - assert (Hw : forall chunks0, Forall (bounded sentences) chunks0 ->
        Forall (bounded sentences)
          (fst (let '(chunks1, part) :=
                  fold_left (wordStep maxSize) (Fields sentence) (chunks0, []) in
                (if len part >? 0 then chunks1 ++ [part] else chunks1, cur)))).
    { intros chunks0 Hc0.
      destruct (words_sized (bounded sentences) (Fields sentence)
                  (fun c => sized_bounded sentences sentence c Hin)
                  (Fields sentence) (chunks0, []) (incl_refl _) Hc0 (or_introl Hnil))
        as [Hc' Hp'].
      destruct (fold_left (wordStep maxSize) (Fields sentence) (chunks0, []))
        as [chunks1 part]. cbn [fst snd] in *.
      destruct (len part >? 0); [|exact Hc'].
      rewrite Forall_app. split; [exact Hc'|].
      constructor; [|constructor]. eapply sized_bounded; eauto. }
    destruct (Z.gtb_spec (len cur) 0).
    + specialize (Hw _ Hflush).
      destruct (fold_left (wordStep maxSize) (Fields sentence) (chunks ++ [cur], []))
        as [chunks1 part]. cbn [fst snd] in *. split; [exact Hw | exact Hnil].
    + specialize (Hw _ Hc).
      destruct (fold_left (wordStep maxSize) (Fields sentence) (chunks, []))
        as [chunks1 part]. cbn [fst snd] in *. split; [exact Hw | exact Hcur].
  - builder_cases; cbn [fst snd]; (split; [first [exact Hflush | exact Hc]|]);
      try (rewrite (len_zero cur) by lia); unfold fits in *; cbn [app];
      rewrite ?len_app, ?len_nil, ?len_space; lia.
Qed.

Lemma sentences_bounded (sentences : list gostring) :
  forall l st, incl l sentences -> Forall (fun s => TrimSpace s = s) l ->
    Forall (bounded sentences) (fst st) -> fits (snd st) ->
    Forall (bounded sentences) (fst (fold_left (sentenceStep maxSize) l st))
    /\ fits (snd (fold_left (sentenceStep maxSize) l st)).
Proof.
  induction l as [|x l IH]; intros st Hincl Htrim Hc Hcur; simpl; auto.
  inversion Htrim as [|? ? Hx Hl]; subst.
  destruct (sentenceStep_bounded sentences st x (Hincl x (or_introl eq_refl)) Hx Hc Hcur)
    as [Hc' Hcur'].
  apply IH; auto. intros y Hy. apply Hincl. right. exact Hy.
Qed.

End SizeBound.

Lemma splitIntoSentences_trimmed (text : gostring) :
  Forall (fun s => TrimSpace s = s) (splitIntoSentences text).
Proof.
  unfold splitIntoSentences. apply Forall_forall. intros s Hs.
  apply in_map_iff in Hs. destruct Hs as [p [<- _]].
  apply TrimSpace_idempotent.
Qed.

(** ** The claims on the splitter and the chunk builder *)

(** C4: with [maxSize > 0], every chunk that [splitTextIntoChunks] returns is
    at most [maxSize] bytes long, except a chunk that is a single
    white-space-delimited word of a sentence, emitted whole, whose own length
    exceeds [maxSize]. *)
Theorem splitTextIntoChunks_size_bound (text : gostring) (maxSize : Z) :
  0 < maxSize ->
  forall chunk, In chunk (splitTextIntoChunks text maxSize) ->
    len chunk <= maxSize
    \/ (maxSize < len chunk /\ Fields chunk = [chunk]
        /\ exists sentence, In sentence (splitIntoSentences text)
                            /\ In chunk (Fields sentence)).
Proof.
  intros Hpos chunk. unfold splitTextIntoChunks.
  assert (H0 : 0 <= maxSize) by lia.
  destruct (sentences_bounded maxSize H0 (splitIntoSentences text)
              (splitIntoSentences text) ([], []) (incl_refl _)
              (splitIntoSentences_trimmed text) (Forall_nil _) H0)
    as [Hc Hcur].
  destruct (fold_left (sentenceStep maxSize) (splitIntoSentences text) ([], []))
    as [chunks cur]. cbn [fst snd] in *.
  rewrite Forall_forall in Hc.
  destruct (len cur >? 0); intros Hin.
  - apply in_app_or in Hin. destruct Hin as [Hin | [<- | []]].
    + exact (Hc _ Hin).
    + left. exact Hcur.
  - exact (Hc _ Hin).
Qed.

Lemma splitTextIntoChunks_size_bound_witness :
  0 < 7
  /\ In (lit "ccccccccccccc")
        (splitTextIntoChunks (lit "aaa bbb ccccccccccccc dd e. f g. h") 7)
  /\ (len (lit "ccccccccccccc") <= 7
      \/ (7 < len (lit "ccccccccccccc")
          /\ Fields (lit "ccccccccccccc") = [lit "ccccccccccccc"]
          /\ exists sentence,
               In sentence (splitIntoSentences (lit "aaa bbb ccccccccccccc dd e. f g. h"))
               /\ In (lit "ccccccccccccc") (Fields sentence))).
Proof.
  split; [lia|]. split; [vm_compute; tauto|].
  apply (splitTextIntoChunks_size_bound
           (lit "aaa bbb ccccccccccccc dd e. f g. h") 7); [lia | vm_compute; tauto].
Defined.

(** C7: for the text "Hello world. Hi." and [maxSize = 10] the chunk list is
    exactly ["Hello"; "world."; "Hi."]: the first sentence, longer than 10,
    is split at its words and the second fits as a chunk of its own. *)
Theorem splitTextIntoChunks_example :
  splitIntoSentences (lit "Hello world. Hi.") = [lit "Hello world."; lit "Hi."; lit ""]
  /\ splitTextIntoChunks (lit "Hello world. Hi.") 10
     = [lit "Hello"; lit "world."; lit "Hi."].
Proof.
  split; vm_compute; reflexivity.
Qed.

(** C5, at the failing input: for the text "Hello" and [maxSize = 5] the
    first element of the chunk list is the empty string.  The sentence fits
    ([len = maxSize]) but [0 + 5 + 1 > 5], and the flush of the normal path
    does not test that the builder holds anything. *)
Theorem splitTextIntoChunks_emits_empty_chunk :
  splitTextIntoChunks (lit "Hello") 5 = [lit ""; lit "Hello"]
  /\ splitTextIntoChunks (lit "Hi.") 3 = [lit ""; lit "Hi."]
  /\ splitTextIntoChunks (lit "abcdefgh. Hi.") 3 = [lit "abcdefgh."; lit ""; lit "Hi."].
Proof.
  repeat split; vm_compute; reflexivity.
Qed.

(** C1, at the failing input: a text that holds the marker "|SEP|" itself
    loses it.  For "a|SEP|b" and [maxSize = 10] the only chunk is "a b",
    whose non-white-space bytes are "ab", while those of the text are
    "a|SEP|b". *)
Theorem splitTextIntoChunks_loses_marker :
  splitTextIntoChunks (lit "a|SEP|b") 10 = [lit "a b"]
  /\ concat (map nonSpace (splitTextIntoChunks (lit "a|SEP|b") 10)) = lit "ab"
  /\ nonSpace (lit "a|SEP|b") = lit "a|SEP|b".
Proof.
  repeat split; vm_compute; reflexivity.
Qed.

(** C8, at the failing input: for the text "a|SEP|b" the splitter returns
    two segments, and one segment for the space-joined chunks "a b" of that
    text, although neither holds a terminator. *)
Theorem resplit_count_differs_on_marker :
  splitIntoSentences (lit "a|SEP|b") = [lit "a"; lit "b"]
  /\ Join (splitTextIntoChunks (lit "a|SEP|b") 10) (lit " ") = lit "a b"
  /\ splitIntoSentences (Join (splitTextIntoChunks (lit "a|SEP|b") 10) (lit " "))
     = [lit "a b"].
Proof.
  repeat split; vm_compute; reflexivity.
Qed.

(** C6 fails as stated: the splitter keeps empty segments.  For the empty
    text it returns one segment, the empty string, and the text "Hi." gives
    an empty segment after its sentence. *)
Lemma splitIntoSentences_keeps_empty_segments :
  splitIntoSentences (lit "") = [lit ""]
  /\ splitIntoSentences (lit "Hi.") = [lit "Hi."; lit ""].
Proof.
  split; vm_compute; reflexivity.
Qed.

(** An empty sentence leaves the builder loop's state as it is. *)
Lemma sentenceStep_skips_empty (maxSize : Z) (st : builderState) :
  sentenceStep maxSize st [] = st.
Proof.
  destruct st as [chunks cur]. reflexivity.
Qed.

(** C6, amended: every segment that [splitIntoSentences] returns is trimmed
    of leading and trailing white space; empty segments are kept, so the
    sequence is never empty, and for the empty text it is the one empty
    segment.  It is [splitTextIntoChunks] that skips empty segments: the
    empty text gives no chunk. *)
Theorem splitIntoSentences_segments_trimmed (text : gostring) :
  Forall (fun seg => TrimSpace seg = seg
                     /\ spaceWidth seg = 0%nat
                     /\ spaceWidthRev (rev seg) = 0%nat)
         (splitIntoSentences text)
  /\ splitIntoSentences text <> []
  /\ splitIntoSentences [] = [[]]
  /\ (forall maxSize st, sentenceStep maxSize st [] = st)
  /\ (forall maxSize, splitTextIntoChunks [] maxSize = []).
Proof.
  split; [|split; [|split; [|split]]].
  - unfold splitIntoSentences. apply Forall_forall. intros seg Hseg.
    apply in_map_iff in Hseg. destruct Hseg as [p [<- _]].
    split; [apply TrimSpace_idempotent|].
    split; [apply TrimSpace_no_leading | apply TrimSpace_no_trailing].
  - unfold splitIntoSentences, Split.
    destruct (splitFrom SEP _ 0). discriminate.
  - reflexivity.
  - apply sentenceStep_skips_empty.
  - reflexivity.
Qed.

(** ** Coverage: what the chunks keep of the text

    The bytes of the text that are not white space, against those of the
    chunks.  A white-space rune of several bytes starts with a lead byte and
    goes on with continuation bytes, so none is made or broken where a
    string is cut before a byte that is not a continuation byte. *)

Section Coverage.

Lemma space2_cont (a b : ascii) : space2 a b = true -> isCont b = true.
Proof.
  unfold space2, decode2.
  destruct ((194 <=? byteval a)%N && (byteval a <=? 223)%N && isCont b) eqn:H;
    [|discriminate].
  intros _. apply andb_true_iff in H. tauto.
Qed.

Lemma space3_cont (a b c : ascii) :
  space3 a b c = true -> isCont b = true /\ isCont c = true.
Proof.
  unfold space3, decode3.
  match goal with
  | |- context [if ?cond then _ else _] => destruct cond eqn:H; [|discriminate]
  end.
  intros _. repeat (apply andb_true_iff in H; destruct H as [H ?]). tauto.
Qed.

Lemma space1_not_cont (a : ascii) : space1 a = true -> isCont a = false.
Proof.
  unfold space1, isCont. intros H. apply andb_true_iff in H. destruct H as [H _].
  apply N.ltb_lt in H. apply andb_false_iff. left. apply N.leb_gt. exact H.
Qed.

Lemma space2_lead (a b : ascii) : space2 a b = true -> isCont a = false.
Proof.
  unfold space2, decode2.
  destruct ((194 <=? byteval a)%N && (byteval a <=? 223)%N && isCont b) eqn:H;
    [|discriminate].
  intros _. repeat (apply andb_true_iff in H; destruct H as [H ?]).
  apply N.leb_le in H. unfold isCont.
  apply andb_false_iff. right. apply N.leb_gt. lia.
Qed.

Lemma space3_lead (a b c : ascii) : space3 a b c = true -> isCont a = false.
Proof.
  unfold space3, decode3.
  match goal with
  | |- context [if ?cond then _ else _] => destruct cond eqn:H; [|discriminate]
  end.
  intros _. repeat (apply andb_true_iff in H; destruct H as [H ?]).
  apply N.leb_le in H. unfold isCont.
  apply andb_false_iff. right. apply N.leb_gt. lia.
Qed.

(** A string that does not start with a continuation byte. *)
Definition clean (t : gostring) : bool :=
  match t with
  | [] => true
  | b :: _ => negb (isCont b)
  end.

Lemma spaceWidth_le_length (s : gostring) : (spaceWidth s <= length s)%nat.
Proof.
  unfold spaceWidth. destruct s as [|a [|b [|c s]]]; simpl;
    repeat match goal with |- context [if ?x then _ else _] => destruct x end; lia.
Qed.

(** What a string starts with is not changed by what follows it past a
    clean cut. *)
Lemma spaceWidth_app_clean (s t : gostring) :
  s <> [] -> clean t = true -> spaceWidth (s ++ t) = spaceWidth s.
Proof.
  intros Hs Ht. unfold spaceWidth.
  destruct s as [|a [|b [|c s]]]; [congruence | | | reflexivity]; simpl.
  - destruct (space1 a); [reflexivity|].
    destruct t as [|b [|c t]]; [reflexivity | |]; simpl in Ht;
      apply negb_true_iff in Ht.
    + destruct (space2 a b) eqn:H2; [|reflexivity].
      apply space2_cont in H2. congruence.
    + destruct (space2 a b) eqn:H2; [apply space2_cont in H2; congruence|].
      destruct (space3 a b c) eqn:H3; [|reflexivity].
      apply space3_cont in H3. destruct H3. congruence.
  - destruct (space1 a); [reflexivity|]. destruct (space2 a b); [reflexivity|].
    destruct t as [|c t]; [reflexivity|]. simpl in Ht. apply negb_true_iff in Ht.
    destruct (space3 a b c) eqn:H3; [|reflexivity].
    apply space3_cont in H3. destruct H3. congruence.
Qed.

Lemma keepFrom_app_clean (t : gostring) :
  clean t = true ->
  forall s k, (k <= length s)%nat ->
    keepFrom (s ++ t) k = keepFrom s k ++ keepFrom t 0.
Proof.
  intros Ht. induction s as [|c s IH]; intros k Hk; simpl in Hk.
  - assert (k = 0%nat) as -> by lia. reflexivity.
  - destruct k as [|k]; [|simpl; apply IH; lia].
    change (keepFrom ((c :: s) ++ t) 0) with
      (match spaceWidth ((c :: s) ++ t) with
       | O => c :: keepFrom (s ++ t) 0
       | S k => keepFrom (s ++ t) k
       end).
    change (keepFrom (c :: s) 0) with
      (match spaceWidth (c :: s) with
       | O => c :: keepFrom s 0
       | S k => keepFrom s k
       end).
    rewrite spaceWidth_app_clean by (auto; discriminate).
    pose proof (spaceWidth_le_length (c :: s)) as Hle. simpl in Hle.
    destruct (spaceWidth (c :: s)) as [|k].
    + simpl. f_equal. apply IH. lia.
    + apply IH. lia.
Qed.

(** The non-space bytes of a concatenation, past a clean cut. *)
Lemma nonSpace_app_clean (s t : gostring) :
  clean t = true -> nonSpace (s ++ t) = nonSpace s ++ nonSpace t.
Proof.
  intros Ht. apply keepFrom_app_clean; [exact Ht | lia].
Qed.

(** An ASCII byte is a rune of its own. *)
Definition asciiByte (x : ascii) : bool := (byteval x <? 128)%N.

Lemma asciiByte_not_cont (x : ascii) : asciiByte x = true -> isCont x = false.
Proof.
  unfold asciiByte, isCont. intros H. apply N.ltb_lt in H.
  apply andb_false_iff. left. apply N.leb_gt. exact H.
Qed.

Lemma asciiByte_space2 (x b : ascii) : asciiByte x = true -> space2 x b = false.
Proof.
  unfold asciiByte, space2, decode2. intros H. apply N.ltb_lt in H.
  replace (194 <=? byteval x)%N with false by (symmetry; apply N.leb_gt; lia).
  reflexivity.
Qed.

Lemma asciiByte_space3 (x b c : ascii) : asciiByte x = true -> space3 x b c = false.
Proof.
  unfold asciiByte, space3, decode3. intros H. apply N.ltb_lt in H.
  replace (224 <=? byteval x)%N with false by (symmetry; apply N.leb_gt; lia).
  reflexivity.
Qed.

Lemma nonSpace_ascii_cons (x : ascii) (t : gostring) :
  asciiByte x = true -> nonSpace (x :: t) = nonSpace [x] ++ nonSpace t.
Proof.
  intros Hx. unfold nonSpace.
  change (keepFrom (x :: t) 0) with
    (match spaceWidth (x :: t) with
     | O => x :: keepFrom t 0
     | S k => keepFrom t k
     end).
  change (keepFrom [x] 0) with
    (match spaceWidth [x] with
     | O => x :: keepFrom [] 0
     | S k => keepFrom [] k
     end).
  unfold spaceWidth.
  destruct (space1 x); [reflexivity|].
  destruct t as [|b [|c t]]; simpl; rewrite ?asciiByte_space2, ?asciiByte_space3;
    auto.
Qed.

(** The non-space bytes of a concatenation, when the first string ends
    with an ASCII byte. *)
Lemma nonSpace_app_ascii (s : gostring) (x : ascii) (t : gostring) :
  asciiByte x = true ->
  nonSpace ((s ++ [x]) ++ t) = nonSpace (s ++ [x]) ++ nonSpace t.
Proof.
  intros Hx.
  assert (Hc : forall u, clean (x :: u) = true).
  { intros u. simpl. rewrite (asciiByte_not_cont x Hx). reflexivity. }
  rewrite <- app_assoc. simpl.
  rewrite !nonSpace_app_clean by apply Hc.
  rewrite (nonSpace_ascii_cons x t Hx), app_assoc. reflexivity.
Qed.


(** *** Trimming removes white space only *)

Lemma keepFrom_cons (c : ascii) (s : gostring) :
  keepFrom (c :: s) 0
  = match spaceWidth (c :: s) with
    | O => c :: keepFrom s 0
    | S k => keepFrom s k
    end.
Proof. reflexivity. Qed.

Lemma dropRunes_cons (w : gostring -> nat) (c : ascii) (s : gostring) :
  dropRunes w (c :: s) 0
  = match w (c :: s) with
    | O => c :: s
    | S k => dropRunes w s k
    end.
Proof. reflexivity. Qed.

Lemma keepFrom_dropRunes (s : gostring) :
  forall k, keepFrom (dropRunes spaceWidth s k) 0 = keepFrom s k.
Proof.
  induction s as [|c s IH]; intros k; [reflexivity|].
  destruct k as [|k]; [|simpl; apply IH].
  rewrite dropRunes_cons, (keepFrom_cons c s).
  destruct (spaceWidth (c :: s)) as [|k] eqn:E; [|apply IH].
  rewrite keepFrom_cons, E. reflexivity.
Qed.

Lemma nonSpace_TrimLeft (s : gostring) : nonSpace (TrimLeft s) = nonSpace s.
Proof.
  apply keepFrom_dropRunes.
Qed.

Lemma dropRunes_skipn (w : gostring -> nat) (s : gostring) :
  forall k, dropRunes w s k = dropRunes w (skipn k s) 0.
Proof.
  induction s as [|c s IH]; intros k.
  - rewrite skipn_nil. reflexivity.
  - destruct k as [|k]; [reflexivity|]. simpl. apply IH.
Qed.

Lemma space2_not_space1 (a b : ascii) : space2 a b = true -> space1 a = false.
Proof.
  intros H. destruct (space1 a) eqn:H1; [|reflexivity].
  unfold space1 in H1. apply andb_true_iff in H1. destruct H1 as [H1 _].
  rewrite (asciiByte_space2 a b H1) in H. discriminate.
Qed.

Lemma space3_not_space1 (a b c : ascii) : space3 a b c = true -> space1 a = false.
Proof.
  intros H. destruct (space1 a) eqn:H1; [|reflexivity].
  unfold space1 in H1. apply andb_true_iff in H1. destruct H1 as [H1 _].
  rewrite (asciiByte_space3 a b c H1) in H. discriminate.
Qed.

Lemma space3_not_space2 (a b c : ascii) : space3 a b c = true -> space2 a b = false.
Proof.
  unfold space3, decode3.
  match goal with
  | |- context [if ?cond then _ else _] => destruct cond eqn:H; [|discriminate]
  end.
  intros _. repeat (apply andb_true_iff in H; destruct H as [H ?]).
  apply N.leb_le in H. unfold space2, decode2.
  replace (byteval a <=? 223)%N with false by (symmetry; apply N.leb_gt; lia).
  rewrite andb_false_r. reflexivity.
Qed.

(** The rune a string ends with, read forwards: a white-space rune, whose
    first byte is no continuation byte. *)
Lemma spaceWidthRev_rune (r : gostring) (k : nat) :
  spaceWidthRev r = S k ->
  exists W, rev (firstn (S k) r) = W /\ (S k <= length r)%nat
            /\ nonSpace W = [] /\ clean W = true.
Proof.
  unfold spaceWidthRev.
  destruct r as [|c r]; [discriminate|].
  destruct (space1 c) eqn:H1.
  { intros [= <-]. exists [c]. repeat split; simpl; try lia.
    - unfold nonSpace. rewrite keepFrom_cons. unfold spaceWidth. rewrite H1. reflexivity.
    - rewrite (space1_not_cont c H1). reflexivity. }
  destruct r as [|b r]; [discriminate|].
  destruct (space2 b c) eqn:H2.
  { intros [= <-]. exists [b; c]. repeat split; simpl; try lia.
    - unfold nonSpace. rewrite keepFrom_cons. unfold spaceWidth.
      rewrite (space2_not_space1 b c H2), H2. reflexivity.
    - rewrite (space2_lead b c H2). reflexivity. }
  destruct r as [|a r]; [discriminate|].
  destruct (space3 a b c) eqn:H3; [|discriminate].
  intros [= <-]. exists [a; b; c]. repeat split; simpl; try lia.
  - unfold nonSpace. rewrite keepFrom_cons. unfold spaceWidth.
    rewrite (space3_not_space1 a b c H3), (space3_not_space2 a b c H3), H3.
    reflexivity.
  - rewrite (space3_lead a b c H3). reflexivity.
Qed.

Lemma nonSpace_rev_dropRunes (n : nat) :
  forall r, (length r <= n)%nat ->
    nonSpace (rev (dropRunes spaceWidthRev r 0)) = nonSpace (rev r).
Proof.
  induction n as [|n IH]; intros r Hn.
  - destruct r; [reflexivity | simpl in Hn; lia].
  - destruct r as [|c r]; [reflexivity|].
    rewrite dropRunes_cons.
    destruct (spaceWidthRev (c :: r)) as [|k] eqn:E; [reflexivity|].
    destruct (spaceWidthRev_rune _ _ E) as [W [HW [Hlen [Hns Hcl]]]].
    rewrite dropRunes_skipn.
    replace (rev (c :: r)) with (rev (skipn k r) ++ W).
    2: { rewrite <- HW, <- rev_app_distr.
         change (skipn k r) with (skipn (S k) (c :: r)).
         rewrite firstn_skipn. reflexivity. }
    rewrite (nonSpace_app_clean _ W Hcl), Hns, app_nil_r.
    apply IH. rewrite length_skipn. simpl in Hn. lia.
Qed.

Lemma nonSpace_TrimRight (s : gostring) : nonSpace (TrimRight s) = nonSpace s.
Proof.
  unfold TrimRight.
  rewrite (nonSpace_rev_dropRunes (length (rev s)) (rev s) (le_n _)).
  rewrite rev_involutive. reflexivity.
Qed.

(** [strings.TrimSpace] removes white space only. *)
Lemma nonSpace_TrimSpace (s : gostring) : nonSpace (TrimSpace s) = nonSpace s.
Proof.
  unfold TrimSpace. rewrite nonSpace_TrimRight. apply nonSpace_TrimLeft.
Qed.

(** *** The fields of a string are its non-space bytes *)

Lemma concat_consField (w : gostring) (ws : list gostring) :
  concat (consField w ws) = w ++ concat ws.
Proof.
  destruct w; reflexivity.
Qed.

Lemma keepFrom_fieldsFrom (s : gostring) :
  forall k w ws, fieldsFrom s k = (w, ws) -> keepFrom s k = w ++ concat ws.
Proof.
  induction s as [|c s IH]; intros k w ws H; simpl in H.
  - injection H as <- <-. reflexivity.
  - destruct k as [|k]; [|simpl; eapply IH; eauto].
    rewrite keepFrom_cons.
    destruct (spaceWidth (c :: s)) as [|k] eqn:E.
    + destruct (fieldsFrom s 0) as [w' ws'] eqn:F. injection H as <- <-.
      simpl. f_equal. eapply IH; eauto.
    + destruct (fieldsFrom s k) as [w' ws'] eqn:F. injection H as <- <-.
      simpl. rewrite concat_consField. eapply IH; eauto.
Qed.

Lemma nonSpace_Fields (s : gostring) : nonSpace s = concat (Fields s).
Proof.
  unfold nonSpace, Fields. destruct (fieldsFrom s 0) as [w ws] eqn:F.
  rewrite concat_consField. eapply keepFrom_fieldsFrom; eauto.
Qed.

Lemma nonSpace_noSpace (w : gostring) : noSpace w = true -> nonSpace w = w.
Proof.
  unfold nonSpace. induction w as [|c w IH]; intros H; [reflexivity|].
  change (noSpace (c :: w)) with
    ((spaceWidth (c :: w) =? 0)%nat && noSpace w) in H.
  apply andb_true_iff in H. destruct H as [H0 Hw]. apply Nat.eqb_eq in H0.
  rewrite keepFrom_cons, H0, (IH Hw). reflexivity.
Qed.

(** *** The builder keeps the non-space bytes of the sentences *)

(** The non-space bytes a builder loop has gathered: those of the chunks
    flushed, then those in the builder. *)
Definition cover (st : builderState) : gostring :=
  concat (map nonSpace (fst st)) ++ nonSpace (snd st).

Lemma nonSpace_join (a b : gostring) :
  nonSpace ((a ++ lit " ") ++ b) = nonSpace a ++ nonSpace b.
Proof.
  rewrite <- app_assoc.
  rewrite nonSpace_app_clean by reflexivity.
  f_equal.
Qed.

Lemma cover_flush (chunks : list gostring) (part : gostring) :
  cover (chunks ++ [part], []) = cover (chunks, part).
Proof.
  unfold cover. cbn [fst snd]. rewrite map_app, concat_app. simpl.
  rewrite !app_nil_r. reflexivity.
Qed.

Lemma cover_wordStep (maxSize : Z) (st : builderState) (word : gostring) :
  cover (wordStep maxSize st word) = cover st ++ nonSpace word.
Proof.
  destruct st as [chunks part]. unfold wordStep.
  pose proof (len_nonneg part).
  builder_cases; try (rewrite (len_zero part) by lia);
    unfold cover; cbn [fst snd app];
    rewrite ?map_app, ?concat_app; cbn [map concat];
    rewrite ?nonSpace_join, ?app_nil_r, <- ?app_assoc; reflexivity.
Qed.

Lemma cover_words (maxSize : Z) (words : list gostring) :
  forall st, cover (fold_left (wordStep maxSize) words st)
             = cover st ++ concat (map nonSpace words).
Proof.
  induction words as [|w words IH]; intros st; simpl.
  - rewrite app_nil_r. reflexivity.
  - rewrite IH, cover_wordStep, app_assoc. reflexivity.
Qed.

Lemma map_nonSpace_Fields (s : gostring) :
  concat (map nonSpace (Fields s)) = nonSpace s.
Proof.
  rewrite (nonSpace_Fields s). f_equal.
  pose proof (Fields_noSpace s) as H.
  induction H as [|w ws [Hw _] _ IH]; [reflexivity|].
  simpl. rewrite (nonSpace_noSpace w Hw), IH. reflexivity.
Qed.

Lemma cover_sentenceStep (maxSize : Z) (st : builderState) (sentence : gostring) :
  cover (sentenceStep maxSize st sentence) = cover st ++ nonSpace sentence.
Proof.
  destruct st as [chunks cur]. unfold sentenceStep.
  rewrite <- (nonSpace_TrimSpace sentence).
  destruct (TrimSpace sentence) as [|b t'] eqn:Ht.
  { rewrite app_nil_r. reflexivity. }
  set (t := b :: t') in *.
  pose proof (len_nonneg cur).
  destruct (Z.gtb_spec (len t) maxSize) as [Hlong | Hshort].
  - assert (Hw : forall chunks0,
        cover (let '(chunks1, part) :=
                 fold_left (wordStep maxSize) (Fields t) (chunks0, []) in
               (if len part >? 0 then chunks1 ++ [part] else chunks1, []))
        = cover (chunks0, []) ++ nonSpace t).
    { intros chunks0.
      pose proof (cover_words maxSize (Fields t) (chunks0, [])) as Hc.
      rewrite map_nonSpace_Fields in Hc.
      destruct (fold_left (wordStep maxSize) (Fields t) (chunks0, []))
        as [chunks1 part].
      rewrite <- Hc. pose proof (len_nonneg part).
      destruct (Z.gtb_spec (len part) 0); [apply cover_flush|].
      rewrite (len_zero part) by lia. reflexivity. }
    destruct (Z.gtb_spec (len cur) 0).
    + specialize (Hw (chunks ++ [cur])). rewrite cover_flush in Hw.
      rewrite <- Hw.
      destruct (fold_left (wordStep maxSize) (Fields t) (chunks ++ [cur], []));
        reflexivity.
    + rewrite (len_zero cur) by lia. specialize (Hw chunks).
      rewrite <- Hw.
      destruct (fold_left (wordStep maxSize) (Fields t) (chunks, []));
        reflexivity.
  - builder_cases; try (rewrite (len_zero cur) by lia);
      unfold cover; cbn [fst snd app];
      rewrite ?map_app, ?concat_app; cbn [map concat];
      rewrite ?nonSpace_join, ?app_nil_r, <- ?app_assoc; reflexivity.
Qed.

Lemma cover_sentences (maxSize : Z) (sentences : list gostring) :
  forall st, cover (fold_left (sentenceStep maxSize) sentences st)
             = cover st ++ concat (map nonSpace sentences).
Proof.
  induction sentences as [|x sentences IH]; intros st; simpl.
  - rewrite app_nil_r. reflexivity.
  - rewrite IH, cover_sentenceStep, app_assoc. reflexivity.
Qed.

(** The chunks hold the non-space bytes of the sentences, in order, whatever
    [maxSize] is. *)
Lemma chunks_cover_sentences (text : gostring) (maxSize : Z) :
  concat (map nonSpace (splitTextIntoChunks text maxSize))
  = concat (map nonSpace (splitIntoSentences text)).
Proof.
  unfold splitTextIntoChunks.
  pose proof (cover_sentences maxSize (splitIntoSentences text) ([], [])) as Hc.
  destruct (fold_left (sentenceStep maxSize) (splitIntoSentences text) ([], []))
    as [chunks cur].
  change (cover ([], [])) with (@nil ascii) in Hc. simpl in Hc. rewrite <- Hc.
  pose proof (len_nonneg cur).
  destruct (Z.gtb_spec (len cur) 0).
  - rewrite <- cover_flush. unfold cover. simpl. rewrite app_nil_r. reflexivity.
  - rewrite (len_zero cur) by lia. unfold cover. simpl. rewrite app_nil_r.
    reflexivity.
Qed.

(** *** The splitter keeps a text that does not hold the marker *)

Definition isTerminator (x : ascii) : bool :=
  Ascii.eqb "." x || Ascii.eqb "?" x || Ascii.eqb "!" x.

(** The marker after every byte that [P] holds of. *)
Fixpoint insertAfter (P : ascii -> bool) (s : gostring) : gostring :=
  match s with
  | [] => []
  | x :: s' => if P x then x :: SEP ++ insertAfter P s' else x :: insertAfter P s'
  end.

(** [strings.Contains(s, sub)]. *)
Fixpoint Contains (s sub : gostring) : bool :=
  HasPrefix s sub
  || match s with
     | [] => false
     | _ :: s' => Contains s' sub
     end.

(** The text cut after every terminator: the first piece and the others. *)
Fixpoint cutFrom (text : gostring) : gostring * list gostring :=
  match text with
  | [] => ([], [])
  | x :: t =>
      let '(p, ps) := cutFrom t in
      if isTerminator x then ([x], p :: ps) else (x :: p, ps)
  end.

Lemma HasPrefix_nil (s : gostring) : HasPrefix s [] = true.
Proof. destruct s; reflexivity. Qed.

Lemma ReplaceAll_insertAfter (c : ascii) (s : gostring) :
  ReplaceAll s [c] ([c] ++ SEP) = insertAfter (Ascii.eqb c) s.
Proof.
  unfold ReplaceAll. change ([c] ++ SEP) with (c :: SEP).
  induction s as [|x s IH]; [reflexivity|].
  simpl. rewrite andb_true_r.
  destruct (Ascii.eqb_spec c x) as [->|Hne]; simpl in IH; rewrite IH; reflexivity.
Qed.

Lemma insertAfter_app (P : ascii -> bool) (a b : gostring) :
  insertAfter P (a ++ b) = insertAfter P a ++ insertAfter P b.
Proof.
  induction a as [|x a IH]; [reflexivity|].
  simpl. rewrite IH. destruct (P x); reflexivity.
Qed.

Lemma insertAfter_cons (P : ascii -> bool) (x : ascii) (s : gostring) :
  insertAfter P (x :: s)
  = if P x then [x] ++ SEP ++ insertAfter P s else x :: insertAfter P s.
Proof. reflexivity. Qed.

Lemma insertAfter_twice (P Q : ascii -> bool) (s : gostring) :
  (forall x, Q x = true -> P x = false) -> insertAfter P SEP = SEP ->
  insertAfter P (insertAfter Q s) = insertAfter (fun x => Q x || P x) s.
Proof.
  intros Hex Hsep. induction s as [|x s IH]; [reflexivity|].
  rewrite (insertAfter_cons Q), (insertAfter_cons (fun x => Q x || P x)).
  destruct (Q x) eqn:HQ; cbn [orb].
  - rewrite !insertAfter_app, Hsep, IH, (insertAfter_cons P x []), (Hex x HQ).
    reflexivity.
  - rewrite (insertAfter_cons P), IH. reflexivity.
Qed.

(** The three [strings.ReplaceAll] of [splitIntoSentences] put the marker
    after every terminator. *)
Lemma replaced_insertAfter (text : gostring) :
  fold_left (fun replacerStr sep => ReplaceAll replacerStr sep (sep ++ SEP))
            separators text
  = insertAfter isTerminator text.
Proof.
  unfold separators. cbn [fold_left].
  change (lit ".") with ["."%char]. change (lit "?") with ["?"%char].
  change (lit "!") with ["!"%char].
  rewrite (ReplaceAll_insertAfter "." text).
  rewrite (ReplaceAll_insertAfter "?" _).
  rewrite (ReplaceAll_insertAfter "!" _).
  rewrite (insertAfter_twice (Ascii.eqb "?") (Ascii.eqb ".") text);
    [|intros x Hx|reflexivity].
  2: { apply Ascii.eqb_eq in Hx. subst x. reflexivity. }
  rewrite insertAfter_twice; [reflexivity|intros x Hx|reflexivity].
  apply orb_true_iff in Hx. destruct Hx as [Hx|Hx];
    apply Ascii.eqb_eq in Hx; subst x; reflexivity.
Qed.

Lemma HasPrefix_insertAfter (P : ascii -> bool) (p : gostring) :
  forallb (fun y => negb (P y)) p = true ->
  forall s, HasPrefix (insertAfter P s) p = HasPrefix s p.
Proof.
  induction p as [|y p IH]; intros Hp s.
  - destruct s; [reflexivity|]. simpl. destruct (P a); reflexivity.
  - simpl in Hp. apply andb_true_iff in Hp. destruct Hp as [Hy Hp].
    apply negb_true_iff in Hy.
    destruct s as [|x s]; [reflexivity|]. simpl.
    destruct (Ascii.eqb_spec y x) as [<-|Hne].
    + rewrite Hy. simpl. rewrite Ascii.eqb_refl. simpl. apply IH. exact Hp.
    + destruct (P x); simpl; destruct (Ascii.eqb_spec y x); try congruence;
        reflexivity.
Qed.

Lemma splitFrom_cons (sep : gostring) (c : ascii) (s : gostring) :
  splitFrom sep (c :: s) 0
  = if HasPrefix (c :: s) sep
    then let '(p, ps) := splitFrom sep s (length sep - 1) in ([], p :: ps)
    else let '(p, ps) := splitFrom sep s 0 in (c :: p, ps).
Proof. reflexivity. Qed.

Lemma splitFrom_marker (r : gostring) :
  splitFrom SEP (SEP ++ r) 0 = let '(p, ps) := splitFrom SEP r 0 in ([], p :: ps).
Proof. reflexivity. Qed.

Lemma cutFrom_cons (x : ascii) (t : gostring) :
  cutFrom (x :: t)
  = let '(p, ps) := cutFrom t in
    if isTerminator x then ([x], p :: ps) else (x :: p, ps).
Proof. reflexivity. Qed.

Lemma Contains_cons (x : ascii) (t sub : gostring) :
  Contains (x :: t) sub = HasPrefix (x :: t) sub || Contains t sub.
Proof. reflexivity. Qed.

(** In a text that does not hold the marker, [strings.Split] finds the
    markers that were put in, and no other. *)
Lemma splitFrom_insertAfter (text : gostring) :
  Contains text SEP = false ->
  splitFrom SEP (insertAfter isTerminator text) 0 = cutFrom text.
Proof.
  induction text as [|x t IH]; intros Hc; [reflexivity|].
  rewrite Contains_cons in Hc.
  apply orb_false_iff in Hc. destruct Hc as [Hhere Hlater].
  specialize (IH Hlater).
  assert (Hins : HasPrefix (insertAfter isTerminator (x :: t)) SEP = false).
  { rewrite HasPrefix_insertAfter; [exact Hhere | reflexivity]. }
  rewrite insertAfter_cons in *. rewrite cutFrom_cons.
  destruct (isTerminator x) eqn:Hx.
  - change ([x] ++ SEP ++ insertAfter isTerminator t)
      with (x :: (SEP ++ insertAfter isTerminator t)) in *.
    rewrite splitFrom_cons, Hins, splitFrom_marker, IH.
    destruct (cutFrom t). reflexivity.
  - rewrite splitFrom_cons, Hins, IH. destruct (cutFrom t). reflexivity.
Qed.

Lemma isTerminator_ascii (x : ascii) : isTerminator x = true -> asciiByte x = true.
Proof.
  unfold isTerminator. intros H.
  repeat (apply orb_true_iff in H; destruct H as [H|H]);
    apply Ascii.eqb_eq in H; subst x; reflexivity.
Qed.

(** The pieces of [cutFrom] make up the text, and every piece but the last
    ends with an ASCII byte. *)
Lemma cutFrom_pieces (text : gostring) :
  forall p ps, cutFrom text = (p, ps) ->
    text = p ++ concat ps
    /\ (ps = [] \/ exists p0 y, p = p0 ++ [y] /\ asciiByte y = true)
    /\ nonSpace (concat ps) = concat (map nonSpace ps).
Proof.
  induction text as [|x t IH]; intros p ps H; simpl in H.
  - injection H as <- <-. auto.
  - destruct (cutFrom t) as [p' ps'] eqn:Hcut.
    destruct (IH p' ps' eq_refl) as [Ht [Hend Hns]].
    destruct (isTerminator x) eqn:Hx; injection H as <- <-.
    + split; [simpl; congruence|]. split.
      * right. exists [], x. split; [reflexivity | apply isTerminator_ascii; exact Hx].
      * simpl. rewrite <- Hns.
        destruct Hend as [-> | [p0 [y [-> Hy]]]]; [simpl; rewrite !app_nil_r; reflexivity|].
        apply nonSpace_app_ascii. exact Hy.
    + split; [simpl; congruence|]. split; [|exact Hns].
      destruct Hend as [-> | [p0 [y [-> Hy]]]]; [left; reflexivity|].
      right. exists (x :: p0), y. auto.
Qed.

Lemma nonSpace_cutFrom (text p : gostring) (ps : list gostring) :
  cutFrom text = (p, ps) ->
  concat (map nonSpace (p :: ps)) = nonSpace text.
Proof.
  intros H. destruct (cutFrom_pieces text p ps H) as [Ht [Hend Hns]].
  cbn [map concat]. rewrite <- Hns. clear H. subst text.
  destruct Hend as [-> | [p0 [y [-> Hy]]]]; [simpl; rewrite !app_nil_r; reflexivity|].
  symmetry. apply nonSpace_app_ascii. exact Hy.
Qed.

(** The sentences of a text that does not hold the marker keep its
    non-space bytes. *)
Lemma sentences_cover_text (text : gostring) :
  Contains text SEP = false ->
  concat (map nonSpace (splitIntoSentences text)) = nonSpace text.
Proof.
  intros Hc. unfold splitIntoSentences, Split.
  rewrite replaced_insertAfter, (splitFrom_insertAfter text Hc).
  destruct (cutFrom text) as [p ps] eqn:Hcut.
  rewrite map_map.
  rewrite (map_ext (fun x => nonSpace (TrimSpace x)) nonSpace nonSpace_TrimSpace).
  apply nonSpace_cutFrom. exact Hcut.
Qed.

End Coverage.

(** Coverage, for a text that does not hold the marker ["|SEP|"]: the
    non-space bytes of the chunks, chunk after chunk, are those of the text,
    in their order, whatever [maxSize] is. *)
Theorem chunks_cover_text (text : gostring) (maxSize : Z) :
  Contains text SEP = false ->
  concat (map nonSpace (splitTextIntoChunks text maxSize)) = nonSpace text.
Proof.
  intros Hc. rewrite chunks_cover_sentences. apply sentences_cover_text. exact Hc.
Qed.

Lemma chunks_cover_text_witness :
  Contains (lit "Hello  world. Hi there!") SEP = false
  /\ concat (map nonSpace (splitTextIntoChunks (lit "Hello  world. Hi there!") 10))
     = nonSpace (lit "Hello  world. Hi there!").
Proof.
  split; [reflexivity|].
  apply (chunks_cover_text (lit "Hello  world. Hi there!") 10). reflexivity.
Defined.

(** ** Splitting again: the segments of the joined chunks

    For a text that does not hold the marker, the splitter returns one
    segment more than the text has terminators; the chunks keep the
    terminators and, joined by spaces, do not hold the marker either. *)

Section Resplit.

Fixpoint countTerminators (s : gostring) : nat :=
  match s with
  | [] => 0%nat
  | x :: s' => ((if isTerminator x then 1 else 0) + countTerminators s')%nat
  end.

Lemma countTerminators_app (a b : gostring) :
  countTerminators (a ++ b) = (countTerminators a + countTerminators b)%nat.
Proof.
  induction a as [|x a IH]; simpl; [reflexivity | rewrite IH; lia].
Qed.

Lemma cutFrom_length (text : gostring) :
  forall p ps, cutFrom text = (p, ps) -> length ps = countTerminators text.
Proof.
  induction text as [|x t IH]; intros p ps H.
  - injection H as <- <-. reflexivity.
  - rewrite cutFrom_cons in H. destruct (cutFrom t) as [p' ps'] eqn:Hcut.
    specialize (IH p' ps' eq_refl). simpl.
    destruct (isTerminator x); injection H as <- <-; simpl; lia.
Qed.

(** One segment more than there are terminators. *)
Lemma splitIntoSentences_length (text : gostring) :
  Contains text SEP = false ->
  length (splitIntoSentences text) = S (countTerminators text).
Proof.
  intros Hc. unfold splitIntoSentences, Split.
  rewrite replaced_insertAfter, (splitFrom_insertAfter text Hc).
  destruct (cutFrom text) as [p ps] eqn:Hcut.
  rewrite length_map. simpl. f_equal. eapply cutFrom_length; eauto.
Qed.

(** A terminator is no byte of a white-space rune. *)
Lemma isTerminator_not_cont (x : ascii) : isTerminator x = true -> isCont x = false.
Proof.
  intros H. apply asciiByte_not_cont. apply isTerminator_ascii. exact H.
Qed.

Lemma isTerminator_not_space1 (x : ascii) : isTerminator x = true -> space1 x = false.
Proof.
  unfold isTerminator. intros H.
  repeat (apply orb_true_iff in H; destruct H as [H|H]);
    apply Ascii.eqb_eq in H; subst x; reflexivity.
Qed.

Lemma spaceWidth_no_terminator (s : gostring) (k : nat) :
  spaceWidth s = S k -> countTerminators (firstn (S k) s) = 0%nat.
Proof.
  assert (Hlead : forall a, isCont a = false -> asciiByte a = false ->
                            isTerminator a = false).
  { intros a _ Ha. destruct (isTerminator a) eqn:Ht; [|reflexivity].
    apply isTerminator_ascii in Ht. congruence. }
  assert (Hcont : forall a, isCont a = true -> isTerminator a = false).
  { intros a Ha. destruct (isTerminator a) eqn:Ht; [|reflexivity].
    apply isTerminator_not_cont in Ht. congruence. }
  assert (Hnot1 : forall a, space1 a = true -> isTerminator a = false).
  { intros a Ha. destruct (isTerminator a) eqn:Ht; [|reflexivity].
    apply isTerminator_not_space1 in Ht. congruence. }
  assert (Hnonascii : forall a b, space2 a b = true -> isTerminator a = false).
  { intros a b H. destruct (isTerminator a) eqn:Ht; [|reflexivity].
    apply isTerminator_ascii in Ht. rewrite (asciiByte_space2 a b Ht) in H.
    discriminate. }
  assert (Hnonascii3 : forall a b c, space3 a b c = true -> isTerminator a = false).
  { intros a b c H. destruct (isTerminator a) eqn:Ht; [|reflexivity].
    apply isTerminator_ascii in Ht. rewrite (asciiByte_space3 a b c Ht) in H.
    discriminate. }
  unfold spaceWidth. destruct s as [|a s]; [discriminate|].
  destruct (space1 a) eqn:H1.
  { intros [= <-]. simpl. rewrite (Hnot1 a H1). reflexivity. }
  destruct s as [|b s]; [discriminate|].
  destruct (space2 a b) eqn:H2.
  { intros [= <-]. simpl.
    rewrite (Hnonascii a b H2), (Hcont b (space2_cont a b H2)). reflexivity. }
  destruct s as [|c s]; [discriminate|].
  destruct (space3 a b c) eqn:H3; [|discriminate].
  intros [= <-]. simpl. destruct (space3_cont a b c H3) as [Hb Hc].
  rewrite (Hnonascii3 a b c H3), (Hcont b Hb), (Hcont c Hc). reflexivity.
Qed.

Lemma countTerminators_keepFrom (s : gostring) :
  forall k, countTerminators (firstn k s) = 0%nat ->
    countTerminators (keepFrom s k) = countTerminators s.
Proof.
  induction s as [|c s IH]; intros k Hk; [reflexivity|].
  destruct k as [|k].
  - rewrite keepFrom_cons.
    destruct (spaceWidth (c :: s)) as [|k] eqn:E.
    + simpl. rewrite (IH 0%nat); reflexivity.
    + pose proof (spaceWidth_no_terminator _ _ E) as H0.
      cbn [firstn countTerminators] in H0. cbn [countTerminators].
      destruct (isTerminator c); [discriminate|].
      apply IH. exact H0.
  - cbn [firstn countTerminators] in Hk.
    change (keepFrom (c :: s) (S k)) with (keepFrom s k).
    cbn [countTerminators].
    destruct (isTerminator c); [discriminate|].
    apply IH. exact Hk.
Qed.

(** White space holds no terminator. *)
Lemma countTerminators_nonSpace (s : gostring) :
  countTerminators (nonSpace s) = countTerminators s.
Proof.
  apply countTerminators_keepFrom. reflexivity.
Qed.

Lemma nonSpace_Join (l : list gostring) :
  nonSpace (Join l (lit " ")) = concat (map nonSpace l).
Proof.
  induction l as [|x l IH]; [reflexivity|].
  destruct l as [|y l].
  - simpl. rewrite app_nil_r. reflexivity.
  - change (Join (x :: y :: l) (lit " "))
      with (x ++ lit " " ++ Join (y :: l) (lit " ")).
    rewrite app_assoc, nonSpace_join, IH. reflexivity.
Qed.

End Resplit.

(** *** The joined chunks do not hold the marker *)

Section MarkerFree.

Definition part (w s : gostring) : Prop := exists a b, s = a ++ w ++ b.

Lemma part_refl (s : gostring) : part s s.
Proof. exists [], []. rewrite app_nil_r. reflexivity. Qed.

Lemma part_trans (a b c : gostring) : part a b -> part b c -> part a c.
Proof.
  intros [x [y ->]] [u [v ->]]. exists (u ++ x), (y ++ v).
  rewrite <- !app_assoc. reflexivity.
Qed.

Lemma HasPrefix_app (p : gostring) :
  forall s t, HasPrefix s p = true -> HasPrefix (s ++ t) p = true.
Proof.
  induction p as [|x p IH]; intros s t H; [reflexivity|].
  destruct s as [|y s]; [discriminate|]. simpl in *.
  apply andb_true_iff in H. destruct H as [H1 H2].
  rewrite H1, (IH _ _ H2). reflexivity.
Qed.

Lemma Contains_app_r (sub s t : gostring) :
  Contains s sub = true -> Contains (s ++ t) sub = true.
Proof.
  induction s as [|x s IH]; intros H.
  - simpl in H. rewrite orb_false_r in H.
    destruct sub as [|y sub]; [|discriminate].
    destruct t; reflexivity.
  - rewrite Contains_cons in H. change ((x :: s) ++ t) with (x :: (s ++ t)).
    rewrite Contains_cons. apply orb_true_iff in H. apply orb_true_iff.
    destruct H as [H|H].
    + left. exact (HasPrefix_app sub (x :: s) t H).
    + right. exact (IH H).
Qed.

Lemma Contains_app_l (sub s t : gostring) :
  Contains t sub = true -> Contains (s ++ t) sub = true.
Proof.
  induction s as [|x s IH]; intros H; [exact H|].
  change ((x :: s) ++ t) with (x :: (s ++ t)). rewrite Contains_cons.
  rewrite (IH H). apply orb_true_r.
Qed.

(** A part of a text without the marker is without the marker. *)
Lemma part_markerFree (w s : gostring) :
  part w s -> Contains s SEP = false -> Contains w SEP = false.
Proof.
  intros [a [b ->]] H. destruct (Contains w SEP) eqn:E; [|reflexivity].
  rewrite (Contains_app_l SEP a (w ++ b) (Contains_app_r SEP w b E)) in H.
  discriminate.
Qed.

(** The marker holds no space: it lies on one side of a joining space. *)
Lemma HasPrefix_space (p : gostring) :
  forallb (fun x => negb (Ascii.eqb x " ")) p = true ->
  forall a b, HasPrefix (a ++ " "%char :: b) p = HasPrefix a p.
Proof.
  induction p as [|x p IH]; intros Hp a b; [reflexivity|].
  simpl in Hp. apply andb_true_iff in Hp. destruct Hp as [Hx Hp].
  destruct a as [|y a].
  - simpl. apply negb_true_iff in Hx. rewrite Hx. reflexivity.
  - simpl. rewrite (IH Hp). reflexivity.
Qed.

Lemma Contains_join (a b : gostring) :
  Contains ((a ++ lit " ") ++ b) SEP = Contains a SEP || Contains b SEP.
Proof.
  rewrite <- app_assoc. change (lit " " ++ b) with (" "%char :: b).
  induction a as [|x a IH].
  - change ([] ++ " "%char :: b) with (" "%char :: b).
    rewrite Contains_cons. reflexivity.
  - change ((x :: a) ++ " "%char :: b) with (x :: (a ++ " "%char :: b)).
    rewrite !Contains_cons, IH.
    change (x :: (a ++ " "%char :: b)) with ((x :: a) ++ " "%char :: b).
    rewrite (HasPrefix_space SEP eq_refl). rewrite orb_assoc. reflexivity.
Qed.

Definition markerFree (s : gostring) : Prop := Contains s SEP = false.

Lemma markerFree_nil : markerFree [].
Proof. reflexivity. Qed.

Lemma markerFree_join (a b : gostring) :
  markerFree a -> markerFree b -> markerFree ((a ++ lit " ") ++ b).
Proof.
  unfold markerFree. intros Ha Hb. rewrite Contains_join, Ha, Hb. reflexivity.
Qed.

Lemma markerFree_Join (l : list gostring) :
  Forall markerFree l -> markerFree (Join l (lit " ")).
Proof.
  induction l as [|x l IH]; intros H; [reflexivity|].
  inversion H as [|? ? Hx Hl]; subst.
  destruct l as [|y l]; [exact Hx|].
  change (Join (x :: y :: l) (lit " "))
    with (x ++ lit " " ++ Join (y :: l) (lit " ")).
  rewrite app_assoc. apply markerFree_join; [exact Hx | exact (IH Hl)].
Qed.

(** The trimmed string and the fields are parts of the string. *)
Lemma TrimSpace_part (s : gostring) : part (TrimSpace s) s.
Proof.
  destruct (dropRunes_suffix spaceWidth s 0) as [p Hp].
  destruct (TrimRight_prefix (TrimLeft s)) as [q Hq].
  exists p, q. unfold TrimSpace. rewrite <- Hq. exact Hp.
Qed.

Lemma part_cons (x : ascii) (w s : gostring) : part w s -> part w (x :: s).
Proof.
  intros [a [b ->]]. exists (x :: a), b. reflexivity.
Qed.

Lemma fieldsFrom_part (s : gostring) :
  forall skip w ws, fieldsFrom s skip = (w, ws) ->
    part w s /\ Forall (fun x => part x s) ws.
Proof.
  induction s as [|c s IH]; intros skip w ws H; simpl in H.
  - injection H as <- <-. split; [apply part_refl | constructor].
  - assert (Hup : forall l, Forall (fun x => part x s) l ->
                            Forall (fun x => part x (c :: s)) l).
    { intros l Hl. rewrite Forall_forall in *.
      intros x Hx. apply part_cons. exact (Hl x Hx). }
    destruct skip as [|k].
    + destruct (spaceWidth (c :: s)) as [|k] eqn:E.
      * destruct (fieldsFrom s 0) as [w' ws'] eqn:F. injection H as <- <-.
        destruct (IH _ _ _ F) as [Hw Hws]. split; [|exact (Hup _ Hws)].
        destruct (fieldsFrom_prefix s 0 w' ws' F) as [t Ht].
        change (s = w' ++ t) in Ht.
        exists [], t. simpl. congruence.
      * destruct (fieldsFrom s k) as [w' ws'] eqn:F. injection H as <- <-.
        destruct (IH _ _ _ F) as [Hw Hws]. split.
        { exists [], (c :: s). reflexivity. }
        destruct w' as [|y w']; simpl; [exact (Hup _ Hws)|].
        constructor; [apply part_cons; exact Hw | exact (Hup _ Hws)].
    + destruct (IH _ _ _ H) as [Hw Hws]. split;
        [apply part_cons; exact Hw | exact (Hup _ Hws)].
Qed.

Lemma Fields_part (s w : gostring) : In w (Fields s) -> part w s.
Proof.
  unfold Fields. destruct (fieldsFrom s 0) as [w' ws] eqn:F.
  destruct (fieldsFrom_part s 0 w' ws F) as [Hw Hws]. intros Hin.
  assert (H : Forall (fun x => part x s) (consField w' ws)).
  { destruct w'; simpl; [exact Hws | constructor; assumption]. }
  rewrite Forall_forall in H. exact (H w Hin).
Qed.

(** The pieces of the cut are parts of the text. *)
Lemma concat_part (l : list gostring) (x : gostring) :
  In x l -> part x (concat l).
Proof.
  intros Hin. apply in_split in Hin. destruct Hin as [l1 [l2 ->]].
  exists (concat l1), (concat l2). rewrite concat_app. reflexivity.
Qed.

Lemma splitIntoSentences_part (text sentence : gostring) :
  Contains text SEP = false ->
  In sentence (splitIntoSentences text) -> part sentence text.
Proof.
  intros Hc. unfold splitIntoSentences, Split.
  rewrite replaced_insertAfter, (splitFrom_insertAfter text Hc).
  destruct (cutFrom text) as [p ps] eqn:Hcut.
  destruct (cutFrom_pieces text p ps Hcut) as [Htext _].
  intros Hin. apply in_map_iff in Hin. destruct Hin as [x [<- Hx]].
  apply (part_trans _ x); [apply TrimSpace_part|].
  replace text with (concat (p :: ps)) by (symmetry; exact Htext).
  apply concat_part. exact Hx.
Qed.

(** The builder keeps the marker out. *)
Definition markerFreeState (st : builderState) : Prop :=
  Forall markerFree (fst st) /\ markerFree (snd st).

Lemma markerFree_flush (chunks : list gostring) (cur : gostring) :
  Forall markerFree chunks -> markerFree cur -> Forall markerFree (chunks ++ [cur]).
Proof.
  intros Hc Hcur. apply Forall_app. split; [exact Hc|].
  constructor; [exact Hcur | constructor].
Qed.

Lemma markerFree_wordStep (maxSize : Z) (st : builderState) (word : gostring) :
  markerFreeState st -> markerFree word ->
  markerFreeState (wordStep maxSize st word).
Proof.
  destruct st as [chunks cur]. intros [Hch Hcur] Hw. cbn [fst snd] in *.
  pose proof (markerFree_flush chunks cur Hch Hcur) as Hflush.
  unfold wordStep, markerFreeState. pose proof (len_nonneg cur).
  builder_cases; cbn [fst snd]; (split; [first [exact Hflush | exact Hch]|]);
    try (rewrite (len_zero cur) by lia); cbn [app];
    first [exact Hw | apply markerFree_join; assumption].
Qed.

Lemma markerFree_words (maxSize : Z) (words : list gostring) :
  Forall markerFree words ->
  forall st, markerFreeState st ->
    markerFreeState (fold_left (wordStep maxSize) words st).
Proof.
  induction 1 as [|w words Hw _ IH]; intros st Hst; simpl; [exact Hst|].
  apply IH. apply markerFree_wordStep; assumption.
Qed.

Lemma markerFree_sentenceStep (maxSize : Z) (st : builderState)
    (sentence : gostring) :
  markerFreeState st -> markerFree sentence ->
  markerFreeState (sentenceStep maxSize st sentence).
Proof.
  destruct st as [chunks cur]. intros [Hch Hcur] Hs. cbn [fst snd] in *.
  pose proof (markerFree_flush chunks cur Hch Hcur) as Hflush.
  unfold sentenceStep.
  assert (Ht : markerFree (TrimSpace sentence)).
  { exact (part_markerFree _ _ (TrimSpace_part sentence) Hs). }
  destruct (TrimSpace sentence) as [|b t'] eqn:Etrim; [split; assumption|].
  set (t := b :: t') in *.
  pose proof (len_nonneg cur).
  assert (Hwords : Forall markerFree (Fields t)).
  { apply Forall_forall. intros w Hw.
    exact (part_markerFree _ _ (Fields_part t w Hw) Ht). }
  destruct (Z.gtb_spec (len t) maxSize) as [Hlong | Hshort].
  - assert (Hw : forall chunks0, Forall markerFree chunks0 ->
        Forall markerFree
          (fst (let '(chunks1, part) :=
                  fold_left (wordStep maxSize) (Fields t) (chunks0, []) in
                (if len part >? 0 then chunks1 ++ [part] else chunks1, cur)))).
    { intros chunks0 Hc0.
      destruct (markerFree_words maxSize (Fields t) Hwords (chunks0, [])
                  (conj Hc0 markerFree_nil)) as [Hc' Hp'].
      destruct (fold_left (wordStep maxSize) (Fields t) (chunks0, []))
        as [chunks1 part]. cbn [fst snd] in *.
      destruct (len part >? 0); [|exact Hc'].
      apply markerFree_flush; assumption. }
    destruct (Z.gtb_spec (len cur) 0).
    + specialize (Hw _ Hflush).
      destruct (fold_left (wordStep maxSize) (Fields t) (chunks ++ [cur], []))
        as [chunks1 part]. cbn [fst snd] in *.
      split; [exact Hw | exact markerFree_nil].
    + specialize (Hw _ Hch).
      destruct (fold_left (wordStep maxSize) (Fields t) (chunks, []))
        as [chunks1 part]. cbn [fst snd] in *. split; [exact Hw | exact Hcur].
  - builder_cases; cbn [fst snd]; (split; [first [exact Hflush | exact Hch]|]);
      try (rewrite (len_zero cur) by lia); cbn [app];
      first [exact Ht | apply markerFree_join; assumption].
Qed.

Lemma markerFree_sentences (maxSize : Z) (sentences : list gostring) :
  Forall markerFree sentences ->
  forall st, markerFreeState st ->
    markerFreeState (fold_left (sentenceStep maxSize) sentences st).
Proof.
  induction 1 as [|x sentences Hx _ IH]; intros st Hst; simpl; [exact Hst|].
  apply IH. apply markerFree_sentenceStep; assumption.
Qed.

Lemma markerFree_chunks (text : gostring) (maxSize : Z) :
  Contains text SEP = false ->
  Forall markerFree (splitTextIntoChunks text maxSize).
Proof.
  intros Hc. unfold splitTextIntoChunks.
  assert (Hs : Forall markerFree (splitIntoSentences text)).
  { apply Forall_forall. intros x Hx.
    exact (part_markerFree _ _ (splitIntoSentences_part text x Hc Hx) Hc). }
  destruct (markerFree_sentences maxSize _ Hs ([], [])
              (conj (Forall_nil _) markerFree_nil)) as [Hch Hcur].
  destruct (fold_left (sentenceStep maxSize) (splitIntoSentences text) ([], []))
    as [chunks cur]. cbn [fst snd] in *.
  destruct (len cur >? 0); [apply markerFree_flush; assumption | exact Hch].
Qed.

End MarkerFree.

(** Splitting again, for a text that does not hold the marker ["|SEP|"]:
    the chunks joined by spaces split into as many segments as the text,
    whatever [maxSize] is; chunking adds no terminator and removes none. *)
Theorem resplit_count (text : gostring) (maxSize : Z) :
  Contains text SEP = false ->
  length (splitIntoSentences (Join (splitTextIntoChunks text maxSize) (lit " ")))
  = length (splitIntoSentences text).
Proof.
  intros Hc.
  rewrite (splitIntoSentences_length text Hc).
  rewrite splitIntoSentences_length.
  - f_equal.
    rewrite <- (countTerminators_nonSpace (Join _ _)), nonSpace_Join.
    rewrite (chunks_cover_sentences text maxSize).
    rewrite (sentences_cover_text text Hc).
    apply countTerminators_nonSpace.
  - apply markerFree_Join. apply markerFree_chunks. exact Hc.
Qed.

Lemma resplit_count_witness :
  Contains (lit "Hello world. Hi! Is it so? Yes") SEP = false
  /\ length (splitIntoSentences
               (Join (splitTextIntoChunks (lit "Hello world. Hi! Is it so? Yes") 10)
                     (lit " ")))
     = length (splitIntoSentences (lit "Hello world. Hi! Is it so? Yes")).
Proof.
  split; [reflexivity | apply resplit_count; reflexivity].
Defined.

(** ** More on the chunk builder *)

(** *** Empty chunks

    The flush before a sentence that fits is the only one that does not
    test the builder: it emits the empty builder when the sentence alone
    has [maxSize] bytes. *)

Section EmptyChunks.

Variable maxSize : Z.

Definition nonEmpty (c : gostring) : Prop := c <> [].

Lemma nonEmpty_flush (chunks : list gostring) (cur : gostring) :
  Forall nonEmpty chunks -> 0 < len cur -> Forall nonEmpty (chunks ++ [cur]).
Proof.
  intros Hc Hcur. apply Forall_app. split; [exact Hc|].
  constructor; [|constructor]. intros ->. unfold len in Hcur. simpl in Hcur. lia.
Qed.

Lemma nonEmpty_wordStep (st : builderState) (word : gostring) :
  Forall nonEmpty (fst st) ->
  Forall nonEmpty (fst (wordStep maxSize st word)).
Proof.
  destruct st as [chunks cur]. cbn [fst]. intros Hch.
  unfold wordStep.
  builder_cases; cbn [fst]; first [exact Hch | apply nonEmpty_flush; [exact Hch | lia]].
Qed.

Lemma nonEmpty_words (words : list gostring) :
  forall st, Forall nonEmpty (fst st) ->
    Forall nonEmpty (fst (fold_left (wordStep maxSize) words st)).
Proof.
  induction words as [|w words IH]; intros st Hst; simpl; [exact Hst|].
  apply IH. apply nonEmpty_wordStep. exact Hst.
Qed.

Lemma nonEmpty_sentenceStep (st : builderState) (sentence : gostring) :
  len (TrimSpace sentence) <> maxSize ->
  Forall nonEmpty (fst st) ->
  Forall nonEmpty (fst (sentenceStep maxSize st sentence)).
Proof.
  destruct st as [chunks cur]. cbn [fst]. intros Hlen Hch.
  unfold sentenceStep.
  destruct (TrimSpace sentence) as [|b t'] eqn:Etrim; [exact Hch|].
  set (t := b :: t') in *.
  pose proof (len_nonneg cur).
  destruct (Z.gtb_spec (len t) maxSize) as [Hlong | Hshort].
  - assert (Hw : forall chunks0, Forall nonEmpty chunks0 ->
        Forall nonEmpty
          (fst (let '(chunks1, part) :=
                  fold_left (wordStep maxSize) (Fields t) (chunks0, []) in
                (if len part >? 0 then chunks1 ++ [part] else chunks1, cur)))).
    { intros chunks0 Hc0.
      pose proof (nonEmpty_words (Fields t) (chunks0, []) Hc0) as Hc'.
      destruct (fold_left (wordStep maxSize) (Fields t) (chunks0, []))
        as [chunks1 part]. cbn [fst snd] in *.
      destruct (Z.gtb_spec (len part) 0); [|exact Hc'].
      apply nonEmpty_flush; [exact Hc' | lia]. }
    destruct (Z.gtb_spec (len cur) 0).
    + specialize (Hw _ (nonEmpty_flush chunks cur Hch ltac:(lia))).
      destruct (fold_left (wordStep maxSize) (Fields t) (chunks ++ [cur], []))
        as [chunks1 part]. exact Hw.
    + specialize (Hw _ Hch).
      destruct (fold_left (wordStep maxSize) (Fields t) (chunks, []))
        as [chunks1 part]. exact Hw.
  - builder_cases; cbn [fst];
      first [exact Hch | apply nonEmpty_flush; [exact Hch | lia]].
Qed.

Lemma nonEmpty_sentences (sentences : list gostring) :
  Forall (fun s => len (TrimSpace s) <> maxSize) sentences ->
  forall st, Forall nonEmpty (fst st) ->
    Forall nonEmpty (fst (fold_left (sentenceStep maxSize) sentences st)).
Proof.
  induction 1 as [|x sentences Hx _ IH]; intros st Hst; simpl; [exact Hst|].
  apply IH. apply nonEmpty_sentenceStep; assumption.
Qed.

(** The steps only add chunks. *)
Lemma wordStep_extends (st : builderState) (word : gostring) :
  exists more, fst (wordStep maxSize st word) = fst st ++ more.
Proof.
  destruct st as [chunks cur]. unfold wordStep.
  builder_cases; cbn [fst]; first [by exists [cur] | by (exists []; rewrite app_nil_r)].
Qed.

Lemma words_extend (words : list gostring) :
  forall st, exists more,
    fst (fold_left (wordStep maxSize) words st) = fst st ++ more.
Proof.
  induction words as [|w words IH]; intros st; simpl.
  - exists []. rewrite app_nil_r. reflexivity.
  - destruct (IH (wordStep maxSize st w)) as [m1 H1].
    destruct (wordStep_extends st w) as [m0 H0].
    exists (m0 ++ m1). rewrite H1, H0, app_assoc. reflexivity.
Qed.

Lemma sentenceStep_extends (st : builderState) (sentence : gostring) :
  exists more, fst (sentenceStep maxSize st sentence) = fst st ++ more.
Proof.
  destruct st as [chunks cur]. unfold sentenceStep. cbn [fst].
  destruct (TrimSpace sentence) as [|b t'] eqn:Etrim.
  { exists []. rewrite app_nil_r. reflexivity. }
  set (t := b :: t') in *.
  destruct (len t >? maxSize).
  - assert (Hw : forall chunks0, exists more,
        fst (let '(chunks1, part) :=
               fold_left (wordStep maxSize) (Fields t) (chunks0, []) in
             (if len part >? 0 then chunks1 ++ [part] else chunks1, cur))
        = chunks0 ++ more).
    { intros chunks0.
      destruct (words_extend (Fields t) (chunks0, [])) as [m Hm].
      destruct (fold_left (wordStep maxSize) (Fields t) (chunks0, []))
        as [chunks1 part]. cbn [fst] in *. subst chunks1.
      destruct (len part >? 0).
      - exists (m ++ [part]). rewrite app_assoc. reflexivity.
      - exists m. reflexivity. }
    destruct (len cur >? 0).
    + destruct (Hw (chunks ++ [cur])) as [m Hm]. exists ([cur] ++ m).
      rewrite app_assoc, <- Hm.
      destruct (fold_left (wordStep maxSize) (Fields t) (chunks ++ [cur], []));
        reflexivity.
    + destruct (Hw chunks) as [m Hm]. exists m. rewrite <- Hm.
      destruct (fold_left (wordStep maxSize) (Fields t) (chunks, []));
        reflexivity.
  - builder_cases; cbn [fst];
      first [by exists [cur] | by (exists []; rewrite app_nil_r)].
Qed.

Lemma sentences_extend (sentences : list gostring) :
  forall st, exists more,
    fst (fold_left (sentenceStep maxSize) sentences st) = fst st ++ more.
Proof.
  induction sentences as [|x sentences IH]; intros st; simpl.
  - exists []. rewrite app_nil_r. reflexivity.
  - destruct (IH (sentenceStep maxSize st x)) as [m1 H1].
    destruct (sentenceStep_extends st x) as [m0 H0].
    exists (m0 ++ m1). rewrite H1, H0, app_assoc. reflexivity.
Qed.

End EmptyChunks.

(** No chunk is empty when no segment of the text has exactly [maxSize]
    bytes. *)
Theorem splitTextIntoChunks_nonempty (text : gostring) (maxSize : Z) :
  (forall sentence, In sentence (splitIntoSentences text) ->
     len sentence <> maxSize) ->
  Forall (fun chunk => chunk <> []) (splitTextIntoChunks text maxSize).
Proof.
  intros Hlen. unfold splitTextIntoChunks.
  assert (Hs : Forall (fun s => len (TrimSpace s) <> maxSize)
                 (splitIntoSentences text)).
  { pose proof (splitIntoSentences_trimmed text) as Htrim.
    rewrite Forall_forall in *. intros s Hin.
    rewrite (Htrim s Hin). exact (Hlen s Hin). }
  pose proof (nonEmpty_sentences maxSize _ Hs ([], []) (Forall_nil _)) as Hch.
  destruct (fold_left (sentenceStep maxSize) (splitIntoSentences text) ([], []))
    as [chunks cur]. cbn [fst] in Hch.
  destruct (Z.gtb_spec (len cur) 0); [|exact Hch].
  apply nonEmpty_flush; [exact Hch | lia].
Qed.

Lemma splitTextIntoChunks_nonempty_witness :
  Forall (fun chunk => chunk <> [])
    (splitTextIntoChunks (lit "Hello world. Hi.") 10).
Proof.
  apply splitTextIntoChunks_nonempty.
  intros sentence Hin. vm_compute in Hin.
  destruct Hin as [<-|[<-|[<-|[]]]]; vm_compute; discriminate.
Defined.

(** The first chunk is the empty string when the first segment of the text
    has exactly [maxSize] bytes. *)
Theorem splitTextIntoChunks_first_chunk_empty (text : gostring) (maxSize : Z)
    (sentence : gostring) (rest : list gostring) :
  0 < maxSize ->
  splitIntoSentences text = sentence :: rest ->
  len sentence = maxSize ->
  exists more, splitTextIntoChunks text maxSize = [] :: more.
Proof.
  intros Hpos Hsplit Hlen. unfold splitTextIntoChunks. rewrite Hsplit.
  assert (Htrim : TrimSpace sentence = sentence).
  { pose proof (splitIntoSentences_trimmed text) as H. rewrite Hsplit in H.
    inversion H; assumption. }
  cbn [fold_left].
  assert (Hfirst : sentenceStep maxSize ([], []) sentence = ([[]], sentence)).
  { unfold sentenceStep. rewrite Htrim.
    destruct sentence as [|b s']; [unfold len in Hlen; simpl in Hlen; lia|].
    set (s := b :: s') in *.
    builder_cases; try lia; try reflexivity;
      unfold len in *; simpl in *; lia. }
  rewrite Hfirst.
  destruct (sentences_extend maxSize rest ([[]], sentence)) as [m Hm].
  destruct (fold_left (sentenceStep maxSize) rest ([[]], sentence))
    as [chunks cur]. cbn [fst] in Hm. subst chunks.
  destruct (len cur >? 0); eexists; reflexivity.
Qed.

Lemma splitTextIntoChunks_first_chunk_empty_witness :
  exists more, splitTextIntoChunks (lit "Hi. Yes") 3 = [] :: more.
Proof.
  apply (splitTextIntoChunks_first_chunk_empty _ 3 (lit "Hi.") [lit "Yes"]);
    [lia | reflexivity | reflexivity].
Defined.

(** *** The words of the chunks

    [strings.Fields] of a string joined to another by a space, of a trimmed
    string, and of the chunks. *)

Section Words.

Lemma consField_app (w : gostring) (ws more : list gostring) :
  consField w (ws ++ more) = consField w ws ++ more.
Proof. destruct w; reflexivity. Qed.

Lemma spaceWidth_clean (t : gostring) (k : nat) :
  spaceWidth t = S k -> clean t = true.
Proof.
  unfold spaceWidth. destruct t as [|a t]; [discriminate|].
  destruct (space1 a) eqn:H1.
  { intros _. simpl. rewrite (space1_not_cont a H1). reflexivity. }
  destruct t as [|b t]; [discriminate|].
  destruct (space2 a b) eqn:H2.
  { intros _. simpl. rewrite (space2_lead a b H2). reflexivity. }
  destruct t as [|c t]; [discriminate|].
  destruct (space3 a b c) eqn:H3; [|discriminate].
  intros _. simpl. rewrite (space3_lead a b c H3). reflexivity.
Qed.

(** The fields of a string that starts with white space. *)
Lemma fieldsFrom_space (t : gostring) (k : nat) :
  spaceWidth t = S k -> fieldsFrom t 0 = ([], Fields t).
Proof.
  intros E. unfold Fields. destruct t as [|c t]; [discriminate|].
  cbn [fieldsFrom]. rewrite E.
  destruct (fieldsFrom t k) as [w ws]. reflexivity.
Qed.

(** Scanning [s ++ t], where [t] is empty or starts with white space: the
    fields of [s], then those of [t]. *)
Lemma fieldsFrom_app_space (t : gostring) :
  t = [] \/ (exists k, spaceWidth t = S k) ->
  forall s k w ws, (k <= length s)%nat -> fieldsFrom s k = (w, ws) ->
    fieldsFrom (s ++ t) k = (w, ws ++ Fields t).
Proof.
  intros Ht.
  assert (Hclean : clean t = true).
  { destruct Ht as [-> | [k Hk]]; [reflexivity | exact (spaceWidth_clean t k Hk)]. }
  induction s as [|c s IH]; intros k w ws Hk H.
  - simpl in Hk. assert (k = 0%nat) as -> by lia.
    injection H as <- <-. cbn [app].
    destruct Ht as [-> | [k Hk']]; [reflexivity | exact (fieldsFrom_space t k Hk')].
  - destruct k as [|k].
    + change ((c :: s) ++ t) with (c :: (s ++ t)). cbn [fieldsFrom] in *.
      change (c :: (s ++ t)) with ((c :: s) ++ t).
      rewrite spaceWidth_app_clean by (auto; discriminate).
      pose proof (spaceWidth_le_length (c :: s)) as Hle. simpl in Hle.
      destruct (spaceWidth (c :: s)) as [|k].
      * destruct (fieldsFrom s 0) as [w' ws'] eqn:F. injection H as <- <-.
        rewrite (IH 0%nat w' ws') by (auto; lia). reflexivity.
      * destruct (fieldsFrom s k) as [w' ws'] eqn:F. injection H as <- <-.
        rewrite (IH k w' ws') by (auto; lia).
        rewrite consField_app. reflexivity.
    + simpl in Hk. change ((c :: s) ++ t) with (c :: (s ++ t)).
      cbn [fieldsFrom] in *. apply IH; [lia | exact H].
Qed.

Lemma Fields_app_space (s t : gostring) :
  t = [] \/ (exists k, spaceWidth t = S k) ->
  Fields (s ++ t) = Fields s ++ Fields t.
Proof.
  intros Ht. unfold Fields at 1 2.
  destruct (fieldsFrom s 0) as [w ws] eqn:F.
  rewrite (fieldsFrom_app_space t Ht s 0%nat w ws (Nat.le_0_l _) F).
  apply consField_app.
Qed.

Lemma Fields_join (a b : gostring) :
  Fields ((a ++ lit " ") ++ b) = Fields a ++ Fields b.
Proof.
  rewrite <- app_assoc. change (lit " " ++ b) with (" "%char :: b).
  rewrite Fields_app_space by (right; exists 0%nat; reflexivity).
  f_equal. unfold Fields. destruct (fieldsFrom b 0) as [w ws] eqn:F.
  cbn [fieldsFrom]. change (spaceWidth (" "%char :: b)) with 1%nat.
  cbv iota. rewrite F. reflexivity.
Qed.

Lemma Fields_nil : Fields [] = [].
Proof. reflexivity. Qed.

(** Leading white space holds no field. *)
Lemma Fields_dropRunes (s : gostring) :
  forall k w ws, fieldsFrom s k = (w, ws) ->
    Fields (dropRunes spaceWidth s k) = consField w ws.
Proof.
  induction s as [|c s IH]; intros k w ws H.
  - injection H as <- <-. reflexivity.
  - destruct k as [|k].
    + rewrite dropRunes_cons. cbn [fieldsFrom] in H.
      destruct (spaceWidth (c :: s)) as [|k] eqn:E.
      * unfold Fields. cbn [fieldsFrom]. rewrite E.
        destruct (fieldsFrom s 0) as [w' ws']. injection H as <- <-. reflexivity.
      * destruct (fieldsFrom s k) as [w' ws'] eqn:F. injection H as <- <-.
        rewrite (IH k w' ws' F). reflexivity.
    + cbn [fieldsFrom] in H. change (dropRunes spaceWidth (c :: s) (S k))
        with (dropRunes spaceWidth s k). exact (IH k w ws H).
Qed.

Lemma Fields_TrimLeft (s : gostring) : Fields (TrimLeft s) = Fields s.
Proof.
  unfold TrimLeft, Fields at 2.
  destruct (fieldsFrom s 0) as [w ws] eqn:F.
  exact (Fields_dropRunes s 0%nat w ws F).
Qed.

(** Trailing white space holds no field. *)
Lemma Fields_white (W : gostring) : nonSpace W = [] -> Fields W = [].
Proof.
  intros H. rewrite nonSpace_Fields in H.
  pose proof (Fields_noSpace W) as Hall.
  destruct (Fields W) as [|x l]; [reflexivity|].
  inversion Hall as [|? ? [_ Hx] _]; subst.
  destruct x; [congruence | discriminate].
Qed.

Lemma white_space (W : gostring) :
  W <> [] -> nonSpace W = [] -> exists k, spaceWidth W = S k.
Proof.
  intros Hne H. destruct W as [|c W]; [congruence|].
  unfold nonSpace in H. rewrite keepFrom_cons in H.
  destruct (spaceWidth (c :: W)) as [|k]; [discriminate | eauto].
Qed.

Lemma Fields_rev_dropRunes (n : nat) :
  forall r, (length r <= n)%nat ->
    Fields (rev (dropRunes spaceWidthRev r 0)) = Fields (rev r).
Proof.
  induction n as [|n IH]; intros r Hn.
  - destruct r; [reflexivity | simpl in Hn; lia].
  - destruct r as [|c r]; [reflexivity|].
    rewrite dropRunes_cons.
    destruct (spaceWidthRev (c :: r)) as [|k] eqn:E; [reflexivity|].
    destruct (spaceWidthRev_rune _ _ E) as [W [HW [Hlen [Hns Hcl]]]].
    rewrite dropRunes_skipn.
    assert (HWne : W <> []).
    { rewrite <- HW. intros H0. apply (f_equal (@length ascii)) in H0.
      rewrite length_rev, length_firstn in H0. simpl in H0. lia. }
    replace (rev (c :: r)) with (rev (skipn k r) ++ W).
    2: { rewrite <- HW, <- rev_app_distr.
         change (skipn k r) with (skipn (S k) (c :: r)).
         rewrite firstn_skipn. reflexivity. }
    rewrite (Fields_app_space _ W (or_intror (white_space W HWne Hns))).
    rewrite (Fields_white W Hns), app_nil_r.
    apply IH. rewrite length_skipn. simpl in Hn. lia.
Qed.

Lemma Fields_TrimRight (s : gostring) : Fields (TrimRight s) = Fields s.
Proof.
  unfold TrimRight.
  rewrite (Fields_rev_dropRunes (length (rev s)) (rev s) (le_n _)).
  rewrite rev_involutive. reflexivity.
Qed.

Lemma Fields_TrimSpace (s : gostring) : Fields (TrimSpace s) = Fields s.
Proof.
  unfold TrimSpace. rewrite Fields_TrimRight. apply Fields_TrimLeft.
Qed.

(** The fields of the fields. *)
Lemma Fields_Fields (s : gostring) : concat (map Fields (Fields s)) = Fields s.
Proof.
  assert (H : forall l, Forall isWord l -> concat (map Fields l) = l).
  { induction 1 as [|x l Hx _ IH]; [reflexivity|].
    cbn [map concat]. rewrite Hx, IH. reflexivity. }
  apply H. apply Forall_forall. intros w Hw. exact (Fields_isWord s w Hw).
Qed.

(** The words the builder holds: those of the chunks, then those of the
    builder. *)
Definition wordsOf (st : builderState) : list gostring :=
  concat (map Fields (fst st)) ++ Fields (snd st).

Lemma wordsOf_flush (chunks : list gostring) (part : gostring) :
  wordsOf (chunks ++ [part], []) = wordsOf (chunks, part).
Proof.
  unfold wordsOf. cbn [fst snd]. rewrite map_app, concat_app. cbn [map concat].
  rewrite Fields_nil, !app_nil_r. reflexivity.
Qed.

Lemma wordsOf_wordStep (maxSize : Z) (st : builderState) (word : gostring) :
  wordsOf (wordStep maxSize st word) = wordsOf st ++ Fields word.
Proof.
  destruct st as [chunks part]. unfold wordStep.
  pose proof (len_nonneg part).
  builder_cases; try lia; try (rewrite (len_zero part) by lia);
    unfold wordsOf; cbn [fst snd app];
    rewrite ?map_app, ?concat_app; cbn [map concat];
    rewrite ?Fields_join, ?Fields_nil, ?app_nil_r, <- ?app_assoc; reflexivity.
Qed.

Lemma wordsOf_words (maxSize : Z) (words : list gostring) :
  forall st, wordsOf (fold_left (wordStep maxSize) words st)
             = wordsOf st ++ concat (map Fields words).
Proof.
  induction words as [|w words IH]; intros st; simpl.
  - rewrite app_nil_r. reflexivity.
  - rewrite IH, wordsOf_wordStep, app_assoc. reflexivity.
Qed.

Lemma wordsOf_sentenceStep (maxSize : Z) (st : builderState) (sentence : gostring) :
  wordsOf (sentenceStep maxSize st sentence) = wordsOf st ++ Fields sentence.
Proof.
  destruct st as [chunks cur]. unfold sentenceStep.
  rewrite <- (Fields_TrimSpace sentence).
  destruct (TrimSpace sentence) as [|b t'] eqn:Ht.
  { rewrite Fields_nil, app_nil_r. reflexivity. }
  set (t := b :: t') in *.
  pose proof (len_nonneg cur).
  destruct (Z.gtb_spec (len t) maxSize) as [Hlong | Hshort].
  - assert (Hw : forall chunks0,
        wordsOf (let '(chunks1, part) :=
                   fold_left (wordStep maxSize) (Fields t) (chunks0, []) in
                 (if len part >? 0 then chunks1 ++ [part] else chunks1, []))
        = wordsOf (chunks0, []) ++ Fields t).
    { intros chunks0.
      pose proof (wordsOf_words maxSize (Fields t) (chunks0, [])) as Hc.
      rewrite Fields_Fields in Hc.
      destruct (fold_left (wordStep maxSize) (Fields t) (chunks0, []))
        as [chunks1 part].
      rewrite <- Hc. pose proof (len_nonneg part).
      destruct (Z.gtb_spec (len part) 0); [apply wordsOf_flush|].
      rewrite (len_zero part) by lia. reflexivity. }
    destruct (Z.gtb_spec (len cur) 0).
    + specialize (Hw (chunks ++ [cur])). rewrite wordsOf_flush in Hw.
      rewrite <- Hw.
      destruct (fold_left (wordStep maxSize) (Fields t) (chunks ++ [cur], []));
        reflexivity.
    + rewrite (len_zero cur) by lia. specialize (Hw chunks).
      rewrite <- Hw.
      destruct (fold_left (wordStep maxSize) (Fields t) (chunks, []));
        reflexivity.
  - builder_cases; try lia; try (rewrite (len_zero cur) by lia);
      unfold wordsOf; cbn [fst snd app];
      rewrite ?map_app, ?concat_app; cbn [map concat];
      rewrite ?Fields_join, ?Fields_nil, ?app_nil_r, <- ?app_assoc; reflexivity.
Qed.

Lemma wordsOf_sentences (maxSize : Z) (sentences : list gostring) :
  forall st, wordsOf (fold_left (sentenceStep maxSize) sentences st)
             = wordsOf st ++ concat (map Fields sentences).
Proof.
  induction sentences as [|x sentences IH]; intros st; simpl.
  - rewrite app_nil_r. reflexivity.
  - rewrite IH, wordsOf_sentenceStep, app_assoc. reflexivity.
Qed.

End Words.

(** The chunk builder keeps the words of the segments: the fields of the
    chunks, chunk after chunk, are the fields of the segments, segment after
    segment.  No word is cut, merged, dropped or moved, whatever [maxSize]
    is. *)
Theorem chunks_keep_words (text : gostring) (maxSize : Z) :
  concat (map Fields (splitTextIntoChunks text maxSize))
  = concat (map Fields (splitIntoSentences text)).
Proof.
  unfold splitTextIntoChunks.
  pose proof (wordsOf_sentences maxSize (splitIntoSentences text) ([], [])) as Hc.
  destruct (fold_left (sentenceStep maxSize) (splitIntoSentences text) ([], []))
    as [chunks cur].
  change (wordsOf ([], [])) with (@nil gostring) in Hc. simpl in Hc. rewrite <- Hc.
  pose proof (len_nonneg cur).
  destruct (Z.gtb_spec (len cur) 0).
  - rewrite <- wordsOf_flush. unfold wordsOf. simpl. rewrite app_nil_r. reflexivity.
  - rewrite (len_zero cur) by lia. unfold wordsOf. simpl. rewrite app_nil_r.
    reflexivity.
Qed.

(** *** The words of the text *)

Section TextWords.

(** Every terminator of the text is followed by white space, or ends the
    text. *)
Fixpoint spaced (text : gostring) : bool :=
  match text with
  | [] => true
  | x :: t =>
      (if isTerminator x
       then match t with [] => true | _ => negb (spaceWidth t =? 0)%nat end
       else true)
      && spaced t
  end.

Lemma spaced_cons (x : ascii) (t : gostring) :
  spaced (x :: t)
  = (if isTerminator x
     then match t with [] => true | _ => negb (spaceWidth t =? 0)%nat end
     else true) && spaced t.
Proof. reflexivity. Qed.

(** The pieces after the first start with white space, and their fields are
    those of the rest of the text. *)
Lemma Fields_cutFrom (text : gostring) :
  spaced text = true ->
  forall p ps, cutFrom text = (p, ps) ->
    (concat ps = [] \/ exists k, spaceWidth (concat ps) = S k)
    /\ Fields (concat ps) = concat (map Fields ps)
    /\ text = p ++ concat ps.
Proof.
  induction text as [|x t IH]; intros Hsp p ps H.
  - injection H as <- <-. repeat split; auto.
  - rewrite cutFrom_cons in H. rewrite spaced_cons in Hsp.
    apply andb_true_iff in Hsp. destruct Hsp as [Hx Hsp].
    destruct (cutFrom t) as [p' ps'] eqn:Hcut.
    destruct (IH Hsp p' ps' eq_refl) as [Hstart [Hfields Ht]].
    destruct (isTerminator x).
    + injection H as <- <-. cbn [concat map]. rewrite <- Ht.
      repeat split.
      * destruct t as [|y t']; [left; reflexivity | right].
        apply negb_true_iff, Nat.eqb_neq in Hx.
        destruct (spaceWidth (y :: t')) as [|k]; [congruence | eauto].
      * rewrite Ht at 1. rewrite (Fields_app_space p' (concat ps') Hstart).
        rewrite Hfields. reflexivity.
    + injection H as <- <-. repeat split; auto.
      cbn [app]. rewrite <- Ht. reflexivity.
Qed.

(** The fields of the segments are the fields of the text. *)
Lemma sentences_keep_words (text : gostring) :
  Contains text SEP = false -> spaced text = true ->
  concat (map Fields (splitIntoSentences text)) = Fields text.
Proof.
  intros Hc Hsp. unfold splitIntoSentences, Split.
  rewrite replaced_insertAfter, (splitFrom_insertAfter text Hc).
  destruct (cutFrom text) as [p ps] eqn:Hcut.
  rewrite map_map.
  rewrite (map_ext (fun x => Fields (TrimSpace x)) Fields Fields_TrimSpace).
  destruct (Fields_cutFrom text Hsp p ps Hcut) as [Hstart [Hfields Ht]].
  cbn [map concat]. rewrite <- Hfields.
  rewrite <- (Fields_app_space p (concat ps) Hstart), <- Ht. reflexivity.
Qed.

Lemma Fields_Join (l : list gostring) :
  Fields (Join l (lit " ")) = concat (map Fields l).
Proof.
  induction l as [|x l IH]; [reflexivity|].
  destruct l as [|y l].
  - simpl. rewrite app_nil_r. reflexivity.
  - change (Join (x :: y :: l) (lit " "))
      with (x ++ lit " " ++ Join (y :: l) (lit " ")).
    rewrite app_assoc, Fields_join, IH. reflexivity.
Qed.

End TextWords.

(** [countWords(s)]. *)
Definition countWords (s : gostring) : Z := Z.of_nat (length (Fields s)).

(** For a text without the marker whose terminators are each followed by
    white space or end the text, the words of the chunks are the words of
    the text, in their order, and the chunks joined by spaces count as many
    words as the text. *)
Theorem chunks_keep_words_of_text (text : gostring) (maxSize : Z) :
  Contains text SEP = false -> spaced text = true ->
  concat (map Fields (splitTextIntoChunks text maxSize)) = Fields text
  /\ countWords (Join (splitTextIntoChunks text maxSize) (lit " "))
     = countWords text.
Proof.
  intros Hc Hsp.
  assert (H : concat (map Fields (splitTextIntoChunks text maxSize)) = Fields text).
  { unfold splitTextIntoChunks.
    pose proof (wordsOf_sentences maxSize (splitIntoSentences text) ([], [])) as Hw.
    destruct (fold_left (sentenceStep maxSize) (splitIntoSentences text) ([], []))
      as [chunks cur].
    change (wordsOf ([], [])) with (@nil gostring) in Hw. simpl in Hw.
    rewrite <- (sentences_keep_words text Hc Hsp), <- Hw.
    pose proof (len_nonneg cur).
    destruct (Z.gtb_spec (len cur) 0).
    - rewrite <- wordsOf_flush. unfold wordsOf. simpl. rewrite app_nil_r.
      reflexivity.
    - rewrite (len_zero cur) by lia. unfold wordsOf. simpl.
      rewrite app_nil_r. reflexivity. }
  split; [exact H|]. unfold countWords. rewrite Fields_Join, H. reflexivity.
Qed.

Lemma chunks_keep_words_of_text_witness :
  concat (map Fields (splitTextIntoChunks (lit "Hello  world. Hi there! Yes") 10))
  = Fields (lit "Hello  world. Hi there! Yes")
  /\ countWords (Join (splitTextIntoChunks (lit "Hello  world. Hi there! Yes") 10)
                      (lit " "))
     = countWords (lit "Hello  world. Hi there! Yes").
Proof.
  apply chunks_keep_words_of_text; reflexivity.
Defined.

(** A string counts no word exactly when [strings.TrimSpace] leaves nothing
    of it: the strings [generateTTSAudio] and [saveGeneratedText] refuse. *)
Theorem countWords_zero_iff_blank (s : gostring) :
  countWords s = 0 <-> len (TrimSpace s) = 0.
Proof.
  unfold countWords, len. split; intros H.
  - assert (Hf : Fields s = []) by (destruct (Fields s); [reflexivity | simpl in H; lia]).
    assert (Hns : nonSpace (TrimSpace s) = []).
    { rewrite nonSpace_TrimSpace, nonSpace_Fields, Hf. reflexivity. }
    pose proof (TrimSpace_no_leading s) as Hlead.
    destruct (TrimSpace s) as [|c t]; [reflexivity|].
    unfold nonSpace in Hns. rewrite keepFrom_cons, Hlead in Hns. discriminate.
  - assert (Ht : TrimSpace s = []) by (destruct (TrimSpace s); [reflexivity | simpl in H; lia]).
    rewrite <- Fields_TrimSpace, Ht. reflexivity.
Qed.

(** *** Blank texts and texts that fit *)

Section SmallTexts.

Lemma Contains_split (sub : gostring) :
  forall s, Contains s sub = true -> exists a b, s = a ++ sub ++ b.
Proof.
  assert (Hp : forall p s, HasPrefix s p = true -> exists b, s = p ++ b).
  { induction p as [|x p IH]; intros s H; [exists s; reflexivity|].
    destruct s as [|y s]; [discriminate|]. simpl in H.
    apply andb_true_iff in H. destruct H as [Hx Hs].
    apply Ascii.eqb_eq in Hx. subst y.
    destruct (IH s Hs) as [b ->]. exists b. reflexivity. }
  induction s as [|x s IH]; intros H.
  - simpl in H. rewrite orb_false_r in H. destruct (Hp _ _ H) as [b Hb].
    exists [], b. exact Hb.
  - rewrite Contains_cons in H. apply orb_true_iff in H. destruct H as [H|H].
    + destruct (Hp _ _ H) as [b Hb]. exists [], b. exact Hb.
    + destruct (IH H) as [a [b ->]]. exists (x :: a), b. reflexivity.
Qed.

(** A text of white space holds no marker and no terminator. *)
Lemma blank_markerFree (text : gostring) :
  nonSpace text = [] -> Contains text SEP = false.
Proof.
  intros Hb. destruct (Contains text SEP) eqn:Hc; [|reflexivity].
  destruct (Contains_split SEP text Hc) as [a [b ->]].
  change (SEP ++ b) with ("|"%char :: (lit "SEP|" ++ b)) in Hb.
  rewrite nonSpace_app_clean in Hb by reflexivity.
  rewrite nonSpace_ascii_cons in Hb by reflexivity.
  apply app_eq_nil in Hb. destruct Hb as [_ Hb]. discriminate.
Qed.

Lemma cutFrom_no_terminator (text : gostring) :
  countTerminators text = 0%nat -> cutFrom text = (text, []).
Proof.
  induction text as [|x t IH]; intros H; [reflexivity|].
  rewrite cutFrom_cons. cbn [countTerminators] in H.
  destruct (isTerminator x); [discriminate|].
  rewrite IH by exact H. reflexivity.
Qed.

Lemma blank_TrimSpace (text : gostring) : nonSpace text = [] -> TrimSpace text = [].
Proof.
  intros Hb. pose proof (TrimSpace_no_leading text) as Hlead.
  rewrite <- nonSpace_TrimSpace in Hb.
  destruct (TrimSpace text) as [|c t]; [reflexivity|].
  unfold nonSpace in Hb. rewrite keepFrom_cons, Hlead in Hb. discriminate.
Qed.

Lemma blank_sentences (text : gostring) :
  nonSpace text = [] -> splitIntoSentences text = [[]].
Proof.
  intros Hb. unfold splitIntoSentences, Split.
  rewrite replaced_insertAfter, (splitFrom_insertAfter text (blank_markerFree text Hb)).
  rewrite cutFrom_no_terminator.
  - cbn [map]. rewrite (blank_TrimSpace text Hb). reflexivity.
  - rewrite <- countTerminators_nonSpace, Hb. reflexivity.
Qed.

Lemma blank_chunks (text : gostring) (maxSize : Z) :
  TrimSpace text = [] -> splitTextIntoChunks text maxSize = [].
Proof.
  intros Ht.
  assert (Hb : nonSpace text = []).
  { rewrite <- nonSpace_TrimSpace, Ht. reflexivity. }
  unfold splitTextIntoChunks. rewrite (blank_sentences text Hb). reflexivity.
Qed.

(** The bytes of the segments, with one more byte for each. *)
Fixpoint budget (sentences : list gostring) : Z :=
  match sentences with
  | [] => 0
  | s :: rest => len (TrimSpace s) + 1 + budget rest
  end.

Lemma budget_nonneg (sentences : list gostring) : 0 <= budget sentences.
Proof.
  induction sentences as [|s rest IH]; cbn [budget]; [lia|].
  pose proof (len_nonneg (TrimSpace s)). lia.
Qed.

(** While the budget holds, no chunk is flushed. *)
Lemma sentences_fit (maxSize : Z) (sentences : list gostring) :
  forall cur, len cur + budget sentences <= maxSize ->
    fst (fold_left (sentenceStep maxSize) sentences ([], cur)) = [].
Proof.
  induction sentences as [|s rest IH]; intros cur Hb; [reflexivity|].
  cbn [fold_left budget] in *.
  pose proof (budget_nonneg rest) as Hr. pose proof (len_nonneg cur) as Hc.
  assert (Hstep : exists cur', sentenceStep maxSize ([], cur) s = ([], cur')
                   /\ len cur' <= len cur + len (TrimSpace s) + 1).
  { unfold sentenceStep.
    destruct (TrimSpace s) as [|b t'] eqn:Etrim.
    { exists cur. split; [reflexivity|]. rewrite len_nil. lia. }
    set (t := b :: t') in *.
    builder_cases; try lia; eexists; (split; [reflexivity|]);
      rewrite ?len_app, ?len_space; lia. }
  destruct Hstep as [cur' [-> Hlen]]. apply IH. lia.
Qed.

Lemma len_TrimSpace_le (s : gostring) : len (TrimSpace s) <= len s.
Proof.
  destruct (TrimSpace_part s) as [a [b Hs]].
  rewrite Hs at 2. rewrite !len_app.
  pose proof (len_nonneg a). pose proof (len_nonneg b). lia.
Qed.

Lemma budget_pieces (pieces : list gostring) :
  budget pieces <= len (concat pieces) + Z.of_nat (length pieces).
Proof.
  induction pieces as [|p pieces IH]; cbn [budget concat length].
  - rewrite len_nil. lia.
  - rewrite len_app. pose proof (len_TrimSpace_le p). lia.
Qed.

Lemma budget_trimmed (pieces : list gostring) :
  budget (map TrimSpace pieces) = budget pieces.
Proof.
  induction pieces as [|p pieces IH]; cbn [budget map]; [reflexivity|].
  rewrite TrimSpace_idempotent, IH. reflexivity.
Qed.

End SmallTexts.

(** A text of white space gives no chunk; and a text without the marker
    that gives no chunk is of white space. *)
Theorem splitTextIntoChunks_none_iff_blank (text : gostring) (maxSize : Z) :
  (TrimSpace text = [] -> splitTextIntoChunks text maxSize = [])
  /\ (Contains text SEP = false -> splitTextIntoChunks text maxSize = [] ->
      TrimSpace text = []).
Proof.
  split; [apply blank_chunks|].
  intros Hc Hnone. apply blank_TrimSpace.
  rewrite <- (sentences_cover_text text Hc), <- (chunks_cover_sentences text maxSize).
  rewrite Hnone. reflexivity.
Qed.

(** A text that fits is not split: a text without the marker whose bytes,
    with one more for each terminator and one more, are at most [maxSize]
    gives one chunk at most. *)
Theorem splitTextIntoChunks_fitting_text (text : gostring) (maxSize : Z) :
  Contains text SEP = false ->
  len text + Z.of_nat (countTerminators text) + 1 <= maxSize ->
  (length (splitTextIntoChunks text maxSize) <= 1)%nat.
Proof.
  intros Hc Hfit. unfold splitTextIntoChunks.
  assert (Hb : budget (splitIntoSentences text) <= maxSize).
  { unfold splitIntoSentences, Split.
    rewrite replaced_insertAfter, (splitFrom_insertAfter text Hc).
    destruct (cutFrom text) as [p ps] eqn:Hcut.
    rewrite budget_trimmed.
    pose proof (budget_pieces (p :: ps)) as Hp.
    destruct (cutFrom_pieces text p ps Hcut) as [Ht _].
    pose proof (cutFrom_length text p ps Hcut) as Hl.
    cbn [concat length] in Hp. rewrite <- Ht, Hl in Hp. lia. }
  pose proof (sentences_fit maxSize (splitIntoSentences text) []) as Hno.
  rewrite len_nil in Hno. specialize (Hno ltac:(lia)).
  destruct (fold_left (sentenceStep maxSize) (splitIntoSentences text) ([], []))
    as [chunks cur]. cbn [fst] in Hno. subst chunks.
  destruct (len cur >? 0); simpl; lia.
Qed.

Lemma splitTextIntoChunks_fitting_text_witness :
  (length (splitTextIntoChunks (lit "Hello world. Hi.") 2800) <= 1)%nat.
Proof.
  apply splitTextIntoChunks_fitting_text; [reflexivity | vm_compute; discriminate].
Defined.

(** ** The bounded scheduler, [generateTTSAudioParallel]

    The function starts one goroutine per chunk, a goroutine that renders
    the progress bar, and waits for them.  Its executions are the
    interleavings of the steps of these goroutines on the shared state: the
    result slice, the four channels and the wait group.  A step is one
    statement of the source.  The request that [generateTTSAudio] makes is
    the environment: what it comes to is part of the schedule. *)

Module Scheduler.

Local Open Scope nat_scope.

(** The capacity of [semaphore], [make(chan struct{}, 5)]. *)
Definition concurrencyCap : nat := 5.

(** [%d] of [fmt.Sprintf], for a number that is not negative. *)
Definition decimal (n : nat) : gostring :=
  list_ascii_of_string (NilEmpty.string_of_uint (Nat.to_uint n)).

(** Where a goroutine of [generateTTSAudioParallel] stands. *)
Inductive pc : Type :=
| Queued      (* started; before [semaphore <- struct{}{}] *)
| Calling     (* holds a slot; the call of [generateTTSAudio] is in flight *)
| Returned    (* the call has returned, [err] is set *)
| Stored      (* [audioFiles[index] = chunkFile] done; before [progress <- 1] *)
| Finishing   (* the body is over; the deferred calls are pending *)
| Released    (* the deferred [<-semaphore] has run *)
| Exited.     (* the deferred [wg.Done()] has run *)

#[global] Instance pc_eq_dec : EqDecision pc.
Proof. solve_decision. Defined.

Section WithCollaborator.

(** The errors [generateTTSAudio] returns. *)
Variable E : Type.

Variables (voice tmpDir : gostring).

(** [filepath.Join], of two elements. *)
Variable filepathJoin : gostring -> gostring -> gostring.

(** The error of [generateTTSAudio] for an empty chunk,
    [&PodcastError{Stage: "audio generation", Message: "Empty text chunk"}]. *)
Variable emptyTextChunk : E.

(** [generateTTSAudio(textChunk, voice, outputFile)]: a chunk that holds
    white space only is refused before anything else; otherwise the result
    is that of the request and of writing the file, [rest], which the
    environment decides. *)
Definition generateTTSAudio (textChunk : gostring) (rest : option E) : option E :=
  if (len (TrimSpace textChunk) =? 0)%Z then Some emptyTextChunk else rest.

(** [filepath.Join(tmpDir, fmt.Sprintf("chunk_%d.mp3", index+1))]. *)
Definition chunkFile (index : nat) : gostring :=
  filepathJoin tmpDir (lit "chunk_" ++ decimal (index + 1) ++ lit ".mp3").

(** [fmt.Errorf("chunk %d: %w", index+1, err)]: the number of the chunk and
    the wrapped error. *)
Record chunkError : Type := ChunkError { chunkNo : nat; cause : E }.

(** A goroutine [go func(index int, text string) {...}(i, chunk)]: its two
    arguments, where it stands, and its local [err]. *)
Record goroutine : Type := Goroutine {
  g_index : nat;
  g_text : gostring;
  g_pc : pc;
  g_err : option E
}.

(** The arguments of the goroutine's call of [generateTTSAudio]. *)
Definition callOf (gr : goroutine) : gostring * gostring * gostring :=
  (g_text gr, voice, chunkFile (g_index gr)).

(** Where the function itself stands: in the [range] loop, about to start
    the goroutine of chunk [i] (with [i = len(chunks)]: at [wg.Wait()]);
    past [close(errors); close(progress)], at [<-progressDone]; returned. *)
Inductive mainpc : Type :=
| Dispatching (i : nat)
| Closed
| Finished (files : option (list gostring)) (err : option chunkError).

Record state : Type := State {
  main : mainpc;
  goroutines : list goroutine;
  semaphore : nat;                 (* the elements in the channel *)
  audioFiles : list gostring;
  errors : list chunkError;        (* the elements in the channel, oldest first *)
  progress : nat;                  (* the elements in the channel *)
  completed : nat;                 (* of the progress goroutine *)
  wg : nat                         (* the counter of the wait group *)
}.

Inductive event : Type :=
| Dispatch                           (* [wg.Add(1); go func(...)(i, chunk)] *)
| Acquire (g : nat)                  (* [semaphore <- struct{}{}], then the call *)
| CallReturn (g : nat) (rest : option E)   (* [err := generateTTSAudio(...)] *)
| SendError (g : nat)                (* [errors <- fmt.Errorf(...)]; [return] *)
| Store (g : nat)                    (* [audioFiles[index] = chunkFile] *)
| Signal (g : nat)                   (* [progress <- 1] *)
| Release (g : nat)                  (* deferred [<-semaphore] *)
| WgDone (g : nat)                   (* deferred [wg.Done()] *)
| ProgressRecv                       (* [for range progress]: [completed++] *)
| WaitReturns                        (* [wg.Wait()] returns; the two [close] *)
| Finish.                            (* [<-progressDone]; [range errors]; [return] *)

Section Run.

Variable chunks : list gostring.

(** [audioFiles := make([]string, len(chunks))] and the empty channels. *)
Definition init : state :=
  {| main := Dispatching 0;
     goroutines := [];
     semaphore := 0;
     audioFiles := replicate (length chunks) [];
     errors := [];
     progress := 0;
     completed := 0;
     wg := 0 |}.

Definition setGoroutines (st : state) (gs : list goroutine) : state :=
  {| main := main st; goroutines := gs; semaphore := semaphore st;
     audioFiles := audioFiles st; errors := errors st;
     progress := progress st; completed := completed st; wg := wg st |}.

(** Goroutine [g], standing at [from], moves to [to]. *)
Definition move (st : state) (g : nat) (from to : pc) : option state :=
  match goroutines st !! g with
  | Some gr =>
      if decide (g_pc gr = from)
      then Some (setGoroutines st
                   (<[g := Goroutine (g_index gr) (g_text gr) to (g_err gr)]>
                      (goroutines st)))
      else None
  | None => None
  end.

(** What the function returns once the channel [errors] is closed: the
    first error in it, or the slice. *)
Definition outcome (st : state) : mainpc :=
  match errors st with
  | e :: _ => Finished None (Some e)
  | [] => Finished (Some (audioFiles st)) None
  end.

(** One step.  A send on a full buffered channel and [wg.Wait()] on a
    counter that is not zero block: the step is not enabled.  The progress
    goroutine leaves its [range] loop, and sends on [progressDone], once
    [progress] is closed and empty: [Finish] waits for that. *)
Definition step (st : state) (ev : event) : option state :=
  match ev with
  | Dispatch =>
      match main st with
      | Dispatching i =>
          match chunks !! i with
          | Some chunk =>
              Some {| main := Dispatching (i + 1);
                      goroutines := goroutines st ++ [Goroutine i chunk Queued None];
                      semaphore := semaphore st;
                      audioFiles := audioFiles st; errors := errors st;
                      progress := progress st; completed := completed st;
                      wg := wg st + 1 |}
          | None => None
          end
      | _ => None
      end
  | Acquire g =>
      if decide (semaphore st < concurrencyCap) then
        st' ← move st g Queued Calling;
        Some {| main := main st'; goroutines := goroutines st';
                semaphore := semaphore st' + 1;
                audioFiles := audioFiles st'; errors := errors st';
                progress := progress st'; completed := completed st';
                wg := wg st' |}
      else None
  | CallReturn g rest =>
      match goroutines st !! g with
      | Some gr =>
          if decide (g_pc gr = Calling)
          then Some (setGoroutines st
                       (<[g := Goroutine (g_index gr) (g_text gr) Returned
                                 (generateTTSAudio (g_text gr) rest)]>
                          (goroutines st)))
          else None
      | None => None
      end
  | SendError g =>
      match goroutines st !! g with
      | Some gr =>
          match g_err gr with
          | Some e =>
              if decide (length (errors st) < length chunks) then
                st' ← move st g Returned Finishing;
                Some {| main := main st'; goroutines := goroutines st';
                        semaphore := semaphore st';
                        audioFiles := audioFiles st';
                        errors := errors st' ++ [ChunkError (g_index gr + 1) e];
                        progress := progress st'; completed := completed st';
                        wg := wg st' |}
              else None
          | None => None
          end
      | None => None
      end
  | Store g =>
      match goroutines st !! g with
      | Some gr =>
          match g_err gr with
          | None =>
              st' ← move st g Returned Stored;
              Some {| main := main st'; goroutines := goroutines st';
                      semaphore := semaphore st';
                      audioFiles :=
                        <[g_index gr := chunkFile (g_index gr)]> (audioFiles st');
                      errors := errors st';
                      progress := progress st'; completed := completed st';
                      wg := wg st' |}
          | Some _ => None
          end
      | None => None
      end
  | Signal g =>
      if decide (progress st < length chunks) then
        st' ← move st g Stored Finishing;
        Some {| main := main st'; goroutines := goroutines st';
                semaphore := semaphore st';
                audioFiles := audioFiles st'; errors := errors st';
                progress := progress st' + 1; completed := completed st';
                wg := wg st' |}
      else None
  | Release g =>
      st' ← move st g Finishing Released;
      Some {| main := main st'; goroutines := goroutines st';
              semaphore := semaphore st' - 1;
              audioFiles := audioFiles st'; errors := errors st';
              progress := progress st'; completed := completed st';
              wg := wg st' |}
  | WgDone g =>
      st' ← move st g Released Exited;
      Some {| main := main st'; goroutines := goroutines st';
              semaphore := semaphore st';
              audioFiles := audioFiles st'; errors := errors st';
              progress := progress st'; completed := completed st';
              wg := wg st' - 1 |}
  | ProgressRecv =>
      match progress st with
      | S n =>
          Some {| main := main st; goroutines := goroutines st;
                  semaphore := semaphore st;
                  audioFiles := audioFiles st; errors := errors st;
                  progress := n; completed := completed st + 1;
                  wg := wg st |}
      | O => None
      end
  | WaitReturns =>
      match main st with
      | Dispatching i =>
          if decide (i = length chunks /\ wg st = 0)
          then Some {| main := Closed; goroutines := goroutines st;
                       semaphore := semaphore st;
                       audioFiles := audioFiles st; errors := errors st;
                       progress := progress st; completed := completed st;
                       wg := wg st |}
          else None
      | _ => None
      end
  | Finish =>
      match main st with
      | Closed =>
          if decide (progress st = 0)
          then Some {| main := outcome st; goroutines := goroutines st;
                       semaphore := semaphore st;
                       audioFiles := audioFiles st; errors := errors st;
                       progress := progress st; completed := completed st;
                       wg := wg st |}
          else None
      | _ => None
      end
  end.

(** The state after the events of a schedule, when each is enabled in its
    turn. *)
Fixpoint exec (sched : list event) (st : state) : option state :=
  match sched with
  | [] => Some st
  | ev :: rest =>
      match step st ev with
      | Some st' => exec rest st'
      | None => None
      end
  end.

(** *** Counting goroutines *)

Definition holding (gr : goroutine) : bool :=
  match g_pc gr with
  | Calling | Returned | Stored | Finishing => true
  | _ => false
  end.

Definition inFlight (gr : goroutine) : bool :=
  match g_pc gr with Calling => true | _ => false end.

Definition live (gr : goroutine) : bool :=
  match g_pc gr with Exited => false | _ => true end.

(** The body of the goroutine is over. *)
Definition bodyDone (gr : goroutine) : bool :=
  match g_pc gr with
  | Finishing | Released | Exited => true
  | _ => false
  end.

Definition failed (gr : goroutine) : bool :=
  bodyDone gr && match g_err gr with Some _ => true | None => false end.

Definition succeeded (gr : goroutine) : bool :=
  bodyDone gr && match g_err gr with Some _ => false | None => true end.

Fixpoint count (P : goroutine -> bool) (gs : list goroutine) : nat :=
  match gs with
  | [] => 0
  | gr :: gs' => (if P gr then 1 else 0) + count P gs'
  end.

Lemma count_app (P : goroutine -> bool) (gs1 gs2 : list goroutine) :
  count P (gs1 ++ gs2) = count P gs1 + count P gs2.
Proof.
  induction gs1 as [|gr gs1 IH]; simpl; [reflexivity | rewrite IH; lia].
Qed.

Lemma count_le_length (P : goroutine -> bool) (gs : list goroutine) :
  count P gs <= length gs.
Proof.
  induction gs as [|gr gs IH]; simpl; [lia | destruct (P gr); lia].
Qed.

Lemma count_insert (P : goroutine -> bool) (gs : list goroutine) :
  forall g gr gr', gs !! g = Some gr ->
    count P (<[g := gr']> gs) + (if P gr then 1 else 0)
    = count P gs + (if P gr' then 1 else 0).
Proof.
  induction gs as [|x gs IH]; intros g gr gr' Hg; [discriminate|].
  destruct g as [|g]; simpl in *.
  - inversion Hg; subst. lia.
  - specialize (IH g gr gr' Hg). lia.
Qed.

Lemma count_pos (P : goroutine -> bool) (gs : list goroutine) :
  0 < count P gs -> exists g gr, gs !! g = Some gr /\ P gr = true.
Proof.
  induction gs as [|x gs IH]; simpl; [lia|].
  destruct (P x) eqn:HP.
  - intros _. exists 0, x. split; [reflexivity | exact HP].
  - intros H. destruct IH as [g [gr [Hg Hgr]]]; [lia|].
    exists (S g), gr. split; [exact Hg | exact Hgr].
Qed.

Lemma count_zero (P : goroutine -> bool) (gs : list goroutine) :
  count P gs = 0 -> forall g gr, gs !! g = Some gr -> P gr = false.
Proof.
  induction gs as [|x gs IH]; intros H g gr Hg; [discriminate|].
  simpl in H. destruct (P x) eqn:HP; [lia|].
  destruct g as [|g]; simpl in Hg.
  - inversion Hg; subst. exact HP.
  - eapply IH; eauto.
Qed.

Lemma lookup_insert_cases (gs : list goroutine) (g g' : nat) (gr' x : goroutine) :
  <[g := gr']> gs !! g' = Some x ->
  (g' = g /\ x = gr') \/ (g' <> g /\ gs !! g' = Some x).
Proof.
  rewrite list_lookup_insert. destruct (decide (g = g' /\ g < length gs)) as [[-> _]|Hn].
  - intros [= <-]. left. split; reflexivity.
  - intros Hx. destruct (decide (g' = g)) as [->|Hne]; [|right; split; assumption].
    exfalso. apply Hn. split; [reflexivity|]. eapply lookup_lt_Some; eauto.
Qed.

Lemma lookup_insert_same (gs : list goroutine) (g : nat) (gr gr' : goroutine) :
  gs !! g = Some gr -> <[g := gr']> gs !! g = Some gr'.
Proof.
  intros Hg. apply list_lookup_insert_eq. eapply lookup_lt_Some; eauto.
Qed.

(** *** The shape of each step *)

Lemma move_Some (st st' : state) (g : nat) (from to : pc) :
  move st g from to = Some st' ->
  exists gr, goroutines st !! g = Some gr /\ g_pc gr = from
    /\ st' = setGoroutines st
               (<[g := Goroutine (g_index gr) (g_text gr) to (g_err gr)]>
                  (goroutines st)).
Proof.
  unfold move. destruct (goroutines st !! g) as [gr|]; [|discriminate].
  destruct (decide (g_pc gr = from)); [|discriminate].
  intros [= <-]. exists gr. auto.
Qed.

(** A step of goroutine [g]: the goroutine before and after, and what the
    step does to the rest of the state. *)
Inductive gstep (st st' : state) (g : nat) (gr gr' : goroutine) : event -> Prop :=
| gstep_Acquire :
    g_pc gr = Queued -> g_pc gr' = Calling -> g_err gr' = g_err gr ->
    semaphore st < concurrencyCap -> semaphore st' = semaphore st + 1 ->
    audioFiles st' = audioFiles st -> errors st' = errors st ->
    progress st' = progress st -> wg st' = wg st ->
    gstep st st' g gr gr' (Acquire g)
| gstep_CallReturn rest :
    g_pc gr = Calling -> g_pc gr' = Returned ->
    g_err gr' = generateTTSAudio (g_text gr) rest ->
    semaphore st' = semaphore st ->
    audioFiles st' = audioFiles st -> errors st' = errors st ->
    progress st' = progress st -> wg st' = wg st ->
    gstep st st' g gr gr' (CallReturn g rest)
| gstep_SendError e :
    g_pc gr = Returned -> g_pc gr' = Finishing -> g_err gr' = g_err gr ->
    g_err gr = Some e -> length (errors st) < length chunks ->
    semaphore st' = semaphore st ->
    audioFiles st' = audioFiles st ->
    errors st' = errors st ++ [ChunkError (g_index gr + 1) e] ->
    progress st' = progress st -> wg st' = wg st ->
    gstep st st' g gr gr' (SendError g)
| gstep_Store :
    g_pc gr = Returned -> g_pc gr' = Stored -> g_err gr' = g_err gr ->
    g_err gr = None ->
    semaphore st' = semaphore st ->
    audioFiles st' = <[g_index gr := chunkFile (g_index gr)]> (audioFiles st) ->
    errors st' = errors st ->
    progress st' = progress st -> wg st' = wg st ->
    gstep st st' g gr gr' (Store g)
| gstep_Signal :
    g_pc gr = Stored -> g_pc gr' = Finishing -> g_err gr' = g_err gr ->
    progress st < length chunks ->
    semaphore st' = semaphore st ->
    audioFiles st' = audioFiles st -> errors st' = errors st ->
    progress st' = progress st + 1 -> wg st' = wg st ->
    gstep st st' g gr gr' (Signal g)
| gstep_Release :
    g_pc gr = Finishing -> g_pc gr' = Released -> g_err gr' = g_err gr ->
    semaphore st' = semaphore st - 1 ->
    audioFiles st' = audioFiles st -> errors st' = errors st ->
    progress st' = progress st -> wg st' = wg st ->
    gstep st st' g gr gr' (Release g)
| gstep_WgDone :
    g_pc gr = Released -> g_pc gr' = Exited -> g_err gr' = g_err gr ->
    semaphore st' = semaphore st ->
    audioFiles st' = audioFiles st -> errors st' = errors st ->
    progress st' = progress st -> wg st' = wg st - 1 ->
    gstep st st' g gr gr' (WgDone g).

(** The cases of a step: the loop starts a goroutine, a goroutine moves,
    or the progress goroutine or the function itself moves. *)
Inductive stepCase (st st' : state) : event -> Prop :=
| case_Dispatch i chunk :
    main st = Dispatching i -> chunks !! i = Some chunk ->
    st' = {| main := Dispatching (i + 1);
             goroutines := goroutines st ++ [Goroutine i chunk Queued None];
             semaphore := semaphore st;
             audioFiles := audioFiles st; errors := errors st;
             progress := progress st; completed := completed st;
             wg := wg st + 1 |} ->
    stepCase st st' Dispatch
| case_goroutine ev g gr gr' :
    goroutines st !! g = Some gr ->
    goroutines st' = <[g := gr']> (goroutines st) ->
    g_index gr' = g_index gr -> g_text gr' = g_text gr ->
    main st' = main st -> completed st' = completed st ->
    gstep st st' g gr gr' ev ->
    stepCase st st' ev
| case_ProgressRecv n :
    progress st = S n ->
    st' = {| main := main st; goroutines := goroutines st;
             semaphore := semaphore st;
             audioFiles := audioFiles st; errors := errors st;
             progress := n; completed := completed st + 1;
             wg := wg st |} ->
    stepCase st st' ProgressRecv
| case_WaitReturns :
    main st = Dispatching (length chunks) -> wg st = 0 ->
    st' = {| main := Closed; goroutines := goroutines st;
             semaphore := semaphore st;
             audioFiles := audioFiles st; errors := errors st;
             progress := progress st; completed := completed st;
             wg := wg st |} ->
    stepCase st st' WaitReturns
| case_Finish :
    main st = Closed -> progress st = 0 ->
    st' = {| main := outcome st; goroutines := goroutines st;
             semaphore := semaphore st;
             audioFiles := audioFiles st; errors := errors st;
             progress := progress st; completed := completed st;
             wg := wg st |} ->
    stepCase st st' Finish.

Ltac step_move H :=
  match type of H with
  | context [move ?st ?g ?from ?to] =>
      let st1 := fresh "st1" in
      let Hm := fresh "Hm" in
      destruct (move st g from to) as [st1|] eqn:Hm; [|discriminate H];
      apply move_Some in Hm;
      let gr := fresh "gr" in
      destruct Hm as [gr [? [? ->]]];
      simpl in H; injection H as <-
  end.

Lemma step_cases (st st' : state) (ev : event) :
  step st ev = Some st' -> stepCase st st' ev.
Proof.
  destruct ev as [|g|g err|g|g|g|g|g| | |]; simpl; intros H.
  - destruct (main st) as [i| |] eqn:Hmain; try discriminate.
    destruct (chunks !! i) as [chunk|] eqn:Hi; [|discriminate].
    injection H as <-. eapply case_Dispatch; eauto.
  - destruct (decide (semaphore st < concurrencyCap)); [|discriminate].
    step_move H.
    eapply case_goroutine; eauto; try reflexivity. constructor; auto.
  - destruct (goroutines st !! g) as [gr|] eqn:Hg; [|discriminate].
    destruct (decide (g_pc gr = Calling)); [|discriminate].
    injection H as <-.
    eapply case_goroutine; eauto; try reflexivity. constructor; auto.
  - destruct (goroutines st !! g) as [gr|] eqn:Hg; [|discriminate].
    destruct (g_err gr) as [e|] eqn:He; [|discriminate].
    destruct (decide (length (errors st) < length chunks)); [|discriminate].
    step_move H. assert (gr0 = gr) as -> by congruence.
    eapply case_goroutine; eauto; try reflexivity.
    eapply gstep_SendError; eauto.
  - destruct (goroutines st !! g) as [gr|] eqn:Hg; [|discriminate].
    destruct (g_err gr) as [e|] eqn:He; [discriminate|].
    step_move H. assert (gr0 = gr) as -> by congruence.
    eapply case_goroutine; eauto; try reflexivity.
    eapply gstep_Store; eauto.
  - destruct (decide (progress st < length chunks)); [|discriminate].
    step_move H.
    eapply case_goroutine; eauto; try reflexivity. constructor; auto.
  - step_move H.
    eapply case_goroutine; eauto; try reflexivity. constructor; auto.
  - step_move H.
    eapply case_goroutine; eauto; try reflexivity. constructor; auto.
  - destruct (progress st) as [|n] eqn:Hp; [discriminate|].
    injection H as <-. eapply case_ProgressRecv; eauto.
  - destruct (main st) as [i| |] eqn:Hmain; try discriminate.
    destruct (decide (i = length chunks /\ wg st = 0)) as [[-> Hwg]|]; [|discriminate].
    injection H as <-. eapply case_WaitReturns; eauto.
  - destruct (main st) as [i| |] eqn:Hmain; try discriminate.
    destruct (decide (progress st = 0)); [|discriminate].
    injection H as <-. eapply case_Finish; eauto.
Qed.

(** *** The invariant of the executions *)

(** The goroutines that report a failure, in the order of their sends on
    [errors]. *)
Fixpoint sends (sched : list event) : list nat :=
  match sched with
  | [] => []
  | SendError g :: rest => g :: sends rest
  | _ :: rest => sends rest
  end.

Lemma sends_app (s1 s2 : list event) : sends (s1 ++ s2) = sends s1 ++ sends s2.
Proof.
  induction s1 as [|ev s1 IH]; simpl; [reflexivity|].
  destruct ev; simpl; rewrite ?IH; reflexivity.
Qed.

(** The goroutines the loop has started. *)
Definition dispatched (m : mainpc) : nat :=
  match m with
  | Dispatching i => i
  | _ => length chunks
  end.

Definition waitOver (m : mainpc) : bool :=
  match m with
  | Dispatching _ => false
  | _ => true
  end.

Record Inv (sched : list event) (st : state) : Prop := {
  inv_dispatched : length (goroutines st) = dispatched (main st);
  inv_bound : dispatched (main st) <= length chunks;
  inv_args : forall g gr, goroutines st !! g = Some gr ->
      g_index gr = g /\ chunks !! g = Some (g_text gr);
  inv_sem : semaphore st = count holding (goroutines st);
  inv_cap : semaphore st <= concurrencyCap;
  inv_wg : wg st = count live (goroutines st);
  inv_files_len : length (audioFiles st) = length chunks;
  inv_files : forall g gr, goroutines st !! g = Some gr ->
      g_err gr = None -> g_pc gr = Stored \/ bodyDone gr = true ->
      audioFiles st !! g = Some (chunkFile g);
  inv_unset : forall g gr, goroutines st !! g = Some gr ->
      g_pc gr = Queued \/ g_pc gr = Calling \/ g_pc gr = Stored ->
      g_err gr = None;
  inv_errors_len : length (errors st) = count failed (goroutines st);
  inv_progress : progress st + completed st = count succeeded (goroutines st);
  inv_errors_in : forall e, In e (errors st) ->
      exists g gr, goroutines st !! g = Some gr /\ bodyDone gr = true
                   /\ chunkNo e = g + 1 /\ g_err gr = Some (cause e);
  inv_errors_all : forall g gr c, goroutines st !! g = Some gr ->
      bodyDone gr = true -> g_err gr = Some c ->
      In (ChunkError (g + 1) c) (errors st);
  inv_sends : map chunkNo (errors st) = map S (sends sched);
  inv_closed : waitOver (main st) = true -> count live (goroutines st) = 0;
  inv_finished : forall f e, main st = Finished f e ->
      Finished f e = outcome st /\ progress st = 0;
  inv_acquired : forall g gr, goroutines st !! g = Some gr ->
      g_pc gr <> Queued -> In (Acquire g) sched;
  inv_returned : forall g gr, goroutines st !! g = Some gr ->
      g_pc gr <> Queued -> g_pc gr <> Calling ->
      exists rest, In (CallReturn g rest) sched
                   /\ g_err gr = generateTTSAudio (g_text gr) rest;
  inv_trace : forall g rest, In (CallReturn g rest) sched ->
      exists gr, goroutines st !! g = Some gr
                 /\ g_err gr = generateTTSAudio (g_text gr) rest
                 /\ g_pc gr <> Queued /\ g_pc gr <> Calling
}.

Lemma Inv_init : Inv [] init.
Proof.
  constructor; simpl; try (intros; discriminate); try (intros; contradiction);
    try reflexivity; try lia.
  apply length_replicate.
Qed.


Lemma in_snoc (A : Type) (x y : A) (l : list A) : In x l -> In x (l ++ [y]).
Proof. intros H. apply in_or_app. left. exact H. Qed.

Lemma in_snoc_inv (A : Type) (x y : A) (l : list A) :
  In x (l ++ [y]) -> In x l \/ y = x.
Proof.
  intros H. apply in_app_or in H. destruct H as [H | [H | []]]; auto.
Qed.

Lemma returned_snoc (sched : list event) (ev : event) (g : nat)
    (P : option E -> Prop) :
  (exists rest, In (CallReturn g rest) sched /\ P rest) ->
  exists rest, In (CallReturn g rest) (sched ++ [ev]) /\ P rest.
Proof.
  intros [rest [Hin HP]]. exists rest. split; [apply in_snoc; exact Hin | exact HP].
Qed.

Lemma lookup_snoc_old (gs : list goroutine) (x gr : goroutine) (g : nat) :
  gs !! g = Some gr -> (gs ++ [x]) !! g = Some gr.
Proof.
  intros H. rewrite lookup_app_l; [exact H | eapply lookup_lt_Some; eauto].
Qed.

Ltac snoc_lookup H :=
  apply lookup_snoc_Some in H; destruct H as [[_ H] | [-> <-]].

Lemma Inv_Dispatch (sched : list event) (st st' : state) :
  Inv sched st -> stepCase st st' Dispatch -> Inv (sched ++ [Dispatch]) st'.
Proof.
  intros HI Hc. inversion Hc as [i chunk Hmain Hi Hst' | | | |]; subst; clear Hc.
  2: { match goal with H : gstep _ _ _ _ _ Dispatch |- _ => inversion H end. }
  destruct HI. rewrite Hmain in *. simpl in *.
  pose proof (lookup_lt_Some _ _ _ Hi) as Hlt.
  constructor; simpl; rewrite ?count_app, ?sends_app, ?app_nil_r; simpl;
    try lia; auto.
  - rewrite length_app. simpl. lia.
  - intros g gr Hg. snoc_lookup Hg; [eauto|]. simpl.
    split; [symmetry; assumption | rewrite inv_dispatched0; exact Hi].
  - intros g gr Hg He Hpc. snoc_lookup Hg; [eauto|].
    simpl in Hpc. destruct Hpc; discriminate.
  - intros g gr Hg Hpc. snoc_lookup Hg; [eauto | reflexivity].
  - intros e He. destruct (inv_errors_in0 e He) as [g [gr [Hg Hrest]]].
    exists g, gr. split; [apply lookup_snoc_old; exact Hg | exact Hrest].
  - intros g gr c Hg Hd He. snoc_lookup Hg; [eauto | discriminate].
  - intros f e Hf. discriminate.
  - intros g gr Hg Hpc. snoc_lookup Hg; [apply in_snoc; eauto|].
    simpl in Hpc. congruence.
  - intros g gr Hg Hpc Hpc'. snoc_lookup Hg; [apply returned_snoc; eauto|].
    simpl in Hpc. congruence.
  - intros g o Hin. apply in_snoc_inv in Hin. destruct Hin as [Hin | Hin]; [|discriminate].
    destruct (inv_trace0 g o Hin) as [gr [Hg Hrest]].
    exists gr. split; [apply lookup_snoc_old; exact Hg | exact Hrest].
Qed.

(** The steps of the progress goroutine and of the function past the
    loop leave the goroutines as they are. *)
Lemma Inv_other (sched : list event) (st st' : state) (ev : event) :
  Inv sched st -> stepCase st st' ev ->
  ev = ProgressRecv \/ ev = WaitReturns \/ ev = Finish ->
  Inv (sched ++ [ev]) st'.
Proof.
  intros HI Hc Hev.
  inversion Hc as [ | ev0 g gr gr' Hg Hgs Hidx Htxt Hm Hcomp Hgstep
                   | n Hp Hst' | Hmain Hwg Hst' | Hmain Hp Hst']; subst; clear Hc.
  - destruct Hev as [|[|]]; discriminate.
  - destruct Hev as [|[|]]; subst; inversion Hgstep.
  - destruct HI. rewrite Hp in *.
    constructor; simpl; rewrite ?sends_app, ?app_nil_r; auto; try lia.
    + intros f e Hf. destruct (inv_finished0 f e Hf). discriminate.
    + intros g gr Hg Hpc. apply in_snoc. eauto.
    + intros g gr Hg Hpc Hpc'. apply returned_snoc. eauto.
    + intros g o Hin. apply in_snoc_inv in Hin.
      destruct Hin as [Hin | Hin]; [eauto | discriminate].
  - destruct HI. rewrite Hmain in *. simpl in *.
    constructor; simpl; rewrite ?sends_app, ?app_nil_r; auto; try lia.
    + intros f e Hf. discriminate.
    + intros g gr Hg Hpc. apply in_snoc. eauto.
    + intros g gr Hg Hpc Hpc'. apply returned_snoc. eauto.
    + intros g o Hin. apply in_snoc_inv in Hin.
      destruct Hin as [Hin | Hin]; [eauto | discriminate].
  - destruct HI. rewrite Hmain in *. simpl in *.
    assert (Hd : dispatched (outcome st) = length chunks).
    { unfold outcome. destruct (errors st); reflexivity. }
    assert (Hw : waitOver (outcome st) = true).
    { unfold outcome. destruct (errors st); reflexivity. }
    constructor; simpl; rewrite ?sends_app, ?app_nil_r, ?Hd; auto; try lia.
    + intros g gr Hg Hpc. apply in_snoc. eauto.
    + intros g gr Hg Hpc Hpc'. apply returned_snoc. eauto.
    + intros g o Hin. apply in_snoc_inv in Hin.
      destruct Hin as [Hin | Hin]; [eauto | discriminate].
Qed.

Ltac inv_gstep H :=
  inversion H as
    [ Hpc Hpc' Herr Hsemlt Hsem Hfiles Herrs Hprog Hwg
    | rest Hpc Hpc' Herr Hsem Hfiles Herrs Hprog Hwg
    | e0 Hpc Hpc' Herr Hsome Hcap Hsem Hfiles Herrs Hprog Hwg
    | Hpc Hpc' Herr Hnone Hsem Hfiles Herrs Hprog Hwg
    | Hpc Hpc' Herr Hcap Hsem Hfiles Herrs Hprog Hwg
    | Hpc Hpc' Herr Hsem Hfiles Herrs Hprog Hwg
    | Hpc Hpc' Herr Hsem Hfiles Herrs Hprog Hwg ];
  repeat match goal with
    | Heq : _ = ?v |- _ =>
        is_var v; lazymatch type of v with event => subst v end
    end.

Ltac unfold_counts :=
  unfold holding, live, failed, succeeded, bodyDone in *.

(** A goroutine that takes a step has not exited. *)
Lemma gstep_live (st st' : state) (g : nat) (gr gr' : goroutine) (ev : event) :
  gstep st st' g gr gr' ev -> live gr = true.
Proof.
  intros H. inv_gstep H; unfold live; rewrite Hpc; reflexivity.
Qed.

Lemma Inv_goroutine (sched : list event) (st st' : state) (ev : event)
    (g : nat) (gr gr' : goroutine) :
  Inv sched st ->
  goroutines st !! g = Some gr ->
  goroutines st' = <[g := gr']> (goroutines st) ->
  g_index gr' = g_index gr -> g_text gr' = g_text gr ->
  main st' = main st -> completed st' = completed st ->
  gstep st st' g gr gr' ev ->
  Inv (sched ++ [ev]) st'.
Proof.
  intros HI Hg Hgs Hidx Htxt Hm Hcomp Hstep. destruct HI.
  pose proof (count_insert holding _ _ _ gr' Hg) as Hholding.
  pose proof (count_insert live _ _ _ gr' Hg) as Hlive.
  pose proof (count_insert failed _ _ _ gr' Hg) as Hfailed.
  pose proof (count_insert succeeded _ _ _ gr' Hg) as Hsucceeded.
  rewrite <- Hgs in Hholding, Hlive, Hfailed, Hsucceeded.
  destruct (inv_args0 g gr Hg) as [Hgi Hgc].
  pose proof (lookup_lt_Some _ _ _ Hgc) as Hglt.
  pose proof (gstep_live _ _ _ _ _ _ Hstep) as Hgrlive.
  assert (Hopen : waitOver (main st) = false).
  { destruct (waitOver (main st)) eqn:Hw; [|reflexivity].
    rewrite (count_zero live _ (inv_closed0 eq_refl) g gr Hg) in Hgrlive.
    discriminate. }
  assert (Hnew : goroutines st' !! g = Some gr').
  { rewrite Hgs. eapply lookup_insert_same; eauto. }
  assert (Hold : forall g0 x, g0 <> g -> goroutines st !! g0 = Some x ->
                               goroutines st' !! g0 = Some x).
  { intros g0 x Hne Hx. rewrite Hgs, list_lookup_insert_ne; auto. }
  constructor; rewrite ?Hm.
  - rewrite Hgs, length_insert. exact inv_dispatched0.
  - exact inv_bound0.
  - intros g0 gr0 H0. rewrite Hgs in H0.
    apply lookup_insert_cases in H0. destruct H0 as [[-> ->] | [Hne H0]]; [|eauto].
    rewrite Hidx, Htxt. auto.
  - inv_gstep Hstep; unfold_counts; rewrite Hpc, Hpc' in *; lia.
  - inv_gstep Hstep; lia.
  - inv_gstep Hstep; unfold_counts; rewrite Hpc, Hpc' in *; lia.
  - inv_gstep Hstep; rewrite ?Hfiles, ?length_insert; exact inv_files_len0.
  - (* inv_files *)
    intros g0 gr0 H0 He0 Hpc0. rewrite Hgs in H0.
    apply lookup_insert_cases in H0. destruct H0 as [[-> ->] | [Hne H0]].
    + inv_gstep Hstep; unfold_counts; rewrite Hpc' in Hpc0;
        try (destruct Hpc0; discriminate); try congruence.
      * rewrite Hfiles, Hgi. apply list_lookup_insert_eq. lia.
      * rewrite Hfiles. apply (inv_files0 g gr Hg); [congruence | left; exact Hpc].
      * rewrite Hfiles. apply (inv_files0 g gr Hg); [congruence|].
        right. unfold bodyDone. rewrite Hpc. reflexivity.
      * rewrite Hfiles. apply (inv_files0 g gr Hg); [congruence|].
        right. unfold bodyDone. rewrite Hpc. reflexivity.
    + pose proof (inv_files0 g0 gr0 H0 He0 Hpc0) as Hf.
      inv_gstep Hstep; rewrite Hfiles; try exact Hf.
      rewrite list_lookup_insert_ne; [exact Hf | congruence].
  - (* inv_unset *)
    intros g0 gr0 H0 Hpc0. rewrite Hgs in H0.
    apply lookup_insert_cases in H0. destruct H0 as [[-> ->] | [Hne H0]]; [|eauto].
    inv_gstep Hstep; rewrite Hpc' in Hpc0;
      try (destruct Hpc0 as [|[|]]; discriminate).
    + rewrite Herr. apply (inv_unset0 g gr Hg). left. exact Hpc.
    + congruence.
  - (* inv_errors_len *)
    assert (Hs : g_pc gr = Stored -> g_err gr = None).
    { intros Hst. apply (inv_unset0 g gr Hg). right. right. exact Hst. }
    inv_gstep Hstep; unfold_counts; rewrite Hpc, Hpc' in *; rewrite Herrs;
      rewrite ?length_app; simpl in *;
      try rewrite Herr in *; try rewrite Hsome in *; try rewrite (Hs eq_refl) in *;
      simpl in *; try lia; destruct (g_err gr); lia.
  - (* inv_progress *)
    assert (Hs : g_pc gr = Stored -> g_err gr = None).
    { intros Hst. apply (inv_unset0 g gr Hg). right. right. exact Hst. }
    rewrite Hcomp.
    inv_gstep Hstep; unfold_counts; rewrite Hpc, Hpc' in *; rewrite Hprog;
      simpl in *;
      try rewrite Herr in *; try rewrite Hsome in *; try rewrite (Hs eq_refl) in *;
      simpl in *; try lia; destruct (g_err gr); lia.
  - (* inv_errors_in *)
    assert (Hkeep : forall e, In e (errors st) ->
      exists g0 gr0, goroutines st' !! g0 = Some gr0 /\ bodyDone gr0 = true
                     /\ chunkNo e = g0 + 1 /\ g_err gr0 = Some (cause e)).
    { intros e He. destruct (inv_errors_in0 e He) as [g0 [gr0 [H0 [Hd0 [Hn0 Hc0]]]]].
      destruct (decide (g0 = g)) as [->|Hne].
      - assert (gr0 = gr) as -> by congruence.
        exists g, gr'. split; [exact Hnew|].
        inv_gstep Hstep; unfold bodyDone in *; rewrite Hpc in Hd0; try discriminate;
          rewrite Hpc', Herr; auto.
      - exists g0, gr0. auto. }
    intros e He. inv_gstep Hstep; rewrite Herrs in He; try (apply Hkeep; exact He).
    apply in_snoc_inv in He. destruct He as [He | <-]; [apply Hkeep; exact He|].
    exists g, gr'. split; [exact Hnew|]. unfold bodyDone. rewrite Hpc'. simpl.
    split; [reflexivity|]. split; [lia | congruence].
  - (* inv_errors_all *)
    assert (Hsub : forall e, In e (errors st) -> In e (errors st')).
    { intros e He. inv_gstep Hstep; rewrite Herrs; auto. apply in_snoc. exact He. }
    intros g0 gr0 c H0 Hd0 Hc0. rewrite Hgs in H0.
    apply lookup_insert_cases in H0. destruct H0 as [[-> ->] | [Hne H0]];
      [|apply Hsub; eauto].
    inv_gstep Hstep; unfold bodyDone in Hd0; rewrite Hpc' in Hd0; try discriminate.
    + rewrite Herrs. apply in_or_app. right. left. f_equal; congruence.
    + rewrite (inv_unset0 g gr Hg) in Herr by auto. congruence.
    + apply Hsub. apply (inv_errors_all0 g gr c Hg); [|congruence].
      unfold bodyDone. rewrite Hpc. reflexivity.
    + apply Hsub. apply (inv_errors_all0 g gr c Hg); [|congruence].
      unfold bodyDone. rewrite Hpc. reflexivity.
  - (* inv_sends *)
    rewrite sends_app.
    inv_gstep Hstep; rewrite Herrs; simpl; rewrite ?app_nil_r; try exact inv_sends0.
    rewrite !map_app, inv_sends0. simpl. rewrite Nat.add_1_r, Hgi. reflexivity.
  - rewrite Hopen. discriminate.
  - intros f e Hf. rewrite Hf in Hopen. discriminate.
  - (* inv_acquired *)
    intros g0 gr0 H0 Hpc0. rewrite Hgs in H0.
    apply lookup_insert_cases in H0. destruct H0 as [[-> ->] | [Hne H0]];
      [|apply in_snoc; eauto].
    inv_gstep Hstep;
      try (apply in_snoc; apply (inv_acquired0 g gr Hg); congruence).
    apply in_or_app. right. left. reflexivity.
  - (* inv_returned *)
    intros g0 gr0 H0 Hpc0 Hpc1. rewrite Hgs in H0.
    apply lookup_insert_cases in H0. destruct H0 as [[-> ->] | [Hne H0]];
      [|apply returned_snoc; eauto].
    inv_gstep Hstep; try congruence;
      try (apply returned_snoc; rewrite Herr, Htxt;
           apply (inv_returned0 g gr Hg); congruence).
    exists rest. split; [|rewrite Herr, Htxt; reflexivity].
    apply in_or_app. right. left. reflexivity.
  - (* inv_trace *)
    assert (Hkeep : forall g0 o, In (CallReturn g0 o) sched ->
      exists gr0, goroutines st' !! g0 = Some gr0
                  /\ g_err gr0 = generateTTSAudio (g_text gr0) o
                  /\ g_pc gr0 <> Queued /\ g_pc gr0 <> Calling).
    { intros g0 o Hin. destruct (inv_trace0 g0 o Hin) as [gr0 [H0 [He0 [Hq Hc]]]].
      destruct (decide (g0 = g)) as [->|Hne]; [|exists gr0; auto].
      assert (gr0 = gr) as -> by congruence.
      exists gr'. split; [exact Hnew|].
      inv_gstep Hstep; try congruence; rewrite Hpc', Herr, Htxt;
        repeat split; congruence. }
    intros g0 o Hin. apply in_snoc_inv in Hin. destruct Hin as [Hin | Hev]; [eauto|].
    inv_gstep Hstep; try discriminate.
    match goal with
    | Heq : CallReturn _ _ = CallReturn _ _ |- _ => injection Heq as <- <-
    end.
    exists gr'. rewrite Hpc', Herr, Htxt. repeat split; auto; discriminate.
Qed.

Lemma Inv_step (sched : list event) (st st' : state) (ev : event) :
  Inv sched st -> step st ev = Some st' -> Inv (sched ++ [ev]) st'.
Proof.
  intros HI Hstep. pose proof (step_cases _ _ _ Hstep) as Hc.
  destruct ev; try (eapply Inv_other; eauto; fail);
    try (eapply Inv_Dispatch; eauto; fail);
    inversion Hc; subst; eapply Inv_goroutine; eauto.
Qed.

Lemma exec_app (s1 s2 : list event) (st : state) :
  exec (s1 ++ s2) st
  = match exec s1 st with Some st' => exec s2 st' | None => None end.
Proof.
  revert st. induction s1 as [|ev s1 IH]; intros st; simpl; [reflexivity|].
  destruct (step st ev); [apply IH | reflexivity].
Qed.

Lemma Inv_exec (sched : list event) :
  forall sched0 st st', Inv sched0 st -> exec sched st = Some st' ->
    Inv (sched0 ++ sched) st'.
Proof.
  induction sched as [|ev sched IH]; intros sched0 st st' HI Hex; simpl in Hex.
  - injection Hex as <-. rewrite app_nil_r. exact HI.
  - destruct (step st ev) as [st1|] eqn:Hstep; [|discriminate].
    replace (sched0 ++ ev :: sched) with ((sched0 ++ [ev]) ++ sched)
      by (rewrite <- app_assoc; reflexivity).
    eapply IH; [eapply Inv_step; eauto | exact Hex].
Qed.

(** Every state of an execution satisfies the invariant. *)
Lemma Inv_reachable (sched : list event) (st : state) :
  exec sched init = Some st -> Inv sched st.
Proof.
  intros H. apply (Inv_exec sched [] init st Inv_init H).
Qed.


(** *** Every execution can go on until the function returns *)

Lemma count_lt_length (P : goroutine -> bool) (gs : list goroutine)
    (g : nat) (gr : goroutine) :
  gs !! g = Some gr -> P gr = false -> count P gs < length gs.
Proof.
  revert g. induction gs as [|x gs IH]; intros g Hg HP; [discriminate|].
  destruct g as [|g]; simpl in *.
  - inversion Hg; subst. rewrite HP. pose proof (count_le_length P gs). lia.
  - specialize (IH g Hg HP). destruct (P x); lia.
Qed.

Lemma count_le (P Q : goroutine -> bool) (gs : list goroutine) :
  (forall gr, P gr = true -> Q gr = true) -> count P gs <= count Q gs.
Proof.
  intros HPQ. induction gs as [|x gs IH]; simpl; [lia|].
  destruct (P x) eqn:HP; [rewrite (HPQ x HP)|]; destruct (Q x); lia.
Qed.

Lemma move_enabled (st : state) (g : nat) (gr : goroutine) (from to : pc) :
  goroutines st !! g = Some gr -> g_pc gr = from ->
  move st g from to
  = Some (setGoroutines st
            (<[g := Goroutine (g_index gr) (g_text gr) to (g_err gr)]>
               (goroutines st))).
Proof.
  intros Hg Hpc. unfold move. rewrite Hg.
  destruct (decide (g_pc gr = from)); [reflexivity | contradiction].
Qed.

Definition returned (st : state) : Prop :=
  exists files err, main st = Finished files err.

Section Progress.

(** What the calls still in flight return. *)
Variable ret : nat -> option E.

Definition follows (ev : event) : Prop :=
  forall g o, ev = CallReturn g o -> o = ret g.

(** A goroutine that holds a slot can take its next step: no send on
    [errors] or [progress] finds the buffer full. *)
Lemma holding_enabled (sched : list event) (st : state) (g : nat) (gr : goroutine) :
  Inv sched st -> goroutines st !! g = Some gr -> holding gr = true ->
  exists ev st', step st ev = Some st' /\ follows ev.
Proof.
  intros HI Hg Hh. destruct HI.
  pose proof (lookup_lt_Some _ _ _ Hg) as Hlt.
  assert (Hn : length (goroutines st) <= length chunks) by lia.
  unfold holding in Hh. destruct (g_pc gr) eqn:Hpc; try discriminate.
  - exists (CallReturn g (ret g)). simpl. rewrite Hg.
    destruct (decide (g_pc gr = Calling)); [|contradiction].
    eexists. split; [reflexivity|]. intros g0 o Hev. injection Hev as <- <-. reflexivity.
  - assert (Hnd : bodyDone gr = false) by (unfold bodyDone; rewrite Hpc; reflexivity).
    destruct (g_err gr) as [e|] eqn:He.
    + exists (SendError g). simpl. rewrite Hg, He.
      assert (Hf : failed gr = false) by (unfold failed; rewrite Hnd; reflexivity).
      pose proof (count_lt_length failed _ _ _ Hg Hf).
      destruct (decide (length (errors st) < length chunks)); [|lia].
      rewrite (move_enabled st g gr Returned Finishing Hg Hpc). simpl.
      eexists. split; [reflexivity|]. intros g0 o Hev. discriminate.
    + exists (Store g). simpl. rewrite Hg, He.
      rewrite (move_enabled st g gr Returned Stored Hg Hpc). simpl.
      eexists. split; [reflexivity|]. intros g0 o Hev. discriminate.
  - assert (Hnd : bodyDone gr = false) by (unfold bodyDone; rewrite Hpc; reflexivity).
    assert (Hf : succeeded gr = false) by (unfold succeeded; rewrite Hnd; reflexivity).
    pose proof (count_lt_length succeeded _ _ _ Hg Hf).
    exists (Signal g). simpl.
    destruct (decide (progress st < length chunks)); [|lia].
    rewrite (move_enabled st g gr Stored Finishing Hg Hpc). simpl.
    eexists. split; [reflexivity|]. intros g0 o Hev. discriminate.
  - exists (Release g). simpl.
    rewrite (move_enabled st g gr Finishing Released Hg Hpc). simpl.
    eexists. split; [reflexivity|]. intros g0 o Hev. discriminate.
Qed.

(** No deadlock: in a state of an execution where the function has not
    returned, some step is enabled. *)
Lemma step_enabled (sched : list event) (st : state) :
  Inv sched st -> ~ returned st ->
  exists ev st', step st ev = Some st' /\ follows ev.
Proof.
  intros HI Hnr. pose proof HI as HI'. destruct HI'.
  destruct (main st) as [i| |files err] eqn:Hmain.
  - simpl in *. destruct (decide (i < length chunks)) as [Hlt|Hge].
    + destruct (lookup_lt_is_Some_2 chunks i Hlt) as [chunk Hi].
      exists Dispatch. simpl. rewrite Hmain, Hi.
      eexists. split; [reflexivity|]. intros g0 o Hev. discriminate.
    + assert (i = length chunks) as -> by lia.
      destruct (decide (wg st = 0)) as [Hwg|Hwg].
      * exists WaitReturns. simpl. rewrite Hmain.
        destruct (decide (length chunks = length chunks /\ wg st = 0)) as [_|Hn];
          [|exfalso; apply Hn; auto].
        eexists. split; [reflexivity|]. intros g0 o Hev. discriminate.
      * destruct (count_pos live (goroutines st)) as [g [gr [Hg Hl]]]; [lia|].
        destruct (holding gr) eqn:Hh; [eapply holding_enabled; eauto|].
        unfold holding in Hh. unfold live in Hl.
        destruct (g_pc gr) eqn:Hpc; try discriminate.
        -- destruct (decide (semaphore st < concurrencyCap)) as [Hs|Hs].
           ++ exists (Acquire g). simpl.
              destruct (decide (semaphore st < concurrencyCap)); [|contradiction].
              rewrite (move_enabled st g gr Queued Calling Hg Hpc). simpl.
              eexists. split; [reflexivity|]. intros g0 o Hev. discriminate.
           ++ destruct (count_pos holding (goroutines st)) as [g' [gr' [Hg' Hh']]].
              { unfold concurrencyCap in *. lia. }
              eapply holding_enabled; eauto.
        -- exists (WgDone g). simpl.
           rewrite (move_enabled st g gr Released Exited Hg Hpc). simpl.
           eexists. split; [reflexivity|]. intros g0 o Hev. discriminate.
  - destruct (progress st) as [|n] eqn:Hp.
    + exists Finish. simpl. rewrite Hmain, Hp.
      eexists. split; [reflexivity|]. intros g0 o Hev. discriminate.
    + exists ProgressRecv. simpl. rewrite Hp.
      eexists. split; [reflexivity|]. intros g0 o Hev. discriminate.
  - exfalso. apply Hnr. exists files, err. exact Hmain.
Qed.

End Progress.

(** *** Every execution is finite *)

Definition pcWeight (p : pc) : nat :=
  match p with
  | Queued => 7
  | Calling => 6
  | Returned => 5
  | Stored => 4
  | Finishing => 2
  | Released => 1
  | Exited => 0
  end.

Fixpoint weight (gs : list goroutine) : nat :=
  match gs with
  | [] => 0
  | gr :: gs' => pcWeight (g_pc gr) + weight gs'
  end.

Definition mainWeight (m : mainpc) : nat :=
  match m with
  | Dispatching i => 8 * (length chunks - i) + 2
  | Closed => 1
  | Finished _ _ => 0
  end.

(** A bound on the number of steps left. *)
Definition measure (st : state) : nat :=
  mainWeight (main st) + weight (goroutines st) + progress st.

Lemma weight_app (gs1 gs2 : list goroutine) :
  weight (gs1 ++ gs2) = weight gs1 + weight gs2.
Proof.
  induction gs1 as [|gr gs1 IH]; simpl; [reflexivity | rewrite IH; lia].
Qed.

Lemma weight_insert (gs : list goroutine) :
  forall g gr gr', gs !! g = Some gr ->
    weight (<[g := gr']> gs) + pcWeight (g_pc gr)
    = weight gs + pcWeight (g_pc gr').
Proof.
  induction gs as [|x gs IH]; intros g gr gr' Hg; [discriminate|].
  destruct g as [|g]; simpl in *.
  - inversion Hg; subst. lia.
  - specialize (IH g gr gr' Hg). lia.
Qed.

Lemma step_measure (st st' : state) (ev : event) :
  step st ev = Some st' -> measure st' < measure st.
Proof.
  intros Hstep. apply step_cases in Hstep.
  destruct Hstep as [i chunk Hmain Hi -> | ev g gr gr' Hg Hgs _ _ Hm _ Hstep
                    | n Hp -> | Hmain Hwg -> | Hmain Hp ->];
    unfold measure; simpl.
  - rewrite Hmain, weight_app. simpl.
    pose proof (lookup_lt_Some _ _ _ Hi). lia.
  - pose proof (weight_insert _ _ _ gr' Hg) as Hw. rewrite <- Hgs in Hw.
    rewrite Hm. inv_gstep Hstep; rewrite Hpc, Hpc' in Hw; simpl in Hw; lia.
  - rewrite Hp. lia.
  - rewrite Hmain. simpl. lia.
  - rewrite Hmain. unfold outcome. destruct (errors st); simpl; lia.
Qed.

(** An execution from [st] has at most [measure st] steps. *)
Lemma exec_bounded (sched : list event) :
  forall st st', exec sched st = Some st' ->
    length sched + measure st' <= measure st.
Proof.
  induction sched as [|ev sched IH]; intros st st' Hex; simpl in *.
  - injection Hex as <-. lia.
  - destruct (step st ev) as [st1|] eqn:Hstep; [|discriminate].
    pose proof (step_measure _ _ _ Hstep). specialize (IH _ _ Hex). lia.
Qed.

Lemma returned_dec (st : state) : {returned st} + {~ returned st}.
Proof.
  unfold returned. destruct (main st) as [i| |files err].
  - right. intros [f [e H]]. discriminate.
  - right. intros [f [e H]]. discriminate.
  - left. eauto.
Qed.

(** From every state of an execution the function can be run until it
    returns, whatever the calls in flight return. *)
Lemma can_return (ret : nat -> option E) (n : nat) :
  forall sched st, measure st <= n -> Inv sched st ->
    exists rest st', exec rest st = Some st' /\ returned st'
                     /\ Forall (follows ret) rest.
Proof.
  induction n as [|n IH]; intros sched st Hn HI.
  - destruct (returned_dec st) as [Hr|Hr].
    + exists [], st. split; [reflexivity | split; [exact Hr | constructor]].
    + destruct (step_enabled ret sched st HI Hr) as [ev [st1 [Hstep _]]].
      pose proof (step_measure _ _ _ Hstep). lia.
  - destruct (returned_dec st) as [Hr|Hr].
    + exists [], st. split; [reflexivity | split; [exact Hr | constructor]].
    + destruct (step_enabled ret sched st HI Hr) as [ev [st1 [Hstep Hev]]].
      pose proof (step_measure _ _ _ Hstep) as Hlt.
      destruct (IH (sched ++ [ev]) st1) as [rest [st' [Hex [Hret Hf]]]];
        [lia | eapply Inv_step; eauto |].
      exists (ev :: rest), st'. simpl. rewrite Hstep.
      split; [exact Hex | split; [exact Hret | constructor; assumption]].
Qed.

(** A state in which the function has returned is final. *)
Lemma returned_final (sched : list event) (st : state) (ev : event) :
  Inv sched st -> returned st -> step st ev = None.
Proof.
  intros HI [files [err Hmain]].
  destruct (step st ev) as [st'|] eqn:Hstep; [exfalso | reflexivity].
  destruct HI. rewrite Hmain in *. simpl in *.
  destruct (inv_finished0 files err eq_refl) as [_ Hp].
  apply step_cases in Hstep.
  destruct Hstep as [i chunk Hm Hi _ | ev g gr gr' Hg _ _ _ _ _ Hstep
                    | n Hp' _ | Hm _ _ | Hm _ _]; try congruence.
  pose proof (gstep_live _ _ _ _ _ _ Hstep) as Hl.
  rewrite (count_zero live _ (inv_closed0 eq_refl) g gr Hg) in Hl. discriminate.
Qed.

(** *** What the function returns *)

(** Once [wg.Wait()] has returned, every chunk has its goroutine, and the
    goroutine has exited. *)
Lemma all_exited (sched : list event) (st : state) :
  Inv sched st -> waitOver (main st) = true ->
  forall i chunk, chunks !! i = Some chunk ->
    exists gr, goroutines st !! i = Some gr /\ g_pc gr = Exited
               /\ callOf gr = (chunk, voice, chunkFile i).
Proof.
  intros HI Hw i chunk Hi. destruct HI.
  assert (Hlen : length (goroutines st) = length chunks).
  { rewrite inv_dispatched0. destruct (main st); [discriminate | reflexivity..]. }
  pose proof (lookup_lt_Some _ _ _ Hi) as Hlt.
  destruct (lookup_lt_is_Some_2 (goroutines st) i) as [gr Hg]; [lia|].
  exists gr. split; [exact Hg|].
  destruct (inv_args0 i gr Hg) as [Hidx Htxt].
  pose proof (count_zero live _ (inv_closed0 Hw) i gr Hg) as Hl.
  split.
  - unfold live in Hl. destruct (g_pc gr); try discriminate. reflexivity.
  - unfold callOf. rewrite Hidx. congruence.
Qed.

Lemma exited_bodyDone (gr : goroutine) : g_pc gr = Exited -> bodyDone gr = true.
Proof.
  intros H. unfold bodyDone. rewrite H. reflexivity.
Qed.

Lemma generateTTSAudio_blank (chunk : gostring) (rest : option E) :
  TrimSpace chunk = [] -> generateTTSAudio chunk rest = Some emptyTextChunk.
Proof.
  intros H. unfold generateTTSAudio. rewrite H. reflexivity.
Qed.

Lemma generateTTSAudio_text (chunk : gostring) (rest : option E) :
  TrimSpace chunk <> [] -> generateTTSAudio chunk rest = rest.
Proof.
  intros H. unfold generateTTSAudio.
  destruct (TrimSpace chunk) as [|c t]; [congruence | reflexivity].
Qed.

(** Once [wg.Wait()] has returned, a goroutine whose call failed has sent
    its error. *)
Lemma failure_is_sent (sched : list event) (st : state) (g : nat)
    (gr : goroutine) (c : E) :
  Inv sched st -> waitOver (main st) = true ->
  goroutines st !! g = Some gr -> g_err gr = Some c ->
  In (ChunkError (g + 1) c) (errors st).
Proof.
  intros HI Hw Hg He. destruct HI.
  pose proof (count_zero live _ (inv_closed0 Hw) g gr Hg) as Hl.
  apply (inv_errors_all0 g gr c Hg); [|exact He].
  apply exited_bodyDone. unfold live in Hl.
  destruct (g_pc gr); try discriminate. reflexivity.
Qed.

(** The function returns the slice only when no call has failed. *)
Lemma success_no_failure (sched : list event) (st : state)
    (files : list gostring) (err : option chunkError) :
  Inv sched st -> main st = Finished (Some files) err ->
  err = None /\ files = audioFiles st
  /\ forall g gr, goroutines st !! g = Some gr -> g_err gr = None.
Proof.
  intros HI Hmain. pose proof HI as HI'. destruct HI'.
  destruct (inv_finished0 _ _ Hmain) as [Hout _].
  unfold outcome in Hout. destruct (errors st) as [|e es] eqn:Herrs; [|discriminate].
  injection Hout as -> ->. repeat split; try reflexivity.
  intros g gr Hg. destruct (g_err gr) as [c|] eqn:He; [|reflexivity].
  assert (Hw : waitOver (main st) = true) by (rewrite Hmain; reflexivity).
  pose proof (failure_is_sent _ _ _ _ _ HI Hw Hg He) as Hin.
  rewrite Herrs in Hin. destruct Hin.
Qed.

(** C2: when [generateTTSAudioParallel] returns without error, the slice it
    returns has one element per chunk, and for every schedule (so for every
    order in which the calls complete) the element at index [i] is the path
    [chunk_<i+1>.mp3] in the temporary directory, the file that the call
    [generateTTSAudio(chunks[i], voice, ...)] of goroutine [i] was given and
    that returned no error.  And when no chunk is blank and no call has
    failed, the function can always be run to such a return. *)
Theorem results_follow_chunk_order (sched : list event) (st : state) :
  exec sched init = Some st ->
  (forall files err, main st = Finished (Some files) err ->
     err = None /\ length files = length chunks
     /\ forall i chunk, chunks !! i = Some chunk ->
          files !! i = Some (chunkFile i)
          /\ exists gr rest, goroutines st !! i = Some gr
                /\ callOf gr = (chunk, voice, chunkFile i)
                /\ In (CallReturn i rest) sched
                /\ generateTTSAudio chunk rest = None)
  /\ (Forall (fun chunk => TrimSpace chunk <> []) chunks ->
      (forall g rest, In (CallReturn g rest) sched -> rest = None) ->
      exists later st' files,
        exec later st = Some st' /\ main st' = Finished (Some files) None).
Proof.
  intros Hex. pose proof (Inv_reachable _ _ Hex) as HI. split.
  - intros files err Hmain.
    destruct (success_no_failure _ _ _ _ HI Hmain) as [-> [-> Hnone]].
    pose proof HI as HI'. destruct HI'.
    split; [reflexivity|]. split; [exact inv_files_len0|].
    intros i chunk Hi.
    assert (Hw : waitOver (main st) = true) by (rewrite Hmain; reflexivity).
    destruct (all_exited _ _ HI Hw i chunk Hi) as [gr [Hg [Hpc Hcall]]].
    pose proof (Hnone i gr Hg) as He.
    destruct (inv_returned0 i gr Hg) as [rest [Hin Hrest]];
      [rewrite Hpc; discriminate..|].
    split.
    + apply (inv_files0 i gr Hg He). right. apply exited_bodyDone. exact Hpc.
    + exists gr, rest. repeat split; auto.
      injection Hcall as <- _. congruence.
  - intros Htext Hok.
    destruct (can_return (fun _ => None) (measure st) sched st (le_n _) HI)
      as [later [st' [Hex' [[files [err Hmain]] Hf]]]].
    assert (HI' : Inv (sched ++ later) st') by (eapply Inv_exec; eauto).
    destruct files as [files|].
    + destruct (success_no_failure _ _ _ _ HI' Hmain) as [-> _].
      exists later, st', files. auto.
    + exfalso. destruct HI'.
      destruct (inv_finished0 _ _ Hmain) as [Hout _].
      unfold outcome in Hout. destruct (errors st') as [|e es] eqn:Herrs; [discriminate|].
      destruct (inv_errors_in0 e) as [g [gr [Hg [Hd [_ He]]]]];
        [left; reflexivity|].
      destruct (inv_returned0 g gr Hg) as [rest [Hin Hrest]];
        [unfold bodyDone in Hd; destruct (g_pc gr); discriminate..|].
      destruct (inv_args0 g gr Hg) as [_ Hchunk].
      rewrite Forall_forall in Htext.
      rewrite generateTTSAudio_text in Hrest.
      2: { apply Htext. apply list_elem_of_In. eapply list_elem_of_lookup_2; eauto. }
      assert (rest = None) as ->.
      { apply in_app_or in Hin. destruct Hin as [Hin | Hin]; [eapply Hok; eauto|].
        rewrite Forall_forall in Hf. exact (Hf _ Hin g _ eq_refl). }
      congruence.
Qed.

(** C3: once the call of some chunk has failed, the function can still be
    run until it returns, whatever the other calls return; and when it has
    returned, every chunk's goroutine has made its call of
    [generateTTSAudio], the call has returned and the goroutine has exited;
    the slice returned is [nil], and the error is ["chunk <j+1>: cause"] for
    the goroutine [j] that was first to send on [errors], with the cause its
    own call returned. *)
Theorem failure_is_contained (sched : list event) (st : state)
    (g : nat) (chunk : gostring) (rest : option E) (c : E) :
  exec sched init = Some st ->
  chunks !! g = Some chunk ->
  In (CallReturn g rest) sched -> generateTTSAudio chunk rest = Some c ->
  (forall ret, exists later st',
      exec later st = Some st' /\ returned st' /\ Forall (follows ret) later)
  /\ (forall files err, main st = Finished files err ->
       files = None
       /\ (forall i chunki, chunks !! i = Some chunki ->
             exists gr resti, goroutines st !! i = Some gr /\ g_pc gr = Exited
               /\ callOf gr = (chunki, voice, chunkFile i)
               /\ In (Acquire i) sched /\ In (CallReturn i resti) sched)
       /\ exists j chunkj restj cj others,
             sends sched = j :: others
             /\ chunks !! j = Some chunkj
             /\ In (CallReturn j restj) sched
             /\ generateTTSAudio chunkj restj = Some cj
             /\ err = Some (ChunkError (j + 1) cj)).
Proof.
  intros Hex Hchunk Hin Hfail. pose proof (Inv_reachable _ _ Hex) as HI. split.
  - intros ret. exact (can_return ret (measure st) sched st (le_n _) HI).
  - intros files err Hmain.
    assert (Hw : waitOver (main st) = true) by (rewrite Hmain; reflexivity).
    pose proof HI as HI'. destruct HI'.
    assert (Hall : forall i chunki, chunks !! i = Some chunki ->
             exists gr resti, goroutines st !! i = Some gr /\ g_pc gr = Exited
               /\ callOf gr = (chunki, voice, chunkFile i)
               /\ In (Acquire i) sched /\ In (CallReturn i resti) sched).
    { intros i chunki Hi.
      destruct (all_exited _ _ HI Hw i chunki Hi) as [gr [Hg [Hpc Hcall]]].
      destruct (inv_returned0 i gr Hg) as [resti [Hini _]];
        [rewrite Hpc; discriminate..|].
      exists gr, resti. repeat split; auto.
      apply (inv_acquired0 i gr Hg). rewrite Hpc. discriminate. }
    destruct (inv_trace0 g rest Hin) as [gr [Hg [He _]]].
    destruct (inv_args0 g gr Hg) as [_ Htxt].
    assert (Hc : g_err gr = Some c) by congruence.
    pose proof (failure_is_sent _ _ _ _ _ HI Hw Hg Hc) as Hsent.
    destruct (inv_finished0 _ _ Hmain) as [Hout _].
    unfold outcome in Hout. destruct (errors st) as [|e es] eqn:Herrs; [destruct Hsent|].
    injection Hout as -> ->.
    split; [reflexivity|]. split; [exact Hall|].
    destruct (inv_errors_in0 e) as [j [grj [Hgj [Hd [Hno Hej]]]]]; [left; reflexivity|].
    simpl in inv_sends0. destruct (sends sched) as [|j' others] eqn:Hs; [discriminate|].
    simpl in inv_sends0. injection inv_sends0 as Hj _.
    assert (j' = j) as -> by lia.
    destruct (inv_returned0 j grj Hgj) as [restj [Hinj Hrestj]];
      [unfold bodyDone in Hd; destruct (g_pc grj); discriminate..|].
    destruct (inv_args0 j grj Hgj) as [_ Htxtj].
    exists j, (g_text grj), restj, (cause e), others.
    split; [reflexivity|]. split; [exact Htxtj|]. split; [exact Hinj|].
    split; [congruence|].
    destruct e as [n ce]. simpl in *. subst n. rewrite Nat.add_1_r. reflexivity.
Qed.

(** The slice returned does not depend on the schedule: whenever the
    function returns without error, it returns the paths of the chunk files
    in the order of the chunks. *)
Theorem result_is_schedule_independent (sched : list event) (st : state)
    (files : list gostring) (err : option chunkError) :
  exec sched init = Some st -> main st = Finished (Some files) err ->
  files = chunkFile <$> seq 0 (length chunks).
Proof.
  intros Hex Hmain. pose proof (Inv_reachable _ _ Hex) as HI.
  destruct (success_no_failure _ _ _ _ HI Hmain) as [_ [-> Hnone]].
  assert (Hw : waitOver (main st) = true) by (rewrite Hmain; reflexivity).
  pose proof HI as HI'. destruct HI'.
  apply list_eq. intros i. rewrite list_lookup_fmap.
  destruct (decide (i < length chunks)) as [Hlt|Hge].
  - rewrite lookup_seq_lt by exact Hlt. simpl.
    destruct (lookup_lt_is_Some_2 chunks i Hlt) as [chunk Hi].
    destruct (all_exited _ _ HI Hw i chunk Hi) as [gr [Hg [Hpc _]]].
    apply (inv_files0 i gr Hg (Hnone i gr Hg)).
    right. apply exited_bodyDone. exact Hpc.
  - rewrite lookup_seq_ge by lia. simpl.
    apply lookup_ge_None. lia.
Qed.

(** A blank chunk makes the run fail: [generateTTSAudio] refuses it, so
    when the function has returned, the slice is [nil] and the error of that
    chunk, ["chunk <g+1>: ... Empty text chunk"], is among those sent. *)
Theorem blank_chunk_fails (sched : list event) (st : state)
    (g : nat) (chunk : gostring) :
  exec sched init = Some st ->
  chunks !! g = Some chunk -> TrimSpace chunk = [] ->
  forall files err, main st = Finished files err ->
    files = None /\ (exists e, err = Some e)
    /\ In (ChunkError (g + 1) emptyTextChunk) (errors st).
Proof.
  intros Hex Hchunk Hblank files err Hmain.
  pose proof (Inv_reachable _ _ Hex) as HI.
  assert (Hw : waitOver (main st) = true) by (rewrite Hmain; reflexivity).
  destruct (all_exited _ _ HI Hw g chunk Hchunk) as [gr [Hg [Hpc Hcall]]].
  pose proof HI as HI'. destruct HI'.
  destruct (inv_returned0 g gr Hg) as [rest [_ Hrest]];
    [rewrite Hpc; discriminate..|].
  injection Hcall as Htxt _. rewrite Htxt, (generateTTSAudio_blank _ _ Hblank) in Hrest.
  pose proof (failure_is_sent _ _ _ _ _ HI Hw Hg Hrest) as Hsent.
  destruct (inv_finished0 _ _ Hmain) as [Hout _].
  unfold outcome in Hout. destruct (errors st) as [|e es] eqn:Herrs; [destruct Hsent|].
  injection Hout as -> ->. split; [reflexivity|]. split; [eauto | exact Hsent].
Qed.

(** *** The admission gate *)

(** A call of [generateTTSAudio] begins only by the step that takes a free
    slot of [semaphore]. *)
Lemma call_begins_by_Acquire (st st' : state) (ev : event) (g : nat) (gr' : goroutine) :
  step st ev = Some st' ->
  goroutines st' !! g = Some gr' -> g_pc gr' = Calling ->
  (ev = Acquire g /\ semaphore st < concurrencyCap)
  \/ (exists gr, goroutines st !! g = Some gr /\ g_pc gr = Calling).
Proof.
  intros Hstep Hg' Hcalling. apply step_cases in Hstep.
  destruct Hstep as [i chunk Hmain Hi -> | ev g1 gr1 gr1' Hg1 Hgs _ _ _ _ Hstep
                    | n Hp -> | Hmain Hwg -> | Hmain Hp ->];
    simpl in *; try (right; exists gr'; auto; fail).
  - snoc_lookup Hg'; [right; exists gr'; auto | discriminate].
  - rewrite Hgs in Hg'. apply lookup_insert_cases in Hg'.
    destruct Hg' as [[-> ->] | [Hne Hg']]; [|right; exists gr'; auto].
    inv_gstep Hstep; try congruence. left. auto.
Qed.

(** C9: in every state of every execution at most [concurrencyCap = 5]
    calls of [generateTTSAudio] are in flight: the goroutines that hold a
    slot are as many as the elements in [semaphore], a call begins only by
    the step that takes a slot, that step is not enabled while the channel is
    full, and a goroutine gives its slot back only after its call has
    returned. *)
Theorem admission_bounds_calls_in_flight (sched : list event) (st : state) :
  exec sched init = Some st ->
  concurrencyCap = 5
  /\ count inFlight (goroutines st) <= concurrencyCap
  /\ semaphore st = count holding (goroutines st)
  /\ (forall ev st' g gr', step st ev = Some st' ->
        goroutines st' !! g = Some gr' -> g_pc gr' = Calling ->
        (ev = Acquire g /\ semaphore st < concurrencyCap)
        \/ (exists gr, goroutines st !! g = Some gr /\ g_pc gr = Calling))
  /\ (forall g, semaphore st = concurrencyCap -> step st (Acquire g) = None)
  /\ (forall g st', step st (Release g) = Some st' ->
        exists gr rest, goroutines st !! g = Some gr /\ g_pc gr = Finishing
                        /\ In (CallReturn g rest) sched
                        /\ semaphore st' + 1 = semaphore st).
Proof.
  intros Hex. pose proof (Inv_reachable _ _ Hex) as HI. destruct HI.
  split; [reflexivity|]. split; [|split; [exact inv_sem0|split; [|split]]].
  - rewrite inv_sem0 in inv_cap0.
    assert (count inFlight (goroutines st) <= count holding (goroutines st)); [|lia].
    apply count_le. intros gr. unfold inFlight, holding.
    destruct (g_pc gr); auto.
  - intros ev st' g gr'. apply call_begins_by_Acquire.
  - intros g Hfull. simpl.
    destruct (decide (semaphore st < concurrencyCap)); [lia | reflexivity].
  - intros g st' Hstep. apply step_cases in Hstep.
    inversion Hstep as [ | ev g1 gr gr' Hg Hgs _ _ _ _ Hgstep | | | ]; subst.
    inversion Hgstep as [ | | | | | Hpc Hpc' Herr Hsem _ _ _ _ | ]; subst.
    destruct (inv_returned0 g gr Hg) as [rest [Hin _]];
      [rewrite Hpc; discriminate..|].
    exists gr, rest. split; [exact Hg|]. split; [exact Hpc|]. split.
    + exact Hin.
    + assert (Hh : holding gr = true) by (unfold holding; rewrite Hpc; reflexivity).
      pose proof (count_insert holding _ _ _ gr' Hg) as Hc.
      rewrite Hh in Hc. unfold holding in Hc at 3. rewrite Hpc' in Hc. lia.
Qed.

(** The function always returns: for every chunk list and whatever the
    calls of [generateTTSAudio] return, some execution reaches the return;
    no execution has more than [8 * len(chunks) + 2] steps; an execution
    that has not returned is never stuck, and one that has returned takes no
    further step. *)
Theorem scheduler_returns (ret : nat -> option E) :
  (exists sched st,
      exec sched init = Some st /\ returned st /\ Forall (follows ret) sched)
  /\ (forall sched st, exec sched init = Some st ->
        length sched <= 8 * length chunks + 2)
  /\ (forall sched st, exec sched init = Some st -> ~ returned st ->
        exists ev st', step st ev = Some st' /\ follows ret ev)
  /\ (forall sched st ev, exec sched init = Some st -> returned st ->
        step st ev = None).
Proof.
  split; [|split; [|split]].
  - destruct (can_return ret (measure init) [] init (le_n _) Inv_init)
      as [rest [st [Hex [Hret Hf]]]].
    exists rest, st. auto.
  - intros sched st Hex. pose proof (exec_bounded _ _ _ Hex) as Hb.
    unfold measure at 2 in Hb. simpl in Hb. lia.
  - intros sched st Hex Hnr. eapply step_enabled; eauto.
    apply Inv_reachable. exact Hex.
  - intros sched st ev Hex Hret. eapply returned_final; eauto.
    apply Inv_reachable. exact Hex.
Qed.

End Run.
End WithCollaborator.

(** *** The progress display *)

(** The bar that the progress goroutine prints after [completed++]: 30
    cells, ['='] before [pos], ['>'] at [pos], blanks after it.  The
    division of Go panics on a zero [total]; [Nat.div] gives 0 there. *)
Definition progressBar (completed total : nat) : gostring :=
  let width := 30 in
  let pos := width * completed / total in
  map (fun i => if i <? pos then "="%char
                else if i =? pos then ">"%char else " "%char)
      (seq 0 width).

Section ProgressDisplay.

Variable E : Type.
Variables (tmpDir : gostring) (filepathJoin : gostring -> gostring -> gostring).
Variable emptyTextChunk : E.
Variable chunks : list gostring.

Local Abbreviation step := (step E tmpDir filepathJoin emptyTextChunk chunks).
Local Abbreviation exec := (exec E tmpDir filepathJoin emptyTextChunk chunks).
Local Abbreviation Inv := (Inv E tmpDir filepathJoin emptyTextChunk chunks).

Lemma count_succeeded_all (gs : list (goroutine E)) :
  (forall g gr, gs !! g = Some gr -> g_pc E gr = Exited /\ g_err E gr = None) ->
  count E (succeeded E) gs = length gs.
Proof.
  induction gs as [|x gs IH]; intros H; [reflexivity|].
  cbn [count length]. rewrite IH.
  - destruct (H 0 x eq_refl) as [Hpc He].
    unfold succeeded, bodyDone. rewrite Hpc, He. reflexivity.
  - intros g gr Hg. exact (H (S g) gr Hg).
Qed.

(** The counter of the progress goroutine never passes the number of
    chunks; the body of its loop runs only with chunks to count, so the
    division by [total] is never by zero; and when the function returns
    the counter is the number of chunks whose call succeeded, all of them
    when it returns the slice. *)
Theorem progress_counts_completed_chunks (sched : list (event E)) (st : state E) :
  exec sched (init E chunks) = Some st ->
  completed E st <= length chunks
  /\ (forall st', step st (ProgressRecv E) = Some st' ->
        0 < length chunks /\ completed E st' = completed E st + 1
        /\ completed E st' <= length chunks)
  /\ (forall files err, main E st = Finished E files err ->
        completed E st = count E (succeeded E) (goroutines E st)
        /\ (files <> None -> completed E st = length chunks)).
Proof.
  intros Hex. pose proof (Inv_reachable _ _ _ _ _ _ _ Hex) as HI.
  pose proof (inv_progress _ _ _ _ _ _ _ HI) as Hprog.
  pose proof (inv_dispatched _ _ _ _ _ _ _ HI) as Hdisp.
  pose proof (inv_bound _ _ _ _ _ _ _ HI) as Hbound.
  pose proof (count_le_length E (succeeded E) (goroutines E st)) as Hle.
  split; [lia|]. split.
  - intros st' H. cbn in H.
    destruct (progress E st) as [|n] eqn:Hp; [discriminate|].
    injection H as <-. cbn. lia.
  - intros files err Hmain.
    destruct (inv_finished _ _ _ _ _ _ _ HI _ _ Hmain) as [_ Hp].
    split; [lia|]. intros Hfiles.
    destruct files as [files|]; [|congruence].
    destruct (success_no_failure _ _ _ _ _ _ _ _ _ HI Hmain) as [_ [_ Hnone]].
    assert (Hw : waitOver E (main E st) = true) by (rewrite Hmain; reflexivity).
    assert (Hall : count E (succeeded E) (goroutines E st)
                   = length (goroutines E st)).
    { apply count_succeeded_all. intros g gr Hg.
      split; [|exact (Hnone g gr Hg)].
      pose proof (count_zero E (live E) _
                    (inv_closed _ _ _ _ _ _ _ HI Hw) g gr Hg) as Hl.
      unfold live in Hl. destruct (g_pc E gr); try discriminate. reflexivity. }
    rewrite Hmain in Hdisp. cbn in Hdisp. lia.
Qed.

End ProgressDisplay.

Definition cell (pos i : nat) : ascii :=
  if i <? pos then "="%char else if i =? pos then ">"%char else " "%char.

Lemma cells_filled (pos n : nat) :
  forall k, k + n <= pos -> map (cell pos) (seq k n) = replicate n "="%char.
Proof.
  induction n as [|n IH]; intros k Hk; [reflexivity|].
  cbn [seq map replicate]. rewrite IH by lia. unfold cell.
  destruct (Nat.ltb_spec k pos); [reflexivity | lia].
Qed.

Lemma cells_blank (pos n : nat) :
  forall k, pos < k -> map (cell pos) (seq k n) = replicate n " "%char.
Proof.
  induction n as [|n IH]; intros k Hk; [reflexivity|].
  cbn [seq map replicate]. rewrite IH by lia. unfold cell.
  destruct (Nat.ltb_spec k pos); [lia|].
  destruct (Nat.eqb_spec k pos); [lia | reflexivity].
Qed.

Lemma cells_arrow (pos n : nat) :
  forall k, k <= pos -> pos < k + n ->
    map (cell pos) (seq k n)
    = replicate (pos - k) "="%char
      ++ ">"%char :: replicate (k + n - pos - 1) " "%char.
Proof.
  induction n as [|n IH]; intros k Hk Hlt; [lia|].
  cbn [seq map]. destruct (Nat.eqb_spec k pos) as [->|Hne].
  - rewrite Nat.sub_diag. cbn [replicate app]. unfold cell at 1.
    rewrite Nat.ltb_irrefl, Nat.eqb_refl.
    rewrite cells_blank by lia. f_equal. f_equal. lia.
  - rewrite IH by lia. unfold cell.
    destruct (Nat.ltb_spec k pos); [|lia].
    replace (pos - k) with (S (pos - S k)) by lia. cbn [replicate app].
    f_equal. f_equal. f_equal. f_equal. lia.
Qed.

(** The bar has 30 cells; it is full exactly at the last chunk, and before
    that it shows the arrow after [30 * completed / total] filled cells. *)
Theorem progressBar_shape (completed total : nat) :
  0 < total -> completed <= total ->
  length (progressBar completed total) = 30
  /\ (completed = total -> progressBar completed total = replicate 30 "="%char)
  /\ (completed < total ->
      progressBar completed total
      = replicate (30 * completed / total) "="%char
        ++ ">"%char :: replicate (29 - 30 * completed / total) " "%char).
Proof.
  intros Hpos Hle.
  change (progressBar completed total)
    with (map (cell (30 * completed / total)) (seq 0 30)).
  split; [rewrite length_map, length_seq; reflexivity|]. split.
  - intros ->. apply cells_filled.
    rewrite Nat.div_mul by lia. lia.
  - intros Hlt.
    assert (Hp : 30 * completed / total < 30).
    { apply Nat.Div0.div_lt_upper_bound. nia. }
    rewrite cells_arrow by lia. rewrite Nat.sub_0_r.
    f_equal. f_equal. f_equal. lia.
Qed.

Lemma progressBar_shape_witness :
  length (progressBar 2 3) = 30
  /\ (2 = 3 -> progressBar 2 3 = replicate 30 "="%char)
  /\ (2 < 3 ->
      progressBar 2 3
      = replicate (30 * 2 / 3) "="%char
        ++ ">"%char :: replicate (29 - 30 * 2 / 3) " "%char).
Proof.
  apply progressBar_shape; lia.
Defined.

(** *** Four runs *)

Section Runs.

Let tmp : gostring := lit "podcast_tmp_1".
Let alloy : gostring := lit "alloy".

(** Two path elements joined by a slash. *)
Definition joinSlash (dir name : gostring) : gostring := dir ++ lit "/" ++ name.

(** The errors, by their messages. *)
Definition emptyChunkError : string := "audio generation: Empty text chunk".
Definition status500 : string := "audio generation: TTS request failed (status 500)".

Let run (chunks : list gostring) (sched : list (event string))
  : option (state string) :=
  exec string tmp joinSlash emptyChunkError chunks sched (init string chunks).

Definition threeChunks : list gostring := [lit "One."; lit "Two."; lit "Three."].

Definition sevenChunks : list gostring :=
  [lit "a."; lit "b."; lit "c."; lit "d."; lit "e."; lit "f."; lit "g."].

(** Three calls that complete in the order 2, 0, 1. *)
Definition reversedRun : list (event string) :=
  [Dispatch _; Dispatch _; Dispatch _; Acquire _ 0; Acquire _ 1; Acquire _ 2;
   CallReturn _ 2 None; Store _ 2; Signal _ 2;
   CallReturn _ 0 None; CallReturn _ 1 None; Store _ 0; Release _ 2;
   Signal _ 0; Store _ 1; ProgressRecv _; Signal _ 1; WgDone _ 2;
   Release _ 0; Release _ 1; WgDone _ 1; WgDone _ 0;
   ProgressRecv _; ProgressRecv _; WaitReturns _; Finish _].

(** Seven goroutines started, five of them holding a slot. *)
Definition gateFull : list (event string) :=
  repeat (Dispatch _) 7 ++ map (Acquire _) [0; 1; 2; 3; 4].

Definition runOf (g : nat) : list (event string) :=
  [CallReturn _ g None; Store _ g; Signal _ g; Release _ g; WgDone _ g].

(** Seven chunks; the call of chunk 4 fails first, the others complete. *)
Definition failingRun : list (event string) :=
  gateFull
  ++ [CallReturn _ 4 (Some status500); SendError _ 4; Release _ 4; Acquire _ 5]
  ++ [CallReturn _ 1 None; Store _ 1; Signal _ 1; Release _ 1; Acquire _ 6;
      WgDone _ 4; WgDone _ 1]
  ++ runOf 0 ++ runOf 6 ++ runOf 3 ++ runOf 2 ++ runOf 5
  ++ repeat (ProgressRecv _) 6 ++ [WaitReturns _; Finish _].

(** The chunks of the text "Hello" for [maxSize = 5], the first of them
    empty, and a run in which the request for the second succeeds. *)
Definition helloChunks : list gostring := splitTextIntoChunks (lit "Hello") 5.

Definition helloRun : list (event string) :=
  [Dispatch _; Dispatch _; Acquire _ 1; Acquire _ 0;
   CallReturn _ 1 None; CallReturn _ 0 None; Store _ 1; SendError _ 0;
   Signal _ 1; Release _ 0; Release _ 1; WgDone _ 0; WgDone _ 1;
   ProgressRecv _; WaitReturns _; Finish _].

Lemma results_follow_chunk_order_witness :
  exists st files,
    run threeChunks reversedRun = Some st
    /\ main _ st = Finished _ (Some files) None
    /\ files = [lit "podcast_tmp_1/chunk_1.mp3"; lit "podcast_tmp_1/chunk_2.mp3";
                lit "podcast_tmp_1/chunk_3.mp3"]
    /\ length files = length threeChunks
    /\ forall i chunk, threeChunks !! i = Some chunk ->
          files !! i = Some (chunkFile tmp joinSlash i)
          /\ exists gr rest, goroutines _ st !! i = Some gr
                /\ callOf _ alloy tmp joinSlash gr
                   = (chunk, alloy, chunkFile tmp joinSlash i)
                /\ In (CallReturn _ i rest) reversedRun
                /\ generateTTSAudio _ emptyChunkError chunk rest = None.
Proof.
  eexists. eexists.
  split; [vm_compute; reflexivity|].
  split; [vm_compute; reflexivity|].
  split; [vm_compute; reflexivity|].
  refine (proj2 (proj1 (results_follow_chunk_order string alloy tmp joinSlash
                          emptyChunkError threeChunks reversedRun _ _) _ None _)).
  - vm_compute. reflexivity.
  - vm_compute. reflexivity.
Defined.

Lemma failure_is_contained_witness :
  exists st,
    run sevenChunks failingRun = Some st
    /\ sevenChunks !! 4 = Some (lit "e.")
    /\ In (CallReturn _ 4 (Some status500)) failingRun
    /\ generateTTSAudio _ emptyChunkError (lit "e.") (Some status500) = Some status500
    /\ main _ st = Finished _ None (Some (ChunkError _ 5 status500))
    /\ sends _ failingRun = [4]
    /\ (forall i chunk, sevenChunks !! i = Some chunk ->
          exists gr rest, goroutines _ st !! i = Some gr /\ g_pc _ gr = Exited
            /\ callOf _ alloy tmp joinSlash gr
               = (chunk, alloy, chunkFile tmp joinSlash i)
            /\ In (Acquire _ i) failingRun /\ In (CallReturn _ i rest) failingRun).
Proof.
  eexists.
  split; [vm_compute; reflexivity|].
  split; [reflexivity|].
  split; [vm_compute; tauto|].
  split; [reflexivity|].
  split; [vm_compute; reflexivity|].
  split; [vm_compute; reflexivity|].
  refine (proj1 (proj2 (proj2 (failure_is_contained string alloy tmp joinSlash
                          emptyChunkError sevenChunks failingRun _ 4 (lit "e.")
                          (Some status500) status500 _ _ _ _) None _ _))).
  - vm_compute. reflexivity.
  - reflexivity.
  - vm_compute. tauto.
  - reflexivity.
  - vm_compute. reflexivity.
Defined.

Lemma admission_bounds_calls_in_flight_witness :
  exists st,
    run sevenChunks gateFull = Some st
    /\ count _ (inFlight _) (goroutines _ st) = 5
    /\ step string tmp joinSlash emptyChunkError sevenChunks st (Acquire _ 5) = None
    /\ count _ (inFlight _) (goroutines _ st) <= concurrencyCap.
Proof.
  eexists.
  split; [vm_compute; reflexivity|].
  split; [vm_compute; reflexivity|].
  split; [vm_compute; reflexivity|].
  refine (proj1 (proj2 (admission_bounds_calls_in_flight string tmp joinSlash
                          emptyChunkError sevenChunks gateFull _ _))).
  vm_compute. reflexivity.
Defined.

Lemma result_is_schedule_independent_witness :
  exists st,
    run threeChunks reversedRun = Some st
    /\ main _ st
       = Finished _ (Some [lit "podcast_tmp_1/chunk_1.mp3";
                           lit "podcast_tmp_1/chunk_2.mp3";
                           lit "podcast_tmp_1/chunk_3.mp3"]) None
    /\ [lit "podcast_tmp_1/chunk_1.mp3"; lit "podcast_tmp_1/chunk_2.mp3";
        lit "podcast_tmp_1/chunk_3.mp3"]
       = chunkFile tmp joinSlash <$> seq 0 (length threeChunks).
Proof.
  eexists.
  split; [vm_compute; reflexivity|].
  split; [vm_compute; reflexivity|].
  refine (result_is_schedule_independent string alloy tmp joinSlash emptyChunkError
            threeChunks reversedRun _ _ None _ _).
  - vm_compute. reflexivity.
  - vm_compute. reflexivity.
Defined.

Lemma blank_chunk_fails_witness :
  exists st,
    helloChunks = [lit ""; lit "Hello"]
    /\ run helloChunks helloRun = Some st
    /\ main _ st = Finished _ None (Some (ChunkError _ 1 emptyChunkError))
    /\ In (ChunkError _ 1 emptyChunkError) (errors _ st).
Proof.
  eexists.
  split; [vm_compute; reflexivity|].
  split; [vm_compute; reflexivity|].
  split; [vm_compute; reflexivity|].
  refine (proj2 (proj2 (blank_chunk_fails string alloy tmp joinSlash emptyChunkError
                          helloChunks helloRun _ 0 (lit "") _ _ _ None _ _))).
  - vm_compute. reflexivity.
  - vm_compute. reflexivity.
  - reflexivity.
  - vm_compute. reflexivity.
Defined.

Lemma progress_counts_completed_chunks_witness :
  exists st,
    run threeChunks reversedRun = Some st
    /\ completed _ st <= length threeChunks
    /\ (forall st',
          step string tmp joinSlash emptyChunkError threeChunks st (ProgressRecv _)
          = Some st' ->
          0 < length threeChunks /\ completed _ st' = completed _ st + 1
          /\ completed _ st' <= length threeChunks)
    /\ (forall files err, main _ st = Finished _ files err ->
          completed _ st = count _ (succeeded _) (goroutines _ st)
          /\ (files <> None -> completed _ st = length threeChunks)).
Proof.
  eexists.
  split; [vm_compute; reflexivity|].
  refine (progress_counts_completed_chunks string tmp joinSlash emptyChunkError
            threeChunks reversedRun _ _).
  vm_compute. reflexivity.
Defined.

End Runs.

End Scheduler.

(** ** The assembler, [concatenateMP3Files] *)

Module Assembler.

(** What a path names. *)
Inductive node : Type :=
| File (content : gostring)
| Dir.

(** The file system: a finite map from paths to what they name.
    Permissions and parent directories are left out. *)
Abbreviation fs := (gmap string node).

(** The [*PathError]s of this file system. *)
Inductive oserror : Type :=
| ENOENT     (* no such file or directory *)
| EISDIR.    (* is a directory *)

(** [os.Create(name)]: the file is created, or truncated when it exists.
    It fails for the empty path and for a path that names a directory. *)
Definition os_Create (w : fs) (name : string) : fs + oserror :=
  if decide (name = EmptyString) then inr ENOENT
  else match w !! name with
       | Some Dir => inr EISDIR
       | _ => inl (<[name := File []]> w)
       end.

(** [os.Open(name)] followed by reading the file to its end, as [io.Copy]
    does: the bytes of the file.  A directory opens, and its read fails. *)
Definition readAll (w : fs) (name : string) : gostring + oserror :=
  match w !! name with
  | Some (File content) => inl content
  | Some Dir => inr EISDIR
  | None => inr ENOENT
  end.

(** The writes of [io.Copy(outFile, inFile)]: [bytes] appended to the file
    that [os.Create] opened. *)
Definition appendTo (w : fs) (output : string) (bytes : gostring) : fs :=
  match w !! output with
  | Some (File content) => <[output := File (content ++ bytes)]> w
  | _ => w
  end.

(** The loop over [files]: the first error is returned, with the output as
    it stands. *)
Fixpoint copyAll (w : fs) (files : list string) (output : string)
  : fs * option oserror :=
  match files with
  | [] => (w, None)
  | f :: rest =>
      match readAll w f with
      | inr err => (w, Some err)
      | inl bytes => copyAll (appendTo w output bytes) rest output
      end
  end.

(** [concatenateMP3Files(files, output)]: the file system after the call
    and the error returned ([None] for [nil]). *)
Definition concatenateMP3Files (w : fs) (files : list string) (output : string)
  : fs * option oserror :=
  match os_Create w output with
  | inr err => (w, Some err)
  | inl w1 => copyAll w1 files output
  end.

(** C10 fails as stated: with no input file the call still returns the
    error of [os.Create] when the output cannot be created, here for the
    empty path, and for a path that names a directory. *)
Lemma concatenateMP3Files_empty_list_can_fail :
  concatenateMP3Files ∅ [] EmptyString = (∅, Some ENOENT)
  /\ concatenateMP3Files {["podcast_final.mp3" := Dir]} [] "podcast_final.mp3"
     = ({["podcast_final.mp3" := Dir]}, Some EISDIR).
Proof.
  split; reflexivity.
Qed.

(** C10, amended: when [os.Create(output)] succeeds, [concatenateMP3Files]
    of an empty list returns [nil] and leaves [output] a file of zero bytes,
    created or truncated, and every other path as it was; when [os.Create]
    fails, its error is returned and nothing is written. *)
Theorem concatenateMP3Files_empty_list (w : fs) (output : string) :
  match os_Create w output with
  | inl w1 =>
      concatenateMP3Files w [] output = (w1, None)
      /\ w1 !! output = Some (File [])
      /\ (forall name, name <> output -> w1 !! name = w !! name)
  | inr err => concatenateMP3Files w [] output = (w, Some err)
  end.
Proof.
  unfold concatenateMP3Files.
  destruct (os_Create w output) as [w1|err] eqn:Hc; [|reflexivity].
  unfold os_Create in Hc.
  destruct (decide (output = EmptyString)); [discriminate|].
  assert (w1 = <[output := File []]> w) as ->.
  { destruct (w !! output) as [[content|]|]; congruence. }
  split; [reflexivity|]. split.
  - apply lookup_insert_eq.
  - intros name Hne. apply lookup_insert_ne. congruence.
Qed.

(** The empty list over an existing final file, and with two chunk files. *)
Example concatenateMP3Files_runs :
  concatenateMP3Files {["podcast_final.mp3" := File (lit "old")]} [] "podcast_final.mp3"
  = ({["podcast_final.mp3" := File []]}, None)
  /\ fst (concatenateMP3Files
            {["c1" := File (lit "ab")]} ["c1"; "c1"] "out") !! "out"
     = Some (File (lit "abab")).
Proof.
  split; [|reflexivity].
  unfold concatenateMP3Files, os_Create. simpl.
  rewrite lookup_singleton_eq. simpl. rewrite insert_singleton_eq. reflexivity.
Qed.

(** *** Lists that are not empty *)

(** What [files] hold, when each of them is a file. *)
Definition holds (w : fs) (files : list string) (bodies : list gostring) : Prop :=
  Forall2 (fun f body => w !! f = Some (File body)) files bodies.

Lemma holds_insert (w : fs) (output : string) (n : node)
    (files : list string) (bodies : list gostring) :
  output ∉ files -> holds w files bodies ->
  holds (<[output := n]> w) files bodies.
Proof.
  intros Hout Hall. induction Hall as [|f body files bodies Hf Hall IH].
  - constructor.
  - apply not_elem_of_cons in Hout. destruct Hout as [Hne Hout].
    constructor; [|exact (IH Hout)].
    rewrite lookup_insert_ne by congruence. exact Hf.
Qed.

(** The loop appends to the output, whose bytes so far are [acc], the bytes
    of each file of [files]; no file of [files] is the output. *)
Lemma copyAll_appends (output : string) (files : list string) :
  output ∉ files ->
  forall (w : fs) (acc : gostring) (bodies : list gostring),
    w !! output = Some (File acc) ->
    holds w files bodies ->
    copyAll w files output
    = (<[output := File (acc ++ concat bodies)]> w, None).
Proof.
  induction files as [|f files IH]; intros Hout w acc bodies Hacc Hall.
  - inversion Hall; subst. simpl.
    rewrite app_nil_r, insert_id by exact Hacc. reflexivity.
  - inversion Hall as [|? body ? bodies' Hf Hall']; subst.
    apply not_elem_of_cons in Hout. destruct Hout as [Hne Hout].
    cbn [copyAll]. unfold readAll. rewrite Hf.
    unfold appendTo. rewrite Hacc.
    rewrite (IH Hout _ (acc ++ body) bodies').
    + rewrite insert_insert_eq. cbn [concat]. rewrite app_assoc. reflexivity.
    + apply lookup_insert_eq.
    + apply holds_insert; assumption.
Qed.

(** The loop stops at the first file it cannot read, with the output as the
    files before have left it. *)
Lemma copyAll_stops (output : string) (files : list string) :
  output ∉ files ->
  forall (w : fs) (acc : gostring) (bodies : list gostring)
         (f : string) (rest : list string) (err : oserror),
    w !! output = Some (File acc) ->
    holds w files bodies ->
    f <> output -> readAll w f = inr err ->
    copyAll w (files ++ f :: rest) output
    = (<[output := File (acc ++ concat bodies)]> w, Some err).
Proof.
  induction files as [|f0 files IH];
    intros Hout w acc bodies f rest err Hacc Hall Hne Herr.
  - inversion Hall; subst. cbn [app copyAll]. rewrite Herr.
    simpl. rewrite app_nil_r, insert_id by exact Hacc. reflexivity.
  - inversion Hall as [|? body ? bodies' Hf Hall']; subst.
    apply not_elem_of_cons in Hout. destruct Hout as [Hne0 Hout].
    cbn [app copyAll]. unfold readAll at 1. rewrite Hf.
    unfold appendTo. rewrite Hacc.
    rewrite (IH Hout _ (acc ++ body) bodies' f rest err).
    + rewrite insert_insert_eq. cbn [concat]. rewrite app_assoc. reflexivity.
    + apply lookup_insert_eq.
    + apply holds_insert; assumption.
    + exact Hne.
    + unfold readAll in *. rewrite lookup_insert_ne by congruence. exact Herr.
Qed.

Lemma os_Create_inl (w w1 : fs) (output : string) :
  os_Create w output = inl w1 -> w1 = <[output := File []]> w.
Proof.
  unfold os_Create. destruct (decide (output = EmptyString)); [discriminate|].
  destruct (w !! output) as [[content|]|]; congruence.
Qed.

(** When the output can be created and every input is a file other than the
    output, [concatenateMP3Files] returns [nil] and the output holds the
    bytes of the inputs, in the order of [files], a file named twice being
    copied twice; no other path changes. *)
Theorem concatenateMP3Files_concatenates (w w1 : fs) (files : list string)
    (bodies : list gostring) (output : string) :
  os_Create w output = inl w1 ->
  output ∉ files ->
  holds w files bodies ->
  concatenateMP3Files w files output
  = (<[output := File (concat bodies)]> w, None).
Proof.
  intros Hc Hout Hall. unfold concatenateMP3Files. rewrite Hc.
  apply os_Create_inl in Hc. subst w1.
  rewrite (copyAll_appends output files Hout _ [] bodies).
  - rewrite insert_insert_eq. reflexivity.
  - apply lookup_insert_eq.
  - apply holds_insert; assumption.
Qed.

(** When an input cannot be read, [concatenateMP3Files] returns the error
    of that input and leaves the output behind, holding the bytes of the
    inputs before it: the later inputs are not read. *)
Theorem concatenateMP3Files_leaves_partial_output (w w1 : fs)
    (files : list string) (bodies : list gostring) (f : string)
    (rest : list string) (err : oserror) (output : string) :
  os_Create w output = inl w1 ->
  output ∉ files -> f <> output ->
  holds w files bodies ->
  readAll w f = inr err ->
  concatenateMP3Files w (files ++ f :: rest) output
  = (<[output := File (concat bodies)]> w, Some err).
Proof.
  intros Hc Hout Hne Hall Herr. unfold concatenateMP3Files. rewrite Hc.
  apply os_Create_inl in Hc. subst w1.
  rewrite (copyAll_stops output files Hout _ [] bodies f rest err).
  - rewrite insert_insert_eq. reflexivity.
  - apply lookup_insert_eq.
  - apply holds_insert; assumption.
  - exact Hne.
  - unfold readAll in *. rewrite lookup_insert_ne by congruence. exact Herr.
Qed.

Lemma concatenateMP3Files_concatenates_witness :
  concatenateMP3Files
    {["c1" := File (lit "ab")]} ["c1"; "c1"] "podcast_final.mp3"
  = (<["podcast_final.mp3" := File (concat [lit "ab"; lit "ab"])]>
       {["c1" := File (lit "ab")]}, None).
Proof.
  apply (concatenateMP3Files_concatenates _
           (<["podcast_final.mp3" := File []]> {["c1" := File (lit "ab")]})).
  - reflexivity.
  - intros H. apply list_elem_of_In in H. simpl in H. intuition discriminate.
  - repeat constructor.
Defined.

Lemma concatenateMP3Files_leaves_partial_output_witness :
  concatenateMP3Files
    {["c1" := File (lit "ab")]} (["c1"] ++ "c2" :: ["c1"]) "podcast_final.mp3"
  = (<["podcast_final.mp3" := File (concat [lit "ab"])]>
       {["c1" := File (lit "ab")]}, Some ENOENT).
Proof.
  apply (concatenateMP3Files_leaves_partial_output _
           (<["podcast_final.mp3" := File []]> {["c1" := File (lit "ab")]})).
  - reflexivity.
  - intros H. apply list_elem_of_In in H. simpl in H. intuition discriminate.
  - discriminate.
  - repeat constructor.
  - reflexivity.
Defined.

End Assembler.

(** ** The synthesis call, [generateTTSAudio], in full

    The request and what the service answers are the environment of the
    call: the answer is an argument.  The call writes the file system of
    the assembler. *)

Module Synthesis.

Import Scheduler Assembler.

(** What a [*PodcastError] wraps, and the errors that are returned as they
    are: the error that [fmt.Errorf(string(body))] makes of a response
    body, an error of [net/http], an error of [os] with its path. *)
Inductive cause : Type :=
| BodyError (body : gostring)
| NetError (text : gostring)
| PathError (path : string) (e : oserror).

Inductive goerror : Type :=
| PodcastError (Stage Message : gostring) (Err : option cause)
| Plain (c : cause).

Definition OpenAITTSEndpoint : gostring :=
  lit "https://api.openai.com/v1/audio/speech".
Definition OpenAIModelTTS : gostring := lit "tts-1-hd".

(** A request: its method, its URL, the two headers the program sets and,
    for the body, the map that [json.Marshal] encodes, by its keys. *)
Record request : Type := Request {
  req_method : gostring;
  req_url : gostring;
  req_authorization : gostring;
  req_contentType : option gostring;
  req_payload : list (gostring * gostring)
}.

(** What [client.Do(req)] comes to: an error, or a response with its status
    and the bytes of its body that arrive, before the end of the body or
    before an error of the connection. *)
Inductive reply : Type :=
| NoReply (err : gostring)
| Reply (StatusCode : nat) (body : gostring) (bodyErr : option gostring).

Definition StatusOK : nat := 200.

(** The request of [generateTTSAudio]. *)
Definition ttsRequest (apiKey textChunk voice : gostring) : request :=
  {| req_method := lit "POST";
     req_url := OpenAITTSEndpoint;
     req_authorization := lit "Bearer " ++ apiKey;
     req_contentType := Some (lit "application/json");
     req_payload := [(lit "input", textChunk); (lit "model", OpenAIModelTTS);
                     (lit "voice", voice)] |}.

Definition emptyTextChunk : goerror :=
  PodcastError (lit "audio generation") (lit "Empty text chunk") None.

(** [generateTTSAudio(textChunk, voice, outputFile)], with [apiKey] the
    value of the variable [OPENAI_API_KEY] (empty when it is not set),
    [service] the answer to the request and [w] the file system: the
    error returned ([None] for [nil]) and the file system after the call.
    [json.Marshal] of a map of strings and [http.NewRequest] with a
    constant method and URL do not fail.  What the call prints is left
    out. *)
Definition generateTTSAudio (apiKey : gostring) (service : request -> reply)
    (textChunk voice : gostring) (outputFile : string) (w : fs)
  : option goerror * fs :=
  if len (TrimSpace textChunk) =? 0 then (Some emptyTextChunk, w)
  else if len apiKey =? 0 then
    (Some (PodcastError (lit "audio generation") (lit "API key not found") None), w)
  else
    match service (ttsRequest apiKey textChunk voice) with
    | NoReply err => (Some (Plain (NetError err)), w)
    | Reply status body bodyErr =>
        if negb (status =? StatusOK)%nat then
          (Some (PodcastError (lit "audio generation")
                   (lit "TTS request failed (status " ++ decimal status ++ lit ")")
                   (Some (BodyError body))), w)
        else
          match os_Create w outputFile with
          | inr e => (Some (Plain (PathError outputFile e)), w)
          | inl w1 =>
              let w2 := appendTo w1 outputFile body in
              match bodyErr with
              | Some err => (Some (Plain (NetError err)), w2)
              | None =>
                  if len body =? 0 then
                    (Some (PodcastError (lit "audio generation")
                             (lit "Generated audio file is empty") None), w2)
                  else (None, w2)
              end
          end
    end.

Lemma appendTo_created (w w1 : fs) (name : string) (body : gostring) :
  os_Create w name = inl w1 ->
  appendTo w1 name body = <[name := File body]> w.
Proof.
  intros Hc. apply os_Create_inl in Hc. subst w1.
  unfold appendTo. rewrite lookup_insert_eq, insert_insert_eq. reflexivity.
Qed.

Lemma len_zero_iff (s : gostring) : (len s =? 0) = true <-> s = [].
Proof.
  unfold len. destruct s; simpl; split; intros H; try reflexivity;
    try discriminate; apply Z.eqb_eq in H; lia.
Qed.

(** The call changes no path but [outputFile]. *)
Lemma generateTTSAudio_frame (apiKey : gostring) (service : request -> reply)
    (textChunk voice : gostring) (outputFile : string) (w : fs) (name : string) :
  name <> outputFile ->
  snd (generateTTSAudio apiKey service textChunk voice outputFile w) !! name
  = w !! name.
Proof.
  intros Hne. unfold generateTTSAudio.
  destruct (len (TrimSpace textChunk) =? 0); [reflexivity|].
  destruct (len apiKey =? 0); [reflexivity|].
  destruct (service _) as [err|status body bodyErr]; [reflexivity|].
  destruct (negb (status =? StatusOK)%nat); [reflexivity|].
  destruct (os_Create w outputFile) as [w1|e] eqn:Hc; [|reflexivity].
  rewrite (appendTo_created w w1 outputFile body Hc).
  assert (Hl : <[outputFile := File body]> w !! name = w !! name)
    by (apply lookup_insert_ne; congruence).
  destruct bodyErr; [exact Hl|]. destruct (len body =? 0); exact Hl.
Qed.

(** The call returns [nil] in one case only. *)
Lemma generateTTSAudio_nil (apiKey : gostring) (service : request -> reply)
    (textChunk voice : gostring) (outputFile : string) (w w' : fs) :
  generateTTSAudio apiKey service textChunk voice outputFile w = (None, w') <->
  TrimSpace textChunk <> [] /\ apiKey <> []
  /\ exists body w1,
       service (ttsRequest apiKey textChunk voice) = Reply StatusOK body None
       /\ body <> [] /\ os_Create w outputFile = inl w1
       /\ w' = <[outputFile := File body]> w.
Proof.
  unfold generateTTSAudio. split.
  - destruct (len (TrimSpace textChunk) =? 0) eqn:Hblank; [discriminate|].
    destruct (len apiKey =? 0) eqn:Hkey; [discriminate|].
    destruct (service _) as [err|status body bodyErr]; [discriminate|].
    destruct (status =? StatusOK)%nat eqn:Hs; [|discriminate]. cbn [negb].
    apply Nat.eqb_eq in Hs. subst status.
    destruct (os_Create w outputFile) as [w1|e] eqn:Hc; [|discriminate].
    destruct bodyErr; [discriminate|].
    destruct (len body =? 0) eqn:Hbody; [discriminate|].
    intros [= <-]. repeat split.
    + intros H. apply len_zero_iff in H. congruence.
    + intros H. apply len_zero_iff in H. congruence.
    + exists body, w1. repeat split; auto.
      * intros H. apply len_zero_iff in H. congruence.
      * apply appendTo_created. exact Hc.
  - intros [Hblank [Hkey [body [w1 [Hs [Hbody [Hc ->]]]]]]].
    assert (H1 : (len (TrimSpace textChunk) =? 0) = false).
    { destruct (len (TrimSpace textChunk) =? 0) eqn:E; [|reflexivity].
      apply len_zero_iff in E. congruence. }
    assert (H2 : (len apiKey =? 0) = false).
    { destruct (len apiKey =? 0) eqn:E; [|reflexivity].
      apply len_zero_iff in E. congruence. }
    assert (H3 : (len body =? 0) = false).
    { destruct (len body =? 0) eqn:E; [|reflexivity].
      apply len_zero_iff in E. congruence. }
    rewrite H1, H2, Hs, Nat.eqb_refl. cbn [negb]. rewrite Hc, H3.
    rewrite (appendTo_created w w1 outputFile body Hc). reflexivity.
Qed.

(** [generateTTSAudio] changes no path but [outputFile]; it returns [nil]
    exactly when the chunk is not blank, the key is set, the service
    answers 200 with a body that is not empty and arrives whole, and the
    file can be created; the file then holds the body, byte for byte. *)
Theorem generateTTSAudio_writes_the_body (apiKey : gostring)
    (service : request -> reply) (textChunk voice : gostring)
    (outputFile : string) (w : fs) :
  (forall name, name <> outputFile ->
     snd (generateTTSAudio apiKey service textChunk voice outputFile w) !! name
     = w !! name)
  /\ (fst (generateTTSAudio apiKey service textChunk voice outputFile w) = None <->
      TrimSpace textChunk <> [] /\ apiKey <> []
      /\ exists body w1,
           service (ttsRequest apiKey textChunk voice) = Reply StatusOK body None
           /\ body <> [] /\ os_Create w outputFile = inl w1
           /\ snd (generateTTSAudio apiKey service textChunk voice outputFile w)
              = <[outputFile := File body]> w).
Proof.
  split; [intros name; apply generateTTSAudio_frame|].
  destruct (generateTTSAudio apiKey service textChunk voice outputFile w)
    as [err w'] eqn:Hg. cbn [fst snd]. split.
  - intros ->. apply generateTTSAudio_nil in Hg. exact Hg.
  - intros H.
    assert (Hg' : generateTTSAudio apiKey service textChunk voice outputFile w
                  = (None, w')) by (apply generateTTSAudio_nil; exact H).
    congruence.
Qed.

(** A call that fails once the response has begun leaves its file behind:
    when the service answers 200 and the body is empty, or breaks off, the
    call returns an error and [outputFile] holds the bytes that came. *)
Theorem generateTTSAudio_leaves_the_file (apiKey : gostring)
    (service : request -> reply) (textChunk voice body : gostring)
    (bodyErr : option gostring) (outputFile : string) (w w1 : fs) :
  TrimSpace textChunk <> [] -> apiKey <> [] ->
  service (ttsRequest apiKey textChunk voice) = Reply StatusOK body bodyErr ->
  body = [] \/ bodyErr <> None ->
  os_Create w outputFile = inl w1 ->
  exists err,
    generateTTSAudio apiKey service textChunk voice outputFile w
    = (Some err, <[outputFile := File body]> w).
Proof.
  intros Hblank Hkey Hs Hbad Hc. unfold generateTTSAudio.
  assert (H1 : (len (TrimSpace textChunk) =? 0) = false).
  { destruct (len (TrimSpace textChunk) =? 0) eqn:E; [|reflexivity].
    apply len_zero_iff in E. congruence. }
  assert (H2 : (len apiKey =? 0) = false).
  { destruct (len apiKey =? 0) eqn:E; [|reflexivity].
    apply len_zero_iff in E. congruence. }
  rewrite H1, H2, Hs, Nat.eqb_refl. cbn [negb]. rewrite Hc.
  rewrite (appendTo_created w w1 outputFile body Hc).
  destruct bodyErr as [e|]; [eexists; reflexivity|].
  destruct Hbad as [-> | Hbad]; [|congruence].
  eexists. reflexivity.
Qed.

Lemma generateTTSAudio_leaves_the_file_witness :
  exists err,
    generateTTSAudio (lit "sk-1") (fun _ => Reply StatusOK [] None)
      (lit "Hi.") (lit "alloy") "tmp/chunk_1.mp3" ∅
    = (Some err, <["tmp/chunk_1.mp3" := File []]> ∅).
Proof.
  apply (generateTTSAudio_leaves_the_file _ _ _ _ _ None _ _
           (<["tmp/chunk_1.mp3" := File []]> ∅)).
  - discriminate.
  - discriminate.
  - reflexivity.
  - left. reflexivity.
  - reflexivity.
Defined.

(** *** [saveGeneratedText] *)


(** [os.ReadFile(name)]. *)
Definition os_ReadFile (w : fs) (name : string) : gostring + oserror :=
  readAll w name.




(** The guard of the scheduler's model is that of the call. *)
Lemma generateTTSAudio_guard (apiKey : gostring) (service : request -> reply)
    (textChunk voice : gostring) (outputFile : string) (w : fs) :
  Scheduler.generateTTSAudio goerror emptyTextChunk textChunk
    (fst (generateTTSAudio apiKey service textChunk voice outputFile w))
  = fst (generateTTSAudio apiKey service textChunk voice outputFile w).
Proof.
  unfold Scheduler.generateTTSAudio, generateTTSAudio.
  destruct (len (TrimSpace textChunk) =? 0); reflexivity.
Qed.

End Synthesis.

(** ** The scheduler, the calls and the files

    The executions of [generateTTSAudioParallel] with the file system: the
    return of the call of a goroutine is the call of [generateTTSAudio] on
    the file system as it stands, every other step leaves the file system
    as it is.  The calls write distinct files, so the writes of a call are
    taken at its return. *)

Module Pipeline.

Import Scheduler Assembler Synthesis.

Local Open Scope nat_scope.

Section Parallel.

Variables (apiKey voice tmpDir : gostring).
Variable filepathJoin : gostring -> gostring -> gostring.
Variable chunks : list gostring.

Local Abbreviation step := (step goerror tmpDir filepathJoin emptyTextChunk chunks).
Local Abbreviation Inv := (Inv goerror tmpDir filepathJoin emptyTextChunk chunks).
Local Abbreviation state := (state goerror).
Local Abbreviation goroutine := (goroutine goerror).
Local Abbreviation goroutines := (goroutines goerror).
Local Abbreviation g_pc := (g_pc goerror).
Local Abbreviation g_err := (g_err goerror).
Local Abbreviation g_text := (g_text goerror).
Local Abbreviation g_index := (g_index goerror).

(** The path of the file of chunk [index]. *)
Definition chunkPath (index : nat) : string :=
  string_of_list_ascii (chunkFile tmpDir filepathJoin index).

(** A step: the call of goroutine [g] returns, [service] being what the
    service answers to it; or any other step of the scheduler. *)
Inductive pevent : Type :=
| Call (g : nat) (service : request -> reply)
| Other (ev : event goerror).

Definition pstep (s : state * fs) (ev : pevent) : option (state * fs) :=
  let '(st, w) := s in
  match ev with
  | Call g service =>
      match goroutines st !! g with
      | Some gr =>
          let '(err, w') :=
            Synthesis.generateTTSAudio apiKey service (g_text gr) voice
              (chunkPath (g_index gr)) w in
          match step st (CallReturn goerror g err) with
          | Some st' => Some (st', w')
          | None => None
          end
      | None => None
      end
  | Other (CallReturn _ _ _) => None
  | Other ev =>
      match step st ev with
      | Some st' => Some (st', w)
      | None => None
      end
  end.

Fixpoint pexec (sched : list pevent) (s : state * fs) : option (state * fs) :=
  match sched with
  | [] => Some s
  | ev :: rest =>
      match pstep s ev with
      | Some s' => pexec rest s'
      | None => None
      end
  end.

(** What the service answers to the call of goroutine [g], in a schedule. *)
Fixpoint serviceOf (sched : list pevent) (g : nat) : option (request -> reply) :=
  match sched with
  | [] => None
  | Call g' service :: rest =>
      if decide (g' = g) then Some service else serviceOf rest g
  | Other _ :: rest => serviceOf rest g
  end.

(** The body received for chunk [g]. *)
Definition received (sched : list pevent) (g : nat) (chunk : gostring) : gostring :=
  match serviceOf sched g with
  | Some service =>
      match service (ttsRequest apiKey chunk voice) with
      | Reply _ body _ => body
      | NoReply _ => []
      end
  | None => []
  end.

Lemma serviceOf_app (s1 s2 : list pevent) (g : nat) :
  serviceOf (s1 ++ s2) g
  = match serviceOf s1 g with
    | Some service => Some service
    | None => serviceOf s2 g
    end.
Proof.
  induction s1 as [|[g' service|ev] s1 IH]; simpl; [reflexivity| |exact IH].
  destruct (decide (g' = g)); [reflexivity | exact IH].
Qed.

(** *** Steps and goroutines *)

Definition past (gr : goroutine) : Prop :=
  g_pc gr <> Queued /\ g_pc gr <> Calling.

Lemma step_CallReturn (st st' : state) (g : nat) (err : option goerror) :
  step st (CallReturn goerror g err) = Some st' ->
  exists gr, goroutines st !! g = Some gr /\ g_pc gr = Calling
    /\ goroutines st'
       = <[g := Goroutine goerror (g_index gr) (g_text gr) Returned
                  (Scheduler.generateTTSAudio goerror emptyTextChunk
                     (g_text gr) err)]> (goroutines st).
Proof.
  simpl. destruct (goroutines st !! g) as [gr|] eqn:Hg; [|discriminate].
  destruct (decide (g_pc gr = Calling)); [|discriminate].
  intros [= <-]. exists gr. repeat split; auto.
Qed.

(** A goroutine that is past its call stays so, with its error and text. *)
Lemma step_past (st st' : state) (ev : event goerror) :
  step st ev = Some st' ->
  forall g gr, goroutines st !! g = Some gr -> past gr ->
    exists gr', goroutines st' !! g = Some gr' /\ past gr'
                /\ g_err gr' = g_err gr /\ g_text gr' = g_text gr.
Proof.
  intros Hstep g gr Hg [Hq Hc]. apply step_cases in Hstep.
  inversion Hstep as [i chunk Hm Hi Hst'
                     | ev0 g0 gr0 gr0' Hg0 Hgs Hidx Htxt Hm Hcomp Hgstep
                     | n Hp Hst' | Hm Hwg Hst' | Hm Hp Hst']; subst;
    try (exists gr; cbn; repeat split; auto; fail).
  - exists gr. cbn. rewrite lookup_app_l by (eapply lookup_lt_Some; eauto).
    repeat split; auto.
  - destruct (decide (g = g0)) as [->|Hne].
    + assert (gr0 = gr) as -> by congruence.
      exists gr0'. rewrite Hgs.
      rewrite list_lookup_insert_eq by (eapply lookup_lt_Some; eauto).
      inversion Hgstep; subst; unfold past;
        repeat split; auto; try congruence.
    + exists gr. rewrite Hgs, list_lookup_insert_ne by congruence.
      repeat split; auto.
Qed.

(** A goroutine that is past its call after a step that is no return of a
    call was so before. *)
Lemma step_past_inv (st st' : state) (ev : event goerror) :
  (forall g rest, ev <> CallReturn goerror g rest) ->
  step st ev = Some st' ->
  forall g gr', goroutines st' !! g = Some gr' -> past gr' ->
    exists gr, goroutines st !! g = Some gr /\ past gr
               /\ g_err gr' = g_err gr /\ g_text gr' = g_text gr.
Proof.
  intros Hev Hstep g gr' Hg' [Hq Hc]. apply step_cases in Hstep.
  inversion Hstep as [i chunk Hm Hi Hst'
                     | ev0 g0 gr0 gr0' Hg0 Hgs Hidx Htxt Hm Hcomp Hgstep
                     | n Hp Hst' | Hm Hwg Hst' | Hm Hp Hst']; subst;
    try (exists gr'; cbn in *; repeat split; auto; fail).
  - cbn in Hg'. apply lookup_snoc_Some in Hg'.
    destruct Hg' as [[_ Hg']|[_ <-]]; [|cbn in Hq; congruence].
    exists gr'. repeat split; auto.
  - rewrite Hgs in Hg'. apply lookup_insert_cases in Hg'.
    destruct Hg' as [[-> ->]|[Hne Hg']].
    + exists gr0. split; [exact Hg0|].
      inversion Hgstep; subst; unfold past;
        repeat split; auto; try congruence.
      exfalso. eapply Hev. reflexivity.
    + exists gr'. repeat split; auto.
Qed.


(** *** The invariant of the files *)

Section Files.

(** The file system the function starts on. *)
Variable w0 : fs.

(** The chunk files have distinct paths. *)
Hypothesis chunkPath_inj : forall i j,
  i < length chunks -> j < length chunks -> chunkPath i = chunkPath j -> i = j.

Record PInv (sched : list pevent) (st : state) (w : fs) : Prop := {
  pinv_sched : exists sched0, Inv sched0 st;
  pinv_written : forall g gr, goroutines st !! g = Some gr -> past gr ->
      g_err gr = None ->
      w !! chunkPath g = Some (File (received sched g (g_text gr)))
      /\ received sched g (g_text gr) <> [];
  pinv_called : forall g, serviceOf sched g <> None ->
      exists gr, goroutines st !! g = Some gr /\ past gr;
  pinv_frame : forall name,
      (forall g, g < length chunks -> name <> chunkPath g) ->
      w !! name = w0 !! name
}.

Lemma PInv_init : PInv [] (init goerror chunks) w0.
Proof.
  split.
  - exists []. apply Inv_init.
  - intros g gr Hg. discriminate.
  - intros g H. cbn in H. congruence.
  - reflexivity.
Qed.

Lemma Inv_lt (sched0 : list (event goerror)) (st : state) (g : nat)
    (gr : goroutine) :
  Inv sched0 st -> goroutines st !! g = Some gr -> g < length chunks.
Proof.
  intros HI Hg. apply lookup_lt_Some in Hg.
  pose proof (inv_dispatched _ _ _ _ _ _ _ HI).
  pose proof (inv_bound _ _ _ _ _ _ _ HI). lia.
Qed.

Lemma PInv_Other (sched : list pevent) (st st' : state) (w : fs)
    (ev : event goerror) :
  (forall g rest, ev <> CallReturn goerror g rest) ->
  PInv sched st w -> step st ev = Some st' ->
  PInv (sched ++ [Other ev]) st' w.
Proof.
  intros Hev [[sched0 HI] Hwr Hcalled Hframe] Hstep.
  assert (Hs : forall g, serviceOf (sched ++ [Other ev]) g = serviceOf sched g).
  { intros g. rewrite serviceOf_app. cbn. destruct (serviceOf sched g); reflexivity. }
  split.
  - exists (sched0 ++ [ev]). eapply Inv_step; eauto.
  - intros g gr' Hg' Hpast Herr.
    destruct (step_past_inv st st' ev Hev Hstep g gr' Hg' Hpast)
      as [gr [Hg [Hp [He Ht]]]].
    unfold received. rewrite Hs, Ht.
    apply (Hwr g gr Hg Hp). congruence.
  - intros g Hsome. rewrite Hs in Hsome.
    destruct (Hcalled g Hsome) as [gr [Hg Hp]].
    destruct (step_past st st' ev Hstep g gr Hg Hp) as [gr' [Hg' [Hp' _]]].
    exists gr'. split; assumption.
  - exact Hframe.
Qed.

Lemma PInv_Call (sched : list pevent) (st st' : state) (w : fs)
    (g0 : nat) (service : request -> reply) (gr0 : goroutine) :
  PInv sched st w ->
  goroutines st !! g0 = Some gr0 ->
  step st (CallReturn goerror g0
             (fst (Synthesis.generateTTSAudio apiKey service (g_text gr0) voice
                     (chunkPath (g_index gr0)) w))) = Some st' ->
  PInv (sched ++ [Call g0 service]) st'
    (snd (Synthesis.generateTTSAudio apiKey service (g_text gr0) voice
            (chunkPath (g_index gr0)) w)).
Proof.
  intros [[sched0 HI] Hwr Hcalled Hframe] Hg0 Hstep.
  set (call := Synthesis.generateTTSAudio apiKey service (g_text gr0) voice
                 (chunkPath (g_index gr0)) w) in *.
  destruct (inv_args _ _ _ _ _ _ _ HI g0 gr0 Hg0) as [Hidx Htxt].
  pose proof (Inv_lt _ _ _ _ HI Hg0) as Hlt0.
  destruct (step_CallReturn st st' g0 (fst call) Hstep)
    as [gr [Hg [Hpc Hgs]]].
  assert (gr = gr0) as -> by congruence.
  assert (Hguard : Scheduler.generateTTSAudio goerror emptyTextChunk
                     (g_text gr0) (fst call) = fst call)
    by apply generateTTSAudio_guard.
  rewrite Hguard in Hgs.
  assert (Hfresh : serviceOf sched g0 = None).
  { destruct (serviceOf sched g0) as [s|] eqn:Hs; [|reflexivity].
    destruct (Hcalled g0) as [gr [Hg' [_ Hc]]]; [congruence|].
    assert (gr = gr0) as -> by congruence. congruence. }
  assert (Hs : forall g, g <> g0 ->
            serviceOf (sched ++ [Call g0 service]) g = serviceOf sched g).
  { intros g Hne. rewrite serviceOf_app. cbn.
    destruct (serviceOf sched g); [reflexivity|].
    destruct (decide (g0 = g)); [congruence | reflexivity]. }
  assert (Hs0 : serviceOf (sched ++ [Call g0 service]) g0 = Some service).
  { rewrite serviceOf_app, Hfresh. cbn.
    destruct (decide (g0 = g0)); [reflexivity | congruence]. }
  split.
  - exists (sched0 ++ [CallReturn goerror g0 (fst call)]).
    eapply Inv_step; eauto.
  - intros g gr' Hg' Hpast Herr. rewrite Hgs in Hg'.
    apply lookup_insert_cases in Hg'. destruct Hg' as [[-> ->]|[Hne Hg']].
    + cbn [Scheduler.g_text Scheduler.g_err] in *.
      unfold received. rewrite Hs0.
      destruct call as [err w'] eqn:Hcall. cbn [fst snd] in *. subst err.
      unfold call in Hcall. apply generateTTSAudio_nil in Hcall.
      destruct Hcall as [_ [_ [body [w1 [Hsv [Hbody [_ ->]]]]]]].
      rewrite Hsv. rewrite Hidx. split; [apply lookup_insert_eq | exact Hbody].
    + assert (Hlt : g < length chunks) by (eapply Inv_lt; eauto).
      unfold received. rewrite (Hs g Hne).
      unfold call. rewrite generateTTSAudio_frame.
      * apply (Hwr g gr' Hg' Hpast Herr).
      * rewrite Hidx. intros Heq. apply Hne. apply chunkPath_inj; auto.
  - intros g Hsome. destruct (decide (g = g0)) as [->|Hne].
    + eexists. rewrite Hgs.
      rewrite list_lookup_insert_eq by (eapply lookup_lt_Some; eauto).
      split; [reflexivity|]. split; cbn; discriminate.
    + rewrite (Hs g Hne) in Hsome.
      destruct (Hcalled g Hsome) as [gr [Hg' Hp]].
      exists gr. rewrite Hgs, list_lookup_insert_ne by congruence.
      split; assumption.
  - intros name Hname. unfold call. rewrite generateTTSAudio_frame.
    + apply Hframe. exact Hname.
    + rewrite Hidx. apply Hname. exact Hlt0.
Qed.

Lemma PInv_step (sched : list pevent) (st st' : state) (w w' : fs)
    (ev : pevent) :
  PInv sched st w -> pstep (st, w) ev = Some (st', w') ->
  PInv (sched ++ [ev]) st' w'.
Proof.
  intros HP Hstep. destruct ev as [g0 service|ev]; cbn [pstep] in Hstep.
  - destruct (goroutines st !! g0) as [gr0|] eqn:Hg0; [|discriminate].
    destruct (Synthesis.generateTTSAudio apiKey service (g_text gr0) voice
                (chunkPath (g_index gr0)) w) as [err w1] eqn:Hcall.
    destruct (step st (CallReturn goerror g0 err)) as [st1|] eqn:Hs;
      [|discriminate].
    injection Hstep as <- <-.
    pose proof (PInv_Call sched st st1 w g0 service gr0 HP Hg0) as H.
    rewrite Hcall in H. cbn [fst snd] in H. exact (H Hs).
  - assert (Hother : forall st1, step st ev = Some st1 ->
              (forall g rest, ev <> CallReturn goerror g rest) ->
              Some (st1, w) = Some (st', w') -> PInv (sched ++ [Other ev]) st' w').
    { intros st1 Hs Hev [= <- <-]. eapply PInv_Other; eauto. }
    destruct ev; try discriminate;
      (destruct (step st _) as [st1|] eqn:Hs; [|discriminate]);
      (eapply Hother; [reflexivity | intros; discriminate | exact Hstep]).
Qed.

Lemma PInv_exec (sched : list pevent) :
  forall sched0 st w st' w', PInv sched0 st w ->
    pexec sched (st, w) = Some (st', w') -> PInv (sched0 ++ sched) st' w'.
Proof.
  induction sched as [|ev sched IH]; intros sched0 st w st' w' HP Hex;
    cbn [pexec] in Hex.
  - injection Hex as <- <-. rewrite app_nil_r. exact HP.
  - destruct (pstep (st, w) ev) as [[st1 w1]|] eqn:Hstep; [|discriminate].
    replace (sched0 ++ ev :: sched) with ((sched0 ++ [ev]) ++ sched)
      by (rewrite <- app_assoc; reflexivity).
    eapply IH; [eapply PInv_step; eauto | exact Hex].
Qed.

Lemma PInv_reachable (sched : list pevent) (st : state) (w : fs) :
  pexec sched (init goerror chunks, w0) = Some (st, w) -> PInv sched st w.
Proof.
  intros H. exact (PInv_exec sched [] _ _ _ _ PInv_init H).
Qed.


(** The slice returned on success. *)
Lemma finished_files (sched0 : list (event goerror)) (st : state)
    (files : list gostring) (err : option (chunkError goerror)) :
  Inv sched0 st -> main goerror st = Finished goerror (Some files) err ->
  files = chunkFile tmpDir filepathJoin <$> seq 0 (length chunks).
Proof.
  intros HI Hmain.
  destruct (success_no_failure _ _ _ _ _ _ _ _ _ HI Hmain) as [_ [-> Hnone]].
  assert (Hw : waitOver goerror (main goerror st) = true)
    by (rewrite Hmain; reflexivity).
  apply list_eq. intros i. rewrite list_lookup_fmap.
  destruct (decide (i < length chunks)) as [Hlt|Hge].
  - rewrite lookup_seq_lt by exact Hlt. simpl.
    destruct (lookup_lt_is_Some_2 chunks i Hlt) as [chunk Hi].
    destruct (all_exited _ voice _ _ _ _ _ _ HI Hw i chunk Hi) as [gr [Hg [Hpc _]]].
    apply (inv_files _ _ _ _ _ _ _ HI i gr Hg (Hnone i gr Hg)).
    right. apply exited_bodyDone. exact Hpc.
  - rewrite lookup_seq_ge by lia. simpl.
    apply lookup_ge_None. rewrite (inv_files_len _ _ _ _ _ _ _ HI). lia.
Qed.

(** After a run that succeeds, every chunk file holds the body received for
    its chunk. *)
Lemma finished_holds (sched : list pevent) (st : state) (w : fs)
    (files : list gostring) (err : option (chunkError goerror)) :
  pexec sched (init goerror chunks, w0) = Some (st, w) ->
  main goerror st = Finished goerror (Some files) err ->
  holds w (string_of_list_ascii <$> files) (imap (received sched) chunks)
  /\ Forall (fun body => body <> []) (imap (received sched) chunks).
Proof.
  intros Hex Hmain. pose proof (PInv_reachable sched st w Hex) as HP.
  destruct HP as [[sched0 HI] Hwr _ _].
  rewrite (finished_files sched0 st files err HI Hmain).
  destruct (success_no_failure _ _ _ _ _ _ _ _ _ HI Hmain) as [_ [_ Hnone]].
  assert (Hw : waitOver goerror (main goerror st) = true)
    by (rewrite Hmain; reflexivity).
  assert (Hat : forall i chunk, chunks !! i = Some chunk ->
            w !! chunkPath i = Some (File (received sched i chunk))
            /\ received sched i chunk <> []).
  { intros i chunk Hi.
    destruct (all_exited _ voice _ _ _ _ _ _ HI Hw i chunk Hi)
      as [gr [Hg [Hpc Hcall]]].
    injection Hcall as Htxt. rewrite <- Htxt.
    apply (Hwr i gr Hg); [|exact (Hnone i gr Hg)].
    split; rewrite Hpc; discriminate. }
  split.
  - apply Forall2_same_length_lookup_2.
    + rewrite !length_fmap, length_seq, length_imap. reflexivity.
    + intros i f body Hf Hb. rewrite !list_lookup_fmap in Hf.
      rewrite list_lookup_imap in Hb.
      destruct (chunks !! i) as [chunk|] eqn:Hi; [|discriminate].
      injection Hb as <-.
      rewrite lookup_seq_lt in Hf by (eapply lookup_lt_Some; eauto).
      injection Hf as <-. apply (Hat i chunk Hi).
  - apply Forall_forall. intros body Hin. apply list_elem_of_In in Hin.
    apply list_elem_of_lookup in Hin. destruct Hin as [i Hb].
    rewrite list_lookup_imap in Hb.
    destruct (chunks !! i) as [chunk|] eqn:Hi; [|discriminate].
    injection Hb as <-. apply (Hat i chunk Hi).
Qed.

(** The run and the assembly.  Whatever the schedule and the answers of
    the service, when [generateTTSAudioParallel] returns without error and
    the final file can be created, [concatenateMP3Files] of the slice it
    returns succeeds, and the final file holds the bodies received for the
    chunks, in the order of the chunks, none of them empty; outside the
    chunk files and the final file, the file system is as it was. *)
Theorem final_file_follows_chunk_order (sched : list pevent) (st : state)
    (w w1 : fs) (files : list gostring) (err : option (chunkError goerror))
    (output : string) :
  pexec sched (init goerror chunks, w0) = Some (st, w) ->
  main goerror st = Finished goerror (Some files) err ->
  (forall g, g < length chunks -> chunkPath g <> output) ->
  os_Create w output = inl w1 ->
  concatenateMP3Files w (string_of_list_ascii <$> files) output
  = (<[output := File (concat (imap (received sched) chunks))]> w, None)
  /\ Forall (fun body => body <> []) (imap (received sched) chunks)
  /\ (forall name, (forall g, g < length chunks -> name <> chunkPath g) ->
        w !! name = w0 !! name).
Proof.
  intros Hex Hmain Hout Hc.
  destruct (finished_holds sched st w files err Hex Hmain) as [Hholds Hne].
  pose proof (PInv_reachable sched st w Hex) as HP.
  destruct HP as [[sched0 HI] _ _ Hframe].
  split; [|split; [exact Hne | exact Hframe]].
  assert (Hnotin : output ∉ string_of_list_ascii <$> files).
  { rewrite (finished_files sched0 st files err HI Hmain).
    intros Hin. apply list_elem_of_fmap in Hin. destruct Hin as [f [-> Hin]].
    apply list_elem_of_fmap in Hin. destruct Hin as [g [-> Hin]].
    apply elem_of_seq in Hin. apply (Hout g); [lia | reflexivity]. }
  unfold concatenateMP3Files. rewrite Hc.
  apply os_Create_inl in Hc. subst w1.
  rewrite (copyAll_appends output _ Hnotin _ [] (imap (received sched) chunks)).
  - rewrite insert_insert_eq. reflexivity.
  - apply lookup_insert_eq.
  - apply holds_insert; assumption.
Qed.

End Files.

End Parallel.

Lemma serviceOf_None (sched : list pevent) (g : nat) (service : request -> reply) :
  serviceOf sched g = None -> ~ In (Call g service) sched.
Proof.
  induction sched as [|[g' s'|ev] sched IH]; cbn; intros H; [tauto| |].
  - destruct (decide (g' = g)) as [->|Hne]; [discriminate|].
    intros [Heq|Hin]; [congruence | exact (IH H Hin)].
  - intros [Heq|Hin]; [discriminate | exact (IH H Hin)].
Qed.

(** A blank text.  The chunk builder returns no chunk for it, so the run
    starts no goroutine and makes no call, whatever the schedule; it
    returns the empty slice and leaves the file system as it was, and the
    assembler then leaves a final file of zero bytes and returns [nil]. *)
Theorem blank_text_gives_empty_file (apiKey voice tmpDir : gostring)
    (filepathJoin : gostring -> gostring -> gostring) (text : gostring)
    (maxSize : Z) (w0 w w1 : fs) (sched : list pevent) (st : state goerror)
    (files : option (list gostring)) (err : option (chunkError goerror))
    (output : string) :
  TrimSpace text = [] ->
  pexec apiKey voice tmpDir filepathJoin (splitTextIntoChunks text maxSize) sched
    (init goerror (splitTextIntoChunks text maxSize), w0) = Some (st, w) ->
  main goerror st = Finished goerror files err ->
  os_Create w0 output = inl w1 ->
  files = Some [] /\ err = None /\ w = w0
  /\ (forall g service, ~ In (Call g service) sched)
  /\ concatenateMP3Files w [] output = (<[output := File []]> w0, None).
Proof.
  intros Hblank Hex Hmain Hc. rewrite (blank_chunks text maxSize Hblank) in Hex.
  assert (Hinj : forall i j : nat, i < length (@nil gostring) ->
            j < length (@nil gostring) ->
            chunkPath tmpDir filepathJoin i = chunkPath tmpDir filepathJoin j ->
            i = j) by (cbn; lia).
  destruct (PInv_reachable apiKey voice tmpDir filepathJoin [] w0 Hinj sched st w Hex)
    as [[sched0 HI] _ Hcalled Hframe].
  assert (Hgs : goroutines goerror st = []).
  { pose proof (inv_dispatched _ _ _ _ _ _ _ HI).
    pose proof (inv_bound _ _ _ _ _ _ _ HI).
    destruct (goroutines goerror st); [reflexivity | cbn in *; lia]. }
  assert (Hw : w = w0).
  { apply map_eq. intros name. apply Hframe. cbn. lia. }
  assert (Herrs : errors goerror st = []).
  { pose proof (inv_errors_len _ _ _ _ _ _ _ HI) as Hl. rewrite Hgs in Hl.
    destruct (errors goerror st); [reflexivity | discriminate]. }
  assert (Hfiles : audioFiles goerror st = []).
  { pose proof (inv_files_len _ _ _ _ _ _ _ HI) as Hl.
    destruct (audioFiles goerror st); [reflexivity | discriminate]. }
  destruct (inv_finished _ _ _ _ _ _ _ HI _ _ Hmain) as [Hout _].
  unfold outcome in Hout. rewrite Herrs, Hfiles in Hout.
  injection Hout as -> ->.
  repeat split; auto.
  - intros g service. apply serviceOf_None.
    destruct (serviceOf sched g) eqn:Hs; [|reflexivity].
    destruct (Hcalled g) as [gr [Hg _]]; [congruence|].
    rewrite Hgs in Hg. discriminate.
  - subst w. unfold concatenateMP3Files. rewrite Hc.
    apply os_Create_inl in Hc. subst w1. reflexivity.
Qed.

Lemma blank_text_gives_empty_file_witness :
  Some (@nil gostring) = Some [] /\ @None (chunkError goerror) = None
  /\ (∅ : fs) = ∅
  /\ (forall g service, ~ In (Call g service) [Other (WaitReturns _); Other (Finish _)])
  /\ concatenateMP3Files ∅ [] "podcast_final.mp3"
     = (<["podcast_final.mp3" := File []]> ∅, None).
Proof.
  apply (blank_text_gives_empty_file (lit "sk-1") (lit "alloy") (lit "tmp")
           joinSlash (lit "  ") 2800 ∅ ∅ (<["podcast_final.mp3" := File []]> ∅)
           [Other (WaitReturns _); Other (Finish _)]
           {| main := Finished goerror (Some []) None; goroutines := [];
              semaphore := 0; audioFiles := []; errors := []; progress := 0;
              completed := 0; wg := 0 |}).
  - reflexivity.
  - reflexivity.
  - reflexivity.
  - reflexivity.
Defined.

(** *** A run of two chunks, the second call returning first *)

Definition twoChunks : list gostring := [lit "One."; lit "Two."].

Definition answerWith (body : string) : request -> reply :=
  fun _ => Reply StatusOK (lit body) None.

Definition twoCalls : list pevent :=
  [Other (Dispatch _); Other (Dispatch _); Other (Acquire _ 1); Other (Acquire _ 0);
   Call 1 (answerWith "BB"); Call 0 (answerWith "A");
   Other (Store _ 1); Other (Store _ 0); Other (Signal _ 1); Other (Signal _ 0);
   Other (Release _ 0); Other (Release _ 1); Other (WgDone _ 1); Other (WgDone _ 0);
   Other (ProgressRecv _); Other (ProgressRecv _); Other (WaitReturns _);
   Other (Finish _)].

(** Where the run ends. *)
Definition twoCallsEnd : state goerror * fs :=
  Eval vm_compute in
    match pexec (lit "sk-1") (lit "alloy") (lit "tmp") joinSlash twoChunks
            twoCalls (init goerror twoChunks, ∅) with
    | Some s => s
    | None => (init goerror twoChunks, ∅)
    end.

Lemma twoCalls_run :
  pexec (lit "sk-1") (lit "alloy") (lit "tmp") joinSlash twoChunks twoCalls
    (init goerror twoChunks, ∅)
  = Some (twoCallsEnd.1, twoCallsEnd.2).
Proof. vm_compute. reflexivity. Qed.

Lemma twoChunks_paths (i j : nat) :
  i < length twoChunks -> j < length twoChunks ->
  chunkPath (lit "tmp") joinSlash i = chunkPath (lit "tmp") joinSlash j -> i = j.
Proof.
  destruct i as [|[|i]], j as [|[|j]]; simpl; intros Hi Hj H;
    try lia; try reflexivity; vm_compute in H; discriminate.
Qed.

Lemma final_file_follows_chunk_order_witness :
  concatenateMP3Files twoCallsEnd.2
    (string_of_list_ascii <$> [lit "tmp/chunk_1.mp3"; lit "tmp/chunk_2.mp3"])
    "podcast_final.mp3"
  = (<["podcast_final.mp3" :=
         File (concat (imap (received (lit "sk-1") (lit "alloy") twoCalls)
                            twoChunks))]> twoCallsEnd.2, None)
  /\ Forall (fun body => body <> [])
       (imap (received (lit "sk-1") (lit "alloy") twoCalls) twoChunks)
  /\ (forall name,
        (forall g, g < length twoChunks ->
                   name <> chunkPath (lit "tmp") joinSlash g) ->
        twoCallsEnd.2 !! name = (∅ : fs) !! name).
Proof.
  apply (final_file_follows_chunk_order (lit "sk-1") (lit "alloy") (lit "tmp")
           joinSlash twoChunks ∅ twoChunks_paths twoCalls twoCallsEnd.1
           twoCallsEnd.2 (<["podcast_final.mp3" := File []]> twoCallsEnd.2)
           _ None "podcast_final.mp3").
  - exact twoCalls_run.
  - vm_compute. reflexivity.
  - intros [|[|g]] Hg; simpl in Hg; try lia; vm_compute; discriminate.
  - vm_compute. reflexivity.
Defined.

End Pipeline.

(** ** The console: [strconv.Atoi], [getValidChoice] and the two collectors *)

Module Console.

Import Scheduler.

(** The line feed, ['\n']. *)
Definition nl : ascii := "010"%char.

(** *** [strconv.Atoi], for the 64-bit [int]

    An optional sign, then decimal digits only, at least one; the value has
    to fit the [int].  [None] stands for the two errors, of syntax and of
    range. *)

Definition maxInt : Z := 2 ^ 63 - 1.
Definition minInt : Z := - 2 ^ 63.

Definition isDigit (c : ascii) : bool :=
  ((48 <=? byteval c) && (byteval c <=? 57))%N.

Definition digitValue (c : ascii) : Z := Z.of_N (byteval c) - 48.

(** The digits read after [n], most significant first. *)
Fixpoint digitsFrom (s : gostring) (n : Z) : option Z :=
  match s with
  | [] => Some n
  | c :: s' => if isDigit c then digitsFrom s' (n * 10 + digitValue c) else None
  end.

Definition Atoi (s : gostring) : option Z :=
  let '(neg, body) :=
    match s with
    | c :: rest =>
        if Ascii.eqb c "-" then (true, rest)
        else if Ascii.eqb c "+" then (false, rest)
        else (false, s)
    | [] => (false, s)
    end in
  match body with
  | [] => None
  | _ :: _ =>
      match digitsFrom body 0 with
      | Some n =>
          let i := if neg then - n else n in
          if (minInt <=? i) && (i <=? maxInt) then Some i else None
      | None => None
      end
  end.

(** [stringToInt(s)]. *)
Definition stringToInt (s : gostring) : Z :=
  match Atoi s with
  | Some i => i
  | None => 0
  end.

(** *** [bufio.Reader.ReadString]

    The reader is the input that is left to read.  [ReadString(delim)]
    returns the bytes up to the first [delim], with it; at the end of the
    input it returns what is left, and an error that the program drops. *)
Fixpoint ReadString (reader : gostring) (delim : ascii) : gostring * gostring :=
  match reader with
  | [] => ([], [])
  | c :: rest =>
      if Ascii.eqb c delim then ([c], rest)
      else let '(line, rest') := ReadString rest delim in (c :: line, rest')
  end.

(** *** [getValidChoice] *)

(** What one turn of the loop prints before it reads. *)
Definition menu (options : list gostring) (prompt : gostring) : gostring :=
  [nl] ++ lit "Available " ++ prompt ++ lit ":" ++ [nl]
  ++ concat (imap (fun i opt => decimal (i + 1) ++ lit ". " ++ opt ++ [nl])
                  options)
  ++ lit "Enter your choice (number): ".

Definition invalidChoice : gostring :=
  lit "Invalid choice. Please try again." ++ [nl].

(** [getValidChoice(reader, options, prompt)]: the option chosen, the reader
    after the call and what was printed.  The loop has no bound: [fuel] is
    the number of turns allowed, and [None] says that they did not
    suffice. *)
Fixpoint getValidChoice (fuel : nat) (reader : gostring)
    (options : list gostring) (prompt : gostring)
  : option (gostring * gostring * gostring) :=
  match fuel with
  | O => None
  | S fuel' =>
      let '(input, reader) := ReadString reader nl in
      let input := TrimSpace input in
      let again :=
        match getValidChoice fuel' reader options prompt with
        | Some (choice, reader', printed) =>
            Some (choice, reader', menu options prompt ++ invalidChoice ++ printed)
        | None => None
        end in
      match Atoi input with
      | Some idx =>
          if (idx >? 0) && (idx <=? Z.of_nat (length options))
          then Some (nth (Z.to_nat (idx - 1)) options [], reader,
                     menu options prompt)
          else again
      | None => again
      end
  end.


(** *** The options of the program *)

Definition availableLanguages : list gostring :=
  map lit
    ["Afrikaans"; "Arabic"; "Armenian"; "Azerbaijani"; "Belarusian"; "Bosnian";
     "Bulgarian"; "Catalan"; "Chinese"; "Croatian"; "Czech"; "Danish"; "Dutch";
     "English"; "Estonian"; "Finnish"; "French"; "Galician"; "German"; "Greek";
     "Hebrew"; "Hindi"; "Hungarian"; "Icelandic"; "Indonesian"; "Italian";
     "Japanese"; "Kannada"; "Kazakh"; "Korean"; "Latvian"; "Lithuanian";
     "Macedonian"; "Malay"; "Marathi"; "Maori"; "Nepali"; "Norwegian"; "Persian";
     "Polish"; "Portuguese"; "Romanian"; "Russian"; "Serbian"; "Slovak";
     "Slovenian"; "Spanish"; "Swahili"; "Swedish"; "Tagalog"; "Tamil"; "Thai";
     "Turkish"; "Ukrainian"; "Urdu"; "Vietnamese"; "Welsh"]%string.

Definition availableVoices : list gostring :=
  map lit
    ["alloy"; "ash"; "coral"; "echo"; "fable"; "onyx"; "nova"; "sage";
     "shimmer"]%string.

Record PromptData : Type := {
  TextFile : gostring;
  Voice : gostring;
  Language : gostring
}.

(** [collectUserInputWithFile(textFile)]: the two choices are read from the
    same reader, one after the other. *)
Definition collectUserInputWithFile (fuel : nat) (textFile reader : gostring)
  : option (PromptData * gostring * gostring) :=
  match getValidChoice fuel reader availableVoices (lit "voices") with
  | Some (voice, reader, printed1) =>
      match getValidChoice fuel reader availableLanguages (lit "languages") with
      | Some (language, reader, printed2) =>
          Some ({| TextFile := textFile; Voice := voice; Language := language |},
                reader, printed1 ++ printed2)
      | None => None
      end
  | None => None
  end.

(** *** Facts on digits *)

Section Digits.

Lemma isDigit_not_sign (c : ascii) :
  isDigit c = true -> Ascii.eqb c "-" = false /\ Ascii.eqb c "+" = false.
Proof.
  intros H. split; apply Ascii.eqb_neq; intros ->; discriminate.
Qed.

Lemma isDigit_ascii (c : ascii) : isDigit c = true -> asciiByte c = true.
Proof.
  unfold isDigit, asciiByte. intros H. apply andb_true_iff in H.
  destruct H as [_ H]. apply N.leb_le in H. apply N.ltb_lt. lia.
Qed.

Lemma isDigit_not_space (c : ascii) : isDigit c = true -> space1 c = false.
Proof.
  unfold isDigit, space1, IsSpace. intros H. apply andb_true_iff in H.
  destruct H as [H1 H2]. apply N.leb_le in H1. apply N.leb_le in H2.
  apply andb_false_iff. right.
  assert (Hlt : (byteval c <=? 255)%N = true) by (apply N.leb_le; lia).
  rewrite Hlt.
  repeat (apply orb_false_iff; split);
    first [ apply andb_false_iff; right; apply N.leb_gt; lia
          | apply N.eqb_neq; lia ].
Qed.

(** The bytes of [%d] are digits, and there is one at least. *)
Lemma string_of_uint_digits (d : Decimal.uint) :
  Forall (fun c => isDigit c = true)
    (list_ascii_of_string (NilEmpty.string_of_uint d)).
Proof.
  induction d; simpl; constructor; auto.
Qed.

Lemma decimal_digits (n : nat) : Forall (fun c => isDigit c = true) (decimal n).
Proof. apply string_of_uint_digits. Qed.

Lemma decimal_nonempty (n : nat) : decimal n <> [].
Proof.
  unfold decimal. intros H.
  assert (Hnil : Nat.to_uint n = Decimal.Nil).
  { destruct (Nat.to_uint n); try reflexivity; discriminate. }
  pose proof (DecimalNat.Unsigned.to_of (Nat.to_uint n)) as Hto.
  rewrite DecimalNat.Unsigned.of_to in Hto. rewrite Hnil in Hto at 1.
  symmetry in Hto. rewrite Hnil in Hto.
  exact (DecimalFacts.unorm_nonnil _ Hto).
Qed.

Lemma digitsFrom_uint (d : Decimal.uint) :
  forall acc : nat,
    digitsFrom (list_ascii_of_string (NilEmpty.string_of_uint d)) (Z.of_nat acc)
    = Some (Z.of_nat (Nat.of_uint_acc d acc)).
Proof.
  induction d; intros acc; cbn [NilEmpty.string_of_uint list_ascii_of_string
                                 digitsFrom Nat.of_uint_acc];
    [reflexivity | ..];
    change (isDigit _) with true; cbv iota;
    rewrite <- IHd; f_equal;
    match goal with
    | |- context [digitValue ?c] =>
        let v := eval vm_compute in (digitValue c) in
        change (digitValue c) with v
    end;
    rewrite Nat.tail_mul_spec; lia.
Qed.

Lemma digitsFrom_decimal (n : nat) : digitsFrom (decimal n) 0 = Some (Z.of_nat n).
Proof.
  unfold decimal. change 0 with (Z.of_nat 0).
  rewrite (digitsFrom_uint (Nat.to_uint n) 0).
  change (Nat.of_uint_acc (Nat.to_uint n) 0) with (Nat.of_uint (Nat.to_uint n)).
  rewrite DecimalNat.Unsigned.of_to. reflexivity.
Qed.

(** [Atoi] reads back what [%d] prints. *)
Lemma Atoi_decimal (n : nat) :
  Z.of_nat n <= maxInt -> Atoi (decimal n) = Some (Z.of_nat n).
Proof.
  intros Hmax. unfold Atoi.
  pose proof (decimal_digits n) as Hd. pose proof (decimal_nonempty n) as Hne.
  pose proof (digitsFrom_decimal n) as Hv.
  destruct (decimal n) as [|c rest]; [congruence|].
  inversion Hd as [|? ? Hc _]; subst.
  destruct (isDigit_not_sign c Hc) as [-> ->].
  rewrite Hv. cbv zeta.
  assert (Hr : (minInt <=? Z.of_nat n) && (Z.of_nat n <=? maxInt) = true).
  { apply andb_true_iff. split; apply Z.leb_le; [unfold minInt; lia | exact Hmax]. }
  rewrite Hr. reflexivity.
Qed.

(** A string of digits starts and ends with no white space. *)
Lemma spaceWidth_digit (c : ascii) (s : gostring) :
  isDigit c = true -> spaceWidth (c :: s) = 0%nat.
Proof.
  intros Hc. unfold spaceWidth. rewrite (isDigit_not_space c Hc).
  pose proof (isDigit_ascii c Hc) as Ha.
  destruct s as [|b s]; [reflexivity|].
  rewrite (asciiByte_space2 c b Ha).
  destruct s as [|d s]; [reflexivity|].
  rewrite (asciiByte_space3 c b d Ha). reflexivity.
Qed.

Lemma spaceWidthRev_digit (c : ascii) (r : gostring) :
  isDigit c = true -> spaceWidthRev (c :: r) = 0%nat.
Proof.
  intros Hc. unfold spaceWidthRev. rewrite (isDigit_not_space c Hc).
  pose proof (asciiByte_not_cont c (isDigit_ascii c Hc)) as Hn.
  destruct r as [|b r]; [reflexivity|].
  destruct (space2 b c) eqn:H2.
  { apply space2_cont in H2. congruence. }
  destruct r as [|a r]; [reflexivity|].
  destruct (space3 a b c) eqn:H3; [|reflexivity].
  apply space3_cont in H3. destruct H3. congruence.
Qed.


Lemma ReadString_line (digits : gostring) (rest : gostring) :
  Forall (fun c => isDigit c = true) digits ->
  ReadString (digits ++ nl :: rest) nl = (digits ++ [nl], rest).
Proof.
  induction 1 as [|c digits Hc _ IH]; [reflexivity|].
  cbn [app ReadString].
  assert (Hne : Ascii.eqb c nl = false).
  { apply Ascii.eqb_neq. intros ->. discriminate. }
  rewrite Hne, IH. reflexivity.
Qed.

(** Trimming a line of digits leaves the digits. *)
Lemma TrimSpace_line (digits : gostring) :
  digits <> [] -> Forall (fun c => isDigit c = true) digits ->
  TrimSpace (digits ++ [nl]) = digits.
Proof.
  intros Hne Hd.
  assert (Hlead : spaceWidth (digits ++ [nl]) = 0%nat).
  { destruct digits as [|c digits]; [congruence|].
    inversion Hd; subst. apply spaceWidth_digit. assumption. }
  assert (Hlast : spaceWidthRev (rev digits) = 0%nat).
  { destruct (rev digits) as [|c r] eqn:Hr; [reflexivity|].
    apply spaceWidthRev_digit.
    assert (Hin : In c digits) by (apply in_rev; rewrite Hr; left; reflexivity).
    rewrite Forall_forall in Hd. exact (Hd c Hin). }
  unfold TrimSpace, TrimLeft. rewrite (dropRunes_id _ _ Hlead).
  unfold TrimRight. rewrite rev_app_distr. cbn [rev app].
  rewrite dropRunes_cons. change (spaceWidthRev (nl :: rev digits)) with 1%nat.
  cbv iota. rewrite (dropRunes_id _ _ Hlast). apply rev_involutive.
Qed.

(** A string that [Atoi] accepts holds a digit. *)
Lemma digitsFrom_some (s : gostring) :
  forall n i, digitsFrom s n = Some i -> Forall (fun c => isDigit c = true) s.
Proof.
  induction s as [|c s IH]; intros n i H; [constructor|].
  cbn [digitsFrom] in H. destruct (isDigit c) eqn:Hc; [|discriminate].
  constructor; [exact Hc | exact (IH _ _ H)].
Qed.

Lemma Atoi_Some_digit (s : gostring) (i : Z) :
  Atoi s = Some i -> Exists (fun c => isDigit c = true) s.
Proof.
  unfold Atoi. intros H.
  assert (Hbody : forall body, match body with
            | [] => None
            | _ :: _ => match digitsFrom body 0 with
                        | Some n => Some n
                        | None => None
                        end
            end <> @None Z -> Exists (fun c => isDigit c = true) body).
  { intros [|c body] Hb; [congruence|].
    destruct (digitsFrom (c :: body) 0) as [n|] eqn:Hd; [|congruence].
    apply digitsFrom_some in Hd. inversion Hd; subst. left. assumption. }
  destruct s as [|c rest]; [discriminate|].
  destruct (Ascii.eqb c "-"); [|destruct (Ascii.eqb c "+")].
  - right. apply Hbody. destruct rest; [discriminate|].
    destruct (digitsFrom _ 0); [discriminate | discriminate].
  - right. apply Hbody. destruct rest; [discriminate|].
    destruct (digitsFrom _ 0); [discriminate | discriminate].
  - apply Hbody. destruct (digitsFrom _ 0); [discriminate | discriminate].
Qed.

Lemma ReadString_Forall (P : ascii -> Prop) (reader : gostring) :
  Forall P reader ->
  Forall P (fst (ReadString reader nl)) /\ Forall P (snd (ReadString reader nl)).
Proof.
  induction 1 as [|c reader Hc Hall [IH1 IH2]]; [split; constructor|].
  cbn [ReadString]. destruct (Ascii.eqb c nl).
  - split; [constructor; [exact Hc | constructor] | exact Hall].
  - destruct (ReadString reader nl) as [line rest']. cbn [fst snd] in *.
    split; [constructor; assumption | assumption].
Qed.

Lemma TrimSpace_Forall (P : ascii -> Prop) (s : gostring) :
  Forall P s -> Forall P (TrimSpace s).
Proof.
  intros H. destruct (TrimSpace_part s) as [a [b Hs]].
  rewrite Hs in H. apply Forall_app in H. destruct H as [_ H].
  apply Forall_app in H. tauto.
Qed.

End Digits.

(** [stringToInt] reads back the decimal text of an [int], with or without
    a sign. *)
Theorem stringToInt_decimal (n : nat) :
  Z.of_nat n <= maxInt ->
  stringToInt (decimal n) = Z.of_nat n
  /\ stringToInt ("+"%char :: decimal n) = Z.of_nat n
  /\ stringToInt ("-"%char :: decimal n) = - Z.of_nat n.
Proof.
  intros Hmax. unfold stringToInt. rewrite (Atoi_decimal n Hmax).
  split; [reflexivity|].
  pose proof (decimal_nonempty n) as Hne.
  pose proof (digitsFrom_decimal n) as Hv.
  assert (H1 : (minInt <=? Z.of_nat n) && (Z.of_nat n <=? maxInt) = true).
  { apply andb_true_iff. split; apply Z.leb_le; [unfold minInt; lia | exact Hmax]. }
  assert (H2 : (minInt <=? - Z.of_nat n) && (- Z.of_nat n <=? maxInt) = true).
  { apply andb_true_iff. unfold minInt, maxInt in *.
    split; apply Z.leb_le; lia. }
  destruct (decimal n) as [|c rest]; [congruence|].
  split.
  - change (Atoi ("+"%char :: c :: rest))
      with (match digitsFrom (c :: rest) 0 with
            | Some n0 =>
                if (minInt <=? n0) && (n0 <=? maxInt) then Some n0 else None
            | None => None
            end).
    rewrite Hv, H1. reflexivity.
  - change (Atoi ("-"%char :: c :: rest))
      with (match digitsFrom (c :: rest) 0 with
            | Some n0 =>
                if (minInt <=? - n0) && (- n0 <=? maxInt) then Some (- n0) else None
            | None => None
            end).
    rewrite Hv, H2. reflexivity.
Qed.

Lemma stringToInt_decimal_witness :
  stringToInt (decimal 30) = 30
  /\ stringToInt ("+"%char :: decimal 30) = 30
  /\ stringToInt ("-"%char :: decimal 30) = - 30.
Proof.
  apply (stringToInt_decimal 30). unfold maxInt. lia.
Defined.

(** [stringToInt] returns 0 for a string that holds no digit, and for one
    that holds, after the place of the sign, a byte that is no digit. *)
Theorem stringToInt_zero (s : gostring) :
  Forall (fun c => isDigit c = false) s
  \/ Exists (fun c => isDigit c = false) (tail s) ->
  stringToInt s = 0.
Proof.
  intros H. unfold stringToInt.
  destruct (Atoi s) as [i|] eqn:Ha; [|reflexivity]. exfalso.
  destruct H as [H|H].
  - apply Atoi_Some_digit in Ha. apply Exists_exists in Ha.
    destruct Ha as [c [Hin Hc]]. rewrite Forall_forall in H.
    rewrite (H c Hin) in Hc. discriminate.
  - unfold Atoi in Ha. destruct s as [|c rest]; [discriminate|].
    cbn [tail] in H. apply Exists_exists in H. destruct H as [x [Hin Hx]].
    assert (Hrest : forall n, digitsFrom rest n = None).
    { intros n. destruct (digitsFrom rest n) as [v|] eqn:Hd; [|reflexivity].
      apply digitsFrom_some in Hd. rewrite Forall_forall in Hd.
      rewrite (Hd x Hin) in Hx. discriminate. }
    destruct (Ascii.eqb c "-"); [|destruct (Ascii.eqb c "+")].
    + destruct rest; [discriminate|]. rewrite Hrest in Ha. discriminate.
    + destruct rest; [discriminate|]. rewrite Hrest in Ha. discriminate.
    + cbn [digitsFrom] in Ha. destruct (isDigit c); [|discriminate].
      rewrite Hrest in Ha. discriminate.
Qed.

Lemma stringToInt_zero_witness :
  stringToInt (lit "5 min") = 0.
Proof.
  apply stringToInt_zero. right. right. left. reflexivity.
Defined.

(** *** What [getValidChoice] returns *)

Lemma ReadString_app (reader : gostring) (delim : ascii) :
  reader = fst (ReadString reader delim) ++ snd (ReadString reader delim).
Proof.
  induction reader as [|c reader IH]; [reflexivity|].
  cbn [ReadString]. destruct (Ascii.eqb c delim); [reflexivity|].
  destruct (ReadString reader delim) as [line rest]. cbn [fst snd] in *.
  cbn [app]. congruence.
Qed.

(** One turn of the loop, by what the line read is. *)
Lemma getValidChoice_turn (fuel : nat) (reader : gostring)
    (options : list gostring) (prompt : gostring) :
  getValidChoice (S fuel) reader options prompt
  = let input := TrimSpace (fst (ReadString reader nl)) in
    let reader1 := snd (ReadString reader nl) in
    let again :=
      match getValidChoice fuel reader1 options prompt with
      | Some (choice, reader', printed) =>
          Some (choice, reader', menu options prompt ++ invalidChoice ++ printed)
      | None => None
      end in
    match Atoi input with
    | Some idx =>
        if (idx >? 0) && (idx <=? Z.of_nat (length options))
        then Some (nth (Z.to_nat (idx - 1)) options [], reader1,
                   menu options prompt)
        else again
    | None => again
    end.
Proof.
  cbn [getValidChoice]. destruct (ReadString reader nl) as [input reader1].
  reflexivity.
Qed.


(** The choice returned is one of the options, and the reader has advanced
    over what was read. *)
Theorem getValidChoice_returns_an_option (fuel : nat) :
  forall (reader : gostring) (options : list gostring) (prompt : gostring)
         (choice reader' printed : gostring),
    getValidChoice fuel reader options prompt = Some (choice, reader', printed) ->
    In choice options /\ exists read, reader = read ++ reader'.
Proof.
  induction fuel as [|fuel IH]; intros reader options prompt choice reader' printed H;
    [discriminate|].
  rewrite getValidChoice_turn in H. cbv zeta in H.
  pose proof (ReadString_app reader nl) as Happ.
  set (line := fst (ReadString reader nl)) in *.
  set (reader1 := snd (ReadString reader nl)) in *.
  assert (Hagain : match getValidChoice fuel reader1 options prompt with
                   | Some (choice0, reader0, printed0) =>
                       Some (choice0, reader0,
                             menu options prompt ++ invalidChoice ++ printed0)
                   | None => None
                   end = Some (choice, reader', printed) ->
                   In choice options /\ exists read, reader = read ++ reader').
  { destruct (getValidChoice fuel reader1 options prompt)
      as [[[c0 r0] p0]|] eqn:Hrec; [|discriminate].
    intros [= <- <- _]. destruct (IH _ _ _ _ _ _ Hrec) as [Hin [read Hread]].
    split; [exact Hin|]. exists (line ++ read).
    rewrite <- app_assoc, <- Hread. exact Happ. }
  destruct (Atoi (TrimSpace line)) as [idx|]; [|exact (Hagain H)].
  destruct ((idx >? 0) && (idx <=? Z.of_nat (length options))) eqn:Hg;
    [|exact (Hagain H)].
  injection H as <- <- _.
  apply andb_true_iff in Hg. destruct Hg as [Hpos Hle].
  apply Z.gtb_lt in Hpos. apply Z.leb_le in Hle.
  split; [|exists line; exact Happ].
  apply nth_In. lia.
Qed.

Lemma getValidChoice_returns_an_option_witness :
  In (lit "coral") availableVoices
  /\ exists read, lit "x" ++ [nl] ++ lit "3" ++ [nl] ++ lit "14" = read ++ lit "14".
Proof.
  apply (getValidChoice_returns_an_option 2 _ availableVoices (lit "voices")
           (lit "coral") (lit "14")
           (menu availableVoices (lit "voices") ++ invalidChoice
            ++ menu availableVoices (lit "voices"))).
  vm_compute. reflexivity.
Defined.

(** The menu shows each option after its number. *)
Lemma menu_lists (options : list gostring) (prompt : gostring) (i : nat)
    (opt : gostring) :
  options !! i = Some opt ->
  exists before after,
    menu options prompt
    = before ++ (decimal (i + 1) ++ lit ". " ++ opt ++ [nl]) ++ after.
Proof.
  intros Hi. unfold menu.
  apply list_elem_of_split_length in Hi.
  destruct Hi as [l1 [l2 [-> Hlen]]].
  rewrite imap_app. cbn [imap]. rewrite concat_app. cbn [concat].
  rewrite <- Hlen, Nat.add_0_r.
  eexists ([nl] ++ lit "Available " ++ prompt ++ lit ":" ++ [nl] ++ concat _),
          (concat _ ++ lit "Enter your choice (number): ").
  rewrite <- !app_assoc. reflexivity.
Qed.

Lemma getValidChoice_number (fuel i : nat) (rest : gostring)
    (options : list gostring) (prompt opt : gostring) :
  options !! i = Some opt ->
  Z.of_nat (length options) <= maxInt ->
  getValidChoice (S fuel) (decimal (i + 1) ++ nl :: rest) options prompt
  = Some (opt, rest, menu options prompt).
Proof.
  intros Hi Hmax.
  rewrite getValidChoice_turn.
  rewrite (ReadString_line (decimal (i + 1)) rest (decimal_digits _)).
  cbn [fst snd]. cbv zeta.
  rewrite (TrimSpace_line _ (decimal_nonempty _) (decimal_digits _)).
  pose proof (lookup_lt_Some _ _ _ Hi) as Hlt.
  rewrite Atoi_decimal by lia.
  assert (Hg : (Z.of_nat (i + 1) >? 0)
               && (Z.of_nat (i + 1) <=? Z.of_nat (length options)) = true).
  { apply andb_true_iff. split; [apply Z.gtb_lt | apply Z.leb_le]; lia. }
  rewrite Hg. f_equal. f_equal. f_equal.
  replace (Z.to_nat (Z.of_nat (i + 1) - 1)) with i by lia.
  apply nth_lookup_Some with (d := []) in Hi. exact Hi.
Qed.

(** Typing the number that the menu shows before an option, then the line
    feed, makes the first turn return that option: the reader is left after
    the line and the menu has been printed once. *)
Theorem getValidChoice_reads_the_number (fuel i : nat) (rest : gostring)
    (options : list gostring) (prompt opt : gostring) :
  options !! i = Some opt ->
  Z.of_nat (length options) <= maxInt ->
  getValidChoice (S fuel) (decimal (i + 1) ++ nl :: rest) options prompt
  = Some (opt, rest, menu options prompt)
  /\ exists before after,
       menu options prompt
       = before ++ (decimal (i + 1) ++ lit ". " ++ opt ++ [nl]) ++ after.
Proof.
  intros Hi Hmax. split; [|exact (menu_lists options prompt i opt Hi)].
  exact (getValidChoice_number fuel i rest options prompt opt Hi Hmax).
Qed.

Lemma getValidChoice_reads_the_number_witness :
  getValidChoice 1 (decimal (2 + 1) ++ nl :: lit "14") availableVoices (lit "voices")
  = Some (lit "coral", lit "14", menu availableVoices (lit "voices"))
  /\ exists before after,
       menu availableVoices (lit "voices")
       = before ++ (decimal (2 + 1) ++ lit ". " ++ lit "coral" ++ [nl]) ++ after.
Proof.
  apply (getValidChoice_reads_the_number 0 2 (lit "14") availableVoices
           (lit "voices") (lit "coral")).
  - reflexivity.
  - vm_compute. discriminate.
Defined.

(** On an input that holds no digit, and so at the end of the input, no
    number of turns makes [getValidChoice] return: the loop prints the menu
    and the refusal for ever. *)
Theorem getValidChoice_never_returns (fuel : nat) :
  forall (reader : gostring) (options : list gostring) (prompt : gostring),
    Forall (fun c => isDigit c = false) reader ->
    getValidChoice fuel reader options prompt = None.
Proof.
  induction fuel as [|fuel IH]; intros reader options prompt Hno; [reflexivity|].
  rewrite getValidChoice_turn. cbv zeta.
  destruct (ReadString_Forall _ reader Hno) as [Hline Hrest].
  rewrite (IH _ options prompt Hrest).
  destruct (Atoi (TrimSpace (fst (ReadString reader nl)))) as [idx|] eqn:Ha;
    [|reflexivity].
  exfalso. apply Atoi_Some_digit in Ha. apply Exists_exists in Ha.
  destruct Ha as [c [Hin Hc]].
  pose proof (TrimSpace_Forall _ _ Hline) as Ht. rewrite Forall_forall in Ht.
  rewrite (Ht c Hin) in Hc. discriminate.
Qed.

Lemma getValidChoice_never_returns_witness :
  getValidChoice 100 [] availableVoices (lit "voices") = None
  /\ getValidChoice 100 (lit "coral" ++ [nl]) availableVoices (lit "voices") = None.
Proof.
  split; apply getValidChoice_never_returns; repeat constructor.
Defined.

(** *** The collectors *)


(** The two numbers typed, each on its line, choose the voice and the
    language: the second choice is read where the first has left the
    reader. *)
Theorem collectUserInputWithFile_reads_two_numbers (fuel v l : nat)
    (textFile rest voice language : gostring) :
  availableVoices !! v = Some voice ->
  availableLanguages !! l = Some language ->
  collectUserInputWithFile (S fuel) textFile
    (decimal (v + 1) ++ nl :: decimal (l + 1) ++ nl :: rest)
  = Some ({| TextFile := textFile; Voice := voice; Language := language |},
          rest,
          menu availableVoices (lit "voices")
          ++ menu availableLanguages (lit "languages")).
Proof.
  intros Hv Hl. unfold collectUserInputWithFile.
  rewrite (getValidChoice_number fuel v (decimal (l + 1) ++ nl :: rest)
             availableVoices (lit "voices") voice Hv)
    by (vm_compute; discriminate).
  rewrite (getValidChoice_number fuel l rest availableLanguages
             (lit "languages") language Hl)
    by (vm_compute; discriminate).
  reflexivity.
Qed.

Lemma collectUserInputWithFile_reads_two_numbers_witness :
  collectUserInputWithFile 1 (lit "story.txt")
    (decimal (2 + 1) ++ nl :: decimal (13 + 1) ++ nl :: [])
  = Some ({| TextFile := lit "story.txt"; Voice := lit "coral";
             Language := lit "English" |},
          [],
          menu availableVoices (lit "voices")
          ++ menu availableLanguages (lit "languages")).
Proof.
  apply (collectUserInputWithFile_reads_two_numbers 0 2 13); reflexivity.
Defined.

(** *** [collectUserInput], with the file system *)

(** How a function ends: it returns, or the program exits through
    [os.Exit]. *)
Inductive ending (A : Type) : Type :=
| Returns (a : A)
| Exits (code : Z).
Arguments Returns {A} a.
Arguments Exits {A} code.

Section WithFiles.

Import Assembler.

(** [os.Stat(name)], by its error: the path names nothing. *)
Definition os_Stat (w : fs) (name : string) : option oserror :=
  if decide (name = EmptyString) then Some ENOENT
  else match w !! name with
       | Some _ => None
       | None => Some ENOENT
       end.

Definition askPath : gostring := lit "Enter the path to your text file: ".

(** What is printed for a path that names nothing; the first three bytes
    are the cross mark, U+274C. *)
Definition fileNotFound (textFile : gostring) : gostring :=
  ["226"; "157"; "140"]%char ++ lit " File not found: " ++ textFile ++ [nl].

(** [collectUserInput()]: how it ends, the reader after it and what it has
    printed. *)
Definition collectUserInput (fuel : nat) (w : fs) (reader : gostring)
  : option (ending PromptData * gostring * gostring) :=
  let '(textFile, reader) := ReadString reader nl in
  let textFile := TrimSpace textFile in
  match os_Stat w (string_of_list_ascii textFile) with
  | Some ENOENT => Some (Exits 1, reader, askPath ++ fileNotFound textFile)
  | _ =>
      match getValidChoice fuel reader availableVoices (lit "voices") with
      | Some (voice, reader, printed1) =>
          match getValidChoice fuel reader availableLanguages (lit "languages") with
          | Some (language, reader, printed2) =>
              Some (Returns {| TextFile := textFile; Voice := voice;
                               Language := language |},
                    reader, askPath ++ printed1 ++ printed2)
          | None => None
          end
      | None => None
      end
  end.


End WithFiles.

(** *** The text of a chunk's error *)

(** The text of [fmt.Errorf("chunk %d: %w", index+1, err)], with [cause]
    that of [err]. *)
Definition chunkErrorText (chunkNo : nat) (cause : gostring) : gostring :=
  lit "chunk " ++ decimal chunkNo ++ lit ": " ++ cause.

Lemma digits_then_colon (d1 d2 t1 t2 : gostring) :
  Forall (fun c => isDigit c = true) d1 ->
  Forall (fun c => isDigit c = true) d2 ->
  d1 ++ ":"%char :: t1 = d2 ++ ":"%char :: t2 -> d1 = d2 /\ t1 = t2.
Proof.
  intros H1. revert d2. induction H1 as [|c d1 Hc _ IH]; intros d2 H2 H.
  - destruct H2 as [|c2 d2 Hc2 _]; cbn in H.
    + injection H as <-. split; reflexivity.
    + injection H as <- _. discriminate.
  - destruct H2 as [|c2 d2 Hc2 H2]; cbn in H.
    + injection H as -> _. discriminate.
    + injection H as <- H. destruct (IH d2 H2 H) as [-> ->]. split; reflexivity.
Qed.

Lemma decimal_inj (n1 n2 : nat) : decimal n1 = decimal n2 -> n1 = n2.
Proof.
  intros H. pose proof (digitsFrom_decimal n1) as H1.
  rewrite H, digitsFrom_decimal in H1. injection H1 as H1. lia.
Qed.

(** The text of the error names the chunk: the number and the cause can be
    read back from it. *)
Theorem chunkErrorText_names_the_chunk (n1 n2 : nat) (cause1 cause2 : gostring) :
  chunkErrorText n1 cause1 = chunkErrorText n2 cause2 ->
  n1 = n2 /\ cause1 = cause2.
Proof.
  unfold chunkErrorText. intros H. apply app_inv_head in H.
  change (lit ": " ++ cause1) with (":"%char :: " "%char :: cause1) in H.
  change (lit ": " ++ cause2) with (":"%char :: " "%char :: cause2) in H.
  apply digits_then_colon in H; try apply decimal_digits.
  destruct H as [Hd Ht]. split; [exact (decimal_inj _ _ Hd) | congruence].
Qed.

Lemma chunkErrorText_names_the_chunk_witness :
  (5 = 5)%nat /\ lit "Empty text chunk" = lit "Empty text chunk".
Proof.
  apply (chunkErrorText_names_the_chunk 5 5 (lit "Empty text chunk")
           (lit "Empty text chunk")).
  reflexivity.
Defined.

End Console.

(** ** The program, [main]

    The run of the program on an environment: the arguments, the input,
    the key, what the service answers, the directory that [os.MkdirTemp]
    makes and the schedule of the goroutines.  [os.Exit] ends the program
    at once: the deferred [os.RemoveAll(tmpDir)] runs only when [main]
    returns.  What [main] prints is left out. *)

Module Program.

Import Scheduler Assembler Synthesis Pipeline Console.

(** *** [checkAPIKey] *)

Definition modelsRequest (apiKey : gostring) : request :=
  {| req_method := lit "GET";
     req_url := lit "https://api.openai.com/v1/models";
     req_authorization := lit "Bearer " ++ apiKey;
     req_contentType := None;
     req_payload := [] |}.

Definition checkAPIKey (apiKey : gostring) (service : request -> reply)
  : option goerror :=
  if len apiKey =? 0 then
    Some (PodcastError (lit "initialization")
            (lit "OPENAI_API_KEY environment variable not set") None)
  else
    match service (modelsRequest apiKey) with
    | NoReply err =>
        Some (PodcastError (lit "API validation")
                (lit "Failed to connect to OpenAI API") (Some (NetError err)))
    | Reply status _ _ =>
        if negb (status =? StatusOK)%nat then
          Some (PodcastError (lit "API validation")
                  (lit "Invalid API key (status " ++ decimal status ++ lit ")")
                  None)
        else None
    end.

(** *** The environment and the run *)

Record environment : Type := Environment {
  os_Args : list gostring;
  stdin : gostring;
  OPENAI_API_KEY : gostring;             (* empty when it is not set *)
  models : request -> reply;             (* the answer to [checkAPIKey] *)
  mkdirTemp : option gostring;           (* the directory made, or an error *)
  schedule : list pevent                 (* the goroutines and the service *)
}.

Definition pathOf (name : gostring) : string := string_of_list_ascii name.

Definition finalOutput : string := "podcast_final.mp3".

Section Run.

(** [filepath.Join] of two elements and [os.RemoveAll]. *)
Variable filepathJoin : gostring -> gostring -> gostring.
Variable os_RemoveAll : fs -> gostring -> fs.

(** Step 2 of [main]: the three inputs, or the exit of the collector. *)
Definition promptOf (fuel : nat) (env : environment) (w : fs)
  : option (ending PromptData) :=
  match os_Args env with
  | _ :: textFile :: _ =>
      match os_Stat w (pathOf textFile) with
      | Some ENOENT => Some (Exits 1)
      | _ =>
          match collectUserInputWithFile fuel textFile (stdin env) with
          | Some (promptData, _, _) => Some (Returns promptData)
          | None => None
          end
      end
  | _ =>
      match collectUserInput fuel w (stdin env) with
      | Some (e, _, _) => Some e
      | None => None
      end
  end.

(** The body of [main]: how it ends, the file system then, and the calls
    deferred so far.  [None]: the input does not let [getValidChoice]
    return within [fuel] turns, or the schedule is no execution of
    [generateTTSAudioParallel] up to its return. *)
Definition mainBody (fuel : nat) (env : environment) (w : fs)
  : option (ending unit * fs * list (fs -> fs)) :=
  match checkAPIKey (OPENAI_API_KEY env) (models env) with
  | Some _ => Some (Exits 1, w, [])
  | None =>
      match promptOf fuel env w with
      | None => None
      | Some (Exits code) => Some (Exits code, w, [])
      | Some (Returns promptData) =>
          match os_ReadFile w (pathOf (TextFile promptData)) with
          | inr _ => Some (Exits 1, w, [])
          | inl content =>
              let chunks := splitTextIntoChunks content 2800 in
              match mkdirTemp env with
              | None => Some (Exits 1, w, [])
              | Some tmpDir =>
                  let w1 := <[pathOf tmpDir := Dir]> w in
                  let deferred := [fun w' => os_RemoveAll w' tmpDir] in
                  match pexec (OPENAI_API_KEY env) (Voice promptData) tmpDir
                          filepathJoin chunks (schedule env)
                          (init goerror chunks, w1) with
                  | Some (st, w2) =>
                      match Scheduler.main goerror st with
                      | Finished _ _ (Some _) => Some (Exits 1, w2, deferred)
                      | Finished _ audioFiles None =>
                          match concatenateMP3Files w2
                                  (pathOf <$> default [] audioFiles)
                                  finalOutput with
                          | (w3, Some _) => Some (Exits 1, w3, deferred)
                          | (w3, None) => Some (Returns tt, w3, deferred)
                          end
                      | _ => None
                      end
                  | None => None
                  end
              end
          end
      end
  end.

(** The program: its exit status and the file system it leaves.  The
    deferred calls run, last first, when [main] returns, and not when it
    exits. *)
Definition main (fuel : nat) (env : environment) (w : fs) : option (Z * fs) :=
  match mainBody fuel env w with
  | Some (Returns _, w', deferred) =>
      Some (0, fold_left (fun w'' call => call w'') deferred w')
  | Some (Exits code, w', _) => Some (code, w')
  | None => None
  end.


(** *** Directories stay *)

Lemma generateTTSAudio_keeps_dirs (apiKey : gostring) (service : request -> reply)
    (textChunk voice : gostring) (outputFile : string) (w : fs) (name : string) :
  w !! name = Some Dir ->
  snd (Synthesis.generateTTSAudio apiKey service textChunk voice outputFile w)
    !! name = Some Dir.
Proof.
  intros Hd. destruct (decide (name = outputFile)) as [->|Hne].
  - unfold Synthesis.generateTTSAudio.
    destruct (len (TrimSpace textChunk) =? 0); [exact Hd|].
    destruct (len apiKey =? 0); [exact Hd|].
    destruct (service _) as [err|status body bodyErr]; [exact Hd|].
    destruct (negb (status =? StatusOK)%nat); [exact Hd|].
    unfold os_Create. destruct (decide (outputFile = EmptyString)); [exact Hd|].
    rewrite Hd. exact Hd.
  - rewrite generateTTSAudio_frame by exact Hne. exact Hd.
Qed.

Lemma pexec_keeps_dirs (apiKey voice tmpDir : gostring)
    (join : gostring -> gostring -> gostring) (chunks : list gostring)
    (name : string) (sched : list pevent) :
  forall st w st' w',
    pexec apiKey voice tmpDir join chunks sched (st, w) = Some (st', w') ->
    w !! name = Some Dir -> w' !! name = Some Dir.
Proof.
  induction sched as [|ev sched IH]; intros st w st' w' Hex Hd; cbn [pexec] in Hex.
  - injection Hex as <- <-. exact Hd.
  - destruct (pstep apiKey voice tmpDir join chunks (st, w) ev)
      as [[st1 w1]|] eqn:Hstep; [|discriminate].
    apply (IH st1 w1 st' w' Hex).
    destruct ev as [g service|ev]; cbn [pstep] in Hstep.
    + destruct (goroutines goerror st !! g) as [gr|]; [|discriminate].
      pose proof (generateTTSAudio_keeps_dirs apiKey service (g_text goerror gr)
                    voice (chunkPath tmpDir join (g_index goerror gr)) w name Hd)
        as Hk.
      destruct (Synthesis.generateTTSAudio apiKey service (g_text goerror gr)
                  voice (chunkPath tmpDir join (g_index goerror gr)) w)
        as [err w2].
      destruct (step goerror tmpDir join emptyTextChunk chunks st _);
        [|discriminate].
      injection Hstep as _ <-. exact Hk.
    + destruct ev; try discriminate;
        (destruct (step goerror tmpDir join emptyTextChunk chunks st _);
         [|discriminate]);
        injection Hstep as _ <-; exact Hd.
Qed.

Lemma copyAll_keeps_dirs (output name : string) (files : list string) :
  forall w, w !! name = Some Dir ->
    fst (copyAll w files output) !! name = Some Dir.
Proof.
  induction files as [|f files IH]; intros w Hd; [exact Hd|].
  cbn [copyAll]. destruct (readAll w f) as [bytes|e]; [|exact Hd].
  apply IH. unfold appendTo.
  destruct (w !! output) as [[content|]|] eqn:Ho; try exact Hd.
  rewrite lookup_insert_ne; [exact Hd|]. intros <-. congruence.
Qed.

Lemma concatenateMP3Files_keeps_dirs (w : fs) (files : list string)
    (output name : string) :
  w !! name = Some Dir ->
  fst (concatenateMP3Files w files output) !! name = Some Dir.
Proof.
  intros Hd. unfold concatenateMP3Files.
  destruct (os_Create w output) as [w1|e] eqn:Hc; [|exact Hd].
  apply copyAll_keeps_dirs. pose proof Hc as Hc'.
  apply os_Create_inl in Hc. subst w1.
  rewrite lookup_insert_ne; [exact Hd|]. intros <-.
  unfold os_Create in Hc'. destruct (decide (output = EmptyString)); [discriminate|].
  rewrite Hd in Hc'. discriminate.
Qed.

(** *** How the program ends *)

Lemma promptOf_exit (fuel : nat) (env : environment) (w : fs) (code : Z) :
  promptOf fuel env w = Some (Exits code) -> code = 1.
Proof.
  unfold promptOf.
  destruct (os_Args env) as [|a0 [|textFile rest]].
  - unfold collectUserInput.
    destruct (ReadString (stdin env) nl) as [line r].
    destruct (os_Stat w _) as [[|]|];
      try (intros [= <-]; reflexivity);
      (destruct (getValidChoice fuel r availableVoices _) as [[[v r1] p1]|];
       [|discriminate]);
      (destruct (getValidChoice fuel r1 availableLanguages _) as [[[l r2] p2]|];
       discriminate).
  - unfold collectUserInput.
    destruct (ReadString (stdin env) nl) as [line r].
    destruct (os_Stat w _) as [[|]|];
      try (intros [= <-]; reflexivity);
      (destruct (getValidChoice fuel r availableVoices _) as [[[v r1] p1]|];
       [|discriminate]);
      (destruct (getValidChoice fuel r1 availableLanguages _) as [[[l r2] p2]|];
       discriminate).
  - destruct (os_Stat w (pathOf textFile)) as [[|]|];
      try (intros [= <-]; reflexivity);
      (destruct (collectUserInputWithFile fuel textFile (stdin env))
         as [[[p r] pr]|]; discriminate).
Qed.

(** In every run that ends, the status is 0 or 1.  With status 0 the
    deferred [os.RemoveAll(tmpDir)] has run, on the file system that the
    assembly left.  With status 1 it has not: either the program has
    written nothing, or the temporary directory is still there. *)
Theorem main_exit_keeps_the_temporary_directory (fuel : nat)
    (env : environment) (w w' : fs) (code : Z) :
  main fuel env w = Some (code, w') ->
  (code = 0 \/ code = 1)
  /\ (code = 0 ->
      exists tmpDir w3, mkdirTemp env = Some tmpDir
        /\ w' = os_RemoveAll w3 tmpDir
        /\ mainBody fuel env w
           = Some (Returns tt, w3, [fun w'' => os_RemoveAll w'' tmpDir]))
  /\ (code = 1 ->
      w' = w
      \/ exists tmpDir, mkdirTemp env = Some tmpDir
           /\ w' !! pathOf tmpDir = Some Dir).
Proof.
  unfold main.
  destruct (mainBody fuel env w) as [[[[u|c] w1] deferred]|] eqn:Hbody;
    [| |discriminate]; intros [= <- <-]; unfold mainBody in Hbody.
  - (* main returns *)
    split; [left; reflexivity|]. split; [|discriminate]. intros _.
    destruct (checkAPIKey _ _); [discriminate|].
    destruct (promptOf fuel env w) as [[promptData|c]|]; try discriminate.
    destruct (os_ReadFile w _) as [content|e]; [|discriminate].
    cbv zeta in Hbody.
    destruct (mkdirTemp env) as [tmpDir|]; [|discriminate].
    destruct (pexec _ _ _ _ _ _ _) as [[st w2]|]; [|discriminate].
    destruct (Scheduler.main goerror st) as [i| |audioFiles [e|]];
      try discriminate.
    destruct (concatenateMP3Files w2 _ finalOutput) as [w3 [e|]];
      [discriminate|].
    injection Hbody as <- <- <-.
    exists tmpDir, w3. repeat split; reflexivity.
  - (* the program exits *)
    assert (Hcases : c = 1
              /\ (w1 = w \/ exists tmpDir, mkdirTemp env = Some tmpDir
                                /\ w1 !! pathOf tmpDir = Some Dir)).
    { destruct (checkAPIKey _ _).
      { injection Hbody as <- <- _. split; [reflexivity | left; reflexivity]. }
      destruct (promptOf fuel env w) as [[promptData|c0]|] eqn:Hp;
        [| |discriminate].
      2: { injection Hbody as <- <- _.
           split; [exact (promptOf_exit _ _ _ _ Hp) | left; reflexivity]. }
      destruct (os_ReadFile w _) as [content|e].
      2: { injection Hbody as <- <- _. split; [reflexivity | left; reflexivity]. }
      cbv zeta in Hbody.
      destruct (mkdirTemp env) as [tmpDir|].
      2: { injection Hbody as <- <- _. split; [reflexivity | left; reflexivity]. }
      destruct (pexec _ _ _ _ _ _ _) as [[st w2]|] eqn:Hex; [|discriminate].
      assert (Hd2 : w2 !! pathOf tmpDir = Some Dir).
      { eapply pexec_keeps_dirs; [exact Hex | apply lookup_insert_eq]. }
      destruct (Scheduler.main goerror st) as [i| |audioFiles [e|]];
        try discriminate.
      - injection Hbody as <- <- _. split; [reflexivity|].
        right. exists tmpDir. split; [reflexivity | exact Hd2].
      - pose proof (concatenateMP3Files_keeps_dirs w2
                      (pathOf <$> default [] audioFiles) finalOutput
                      (pathOf tmpDir) Hd2) as Hd3.
        destruct (concatenateMP3Files w2 _ finalOutput) as [w3 [e|]];
          [|discriminate].
        injection Hbody as <- <- _. split; [reflexivity|].
        right. exists tmpDir. split; [reflexivity | exact Hd3]. }
    destruct Hcases as [-> Hw]. split; [right; reflexivity|].
    split; [discriminate|]. intros _. exact Hw.
Qed.






End Run.

(** *** Two runs *)


(** A directory removed with what it holds. *)
Definition removeAll (w : fs) (dir : gostring) : fs :=
  base.filter (fun entry : string * node =>
                 entry.1 <> pathOf dir
                 /\ String.prefix (pathOf dir ++ "/") entry.1 = false) w.

Definition storyFiles : fs := {["story.txt" := File (lit "One. Two.")]}.


Definition failedCall : list pevent :=
  [Other (Dispatch _); Other (Acquire _ 0); Call 0 (answerWith "");
   Other (SendError _ 0); Other (Release _ 0); Other (WgDone _ 0);
   Other (WaitReturns _); Other (Finish _)].

(** The file is given as argument, the voice and the language are typed. *)
Definition storyRun (sched : list pevent) : environment :=
  {| os_Args := [lit "autopodcast"; lit "story.txt"];
     stdin := decimal 3 ++ nl :: decimal 14 ++ [nl];
     OPENAI_API_KEY := lit "sk-1";
     models := fun _ => Reply StatusOK [] None;
     mkdirTemp := Some (lit "podcast_tmp_1");
     schedule := sched |}.

Definition failedFiles : fs :=
  Eval vm_compute in
    match main joinSlash removeAll 1 (storyRun failedCall) storyFiles with
    | Some (_, w') => w'
    | None => ∅
    end.

Lemma failed_run :
  main joinSlash removeAll 1 (storyRun failedCall) storyFiles
  = Some (1, failedFiles).
Proof. vm_compute. reflexivity. Qed.

Lemma main_exit_keeps_the_temporary_directory_witness :
  (1 = 0 \/ 1 = 1)
  /\ (1 = 0 ->
      exists tmpDir w3, mkdirTemp (storyRun failedCall) = Some tmpDir
        /\ failedFiles = removeAll w3 tmpDir
        /\ mainBody joinSlash removeAll 1 (storyRun failedCall) storyFiles
           = Some (Returns tt, w3, [fun w'' => removeAll w'' tmpDir]))
  /\ (1 = 1 ->
      failedFiles = storyFiles
      \/ exists tmpDir, mkdirTemp (storyRun failedCall) = Some tmpDir
           /\ failedFiles !! pathOf tmpDir = Some Dir).
Proof.
  exact (main_exit_keeps_the_temporary_directory joinSlash removeAll 1
           (storyRun failedCall) storyFiles failedFiles 1 failed_run).
Defined.







End Program.
